(** * networked-globe: the propagation engine, graph builder and geometry
      generator of [src/main.cc], embedded in Rocq.

    The C++ code computes with IEEE-754 [float] (binary32) and [double]
    (binary64) numbers.  Finite floating-point values are rationals, so a
    value is modelled by the rational it denotes, kept in lowest terms, and
    every arithmetic operation is the exact rational operation followed by
    rounding to nearest, ties to even, in the format of the C++ expression.
    Each operation is evaluated in the type the C++ rules give it, with no
    excess precision, as on x86-64 and AArch64.  Infinities, NaN and the
    sign of zero are outside the model: no value the program stores comes
    near them. *)

From Stdlib Require Import ZArith QArith Qabs Lia Lqa.
From Stdlib Require Qcanon.
From stdpp Require Import base option list.

Local Open Scope Z_scope.

(** ** IEEE-754 rounding on rationals *)

Module Ieee.

Record format := { prec : Z; emin : Z }.

Definition binary32 : format := {| prec := 24; emin := -149 |}.
Definition binary64 : format := {| prec := 53; emin := -1074 |}.

(** [m * 2^e] as a rational in lowest terms. *)
Definition scale2 (m e : Z) : Q :=
  if 0 <=? e then Qmake (m * 2 ^ e) 1
  else Qred (Qmake m (Z.to_pos (2 ^ (- e)))).

(** The fraction [n / (d * 2^e)] as a numerator and a denominator. *)
Definition shifted (n d e : Z) : Z * Z :=
  if 0 <=? e then (n, d * 2 ^ e) else (n * 2 ^ (- e), d).

(** Rounding of the positive rational [n / d]: the exponent [e] of the
    last place is chosen so that the significand has [prec] bits (or is
    the least exponent of the format, for subnormals); the significand
    is the quotient, moved to the nearest integer, ties to even. *)
Definition round_pos (fmt : format) (n d : Z) : Q :=
  let e1 := Z.log2 n - Z.log2 d - prec fmt in
  let '(n1, d1) := shifted n d e1 in
  let e2 := if 2 ^ prec fmt * d1 <=? n1 then e1 + 1 else e1 in
  let e := Z.max e2 (emin fmt) in
  let '(n2, d2) := shifted n d e in
  let m := n2 / d2 in
  let r := n2 mod d2 in
  let m' := match 2 * r ?= d2 with
            | Lt => m
            | Gt => m + 1
            | Eq => if Z.even m then m else m + 1
            end in
  scale2 m' e.

Definition round (fmt : format) (q : Q) : Q :=
  match Qnum q with
  | Z0 => Qmake 0 1
  | Zpos n => round_pos fmt (Zpos n) (Zpos (Qden q))
  | Zneg n => Qopp (round_pos fmt (Zpos n) (Zpos (Qden q)))
  end.

(** Leibniz equality of rationals in lowest terms. *)
Definition Qeqb (x y : Q) : bool :=
  (Qnum x =? Qnum y) && (Qden x =? Qden y)%positive.

Definition Qltb (x y : Q) : bool := negb (Qle_bool y x).

End Ieee.

(** C++ [float] and [double]. *)
Definition float : Type := Q.
Definition double : Type := Q.
Bind Scope Q_scope with float double.

Definition to_float (x : double) : float := Ieee.round Ieee.binary32 x.
Definition to_double (x : float) : double := x.

Definition fadd (x y : float) : float := Ieee.round Ieee.binary32 (x + y)%Q.
Definition fsub (x y : float) : float := Ieee.round Ieee.binary32 (x - y)%Q.
Definition fmul (x y : float) : float := Ieee.round Ieee.binary32 (x * y)%Q.
Definition fdiv (x y : float) : float := Ieee.round Ieee.binary32 (x / y)%Q.

Definition dadd (x y : double) : double := Ieee.round Ieee.binary64 (x + y)%Q.
Definition dsub (x y : double) : double := Ieee.round Ieee.binary64 (x - y)%Q.
Definition dmul (x y : double) : double := Ieee.round Ieee.binary64 (x * y)%Q.
Definition ddiv (x y : double) : double := Ieee.round Ieee.binary64 (x / y)%Q.

(** A decimal literal of type [double], and one with the [f] suffix. *)
Definition dlit (q : Q) : double := Ieee.round Ieee.binary64 q.
Definition flit (q : Q) : float := Ieee.round Ieee.binary32 q.

Definition fneg (x : float) : float := Qopp x.

(** [static_cast<float>(i)] for an [int]. *)
Definition float_of_int (i : Z) : float := Ieee.round Ieee.binary32 (inject_Z i).

(** [std::min(a, b)] is [(b < a) ? b : a]. *)
Definition std_min (a b : float) : float := if Ieee.Qltb b a then b else a.

(** ** glm vectors *)

Record vec3 := { vx : float; vy : float; vz : float }.

(** The componentwise operators of [glm::vec3]. *)
Definition vec_add (a b : vec3) : vec3 :=
  {| vx := fadd (vx a) (vx b); vy := fadd (vy a) (vy b); vz := fadd (vz a) (vz b) |}.
Definition vec_sub (a b : vec3) : vec3 :=
  {| vx := fsub (vx a) (vx b); vy := fsub (vy a) (vy b); vz := fsub (vz a) (vz b) |}.
(** [scalar * v] *)
Definition scalar_mul (s : float) (v : vec3) : vec3 :=
  {| vx := fmul s (vx v); vy := fmul s (vy v); vz := fmul s (vz v) |}.
(** [v *= s] for a scalar of another type [U]: each component is multiplied
    by [static_cast<float>(s)]. *)
Definition vec_mul_assign (v : vec3) (s : double) : vec3 :=
  {| vx := fmul (vx v) (to_float s);
     vy := fmul (vy v) (to_float s);
     vz := fmul (vz v) (to_float s) |}.

(** ** Data model *)

(** [connection_vertex] and [city_vertex] are [std::tuple<glm::vec3, float>];
    a [geometry<V>] is modelled by the vertex data given to [set_data]. *)
Definition connection_vertex : Type := vec3 * float.
Definition city_vertex : Type := vec3 * float.
Abbreviation geometry V := (list V) (only parsing).

Record connection := {
  active : bool;
  elapsed : float;
  target_vertex : Z;
  mesh : geometry connection_vertex
}.

Record graph_vertex := {
  position : vec3;
  connections : list connection
}.

Abbreviation graph := (list graph_vertex) (only parsing).

Definition set_active (c : connection) (b : bool) : connection :=
  {| active := b; elapsed := elapsed c;
     target_vertex := target_vertex c; mesh := mesh c |}.
Definition set_elapsed (c : connection) (e : float) : connection :=
  {| active := active c; elapsed := e;
     target_vertex := target_vertex c; mesh := mesh c |}.
Definition set_connections (v : graph_vertex) (cs : list connection) : graph_vertex :=
  {| position := position v; connections := cs |}.

(** The edge [k] of vertex [i]. *)
Definition edge_at (g : graph) (i k : nat) : option connection :=
  v ← g !! i; connections v !! k.

(** ** The random source

    [std::rand] draws from a hidden global sequence: the tape of all its
    future results and the number of draws made so far. *)
Record rng := { tape : nat -> Z; drawn : nat }.

Definition rand (r : rng) : Z * rng :=
  (tape r (drawn r), {| tape := tape r; drawn := S (drawn r) |}).

(** ** Graph builder and edge geometry generator *)

Record city := { latitude : float; longitude : float }.

Section Builder.

(** [std::sin], [std::cos] on [float], and glm's [normalize] and
    [distance]: library functions, taken as they are. *)
Variable sinf cosf : float -> float.
Variable glm_normalize : vec3 -> vec3.
Variable glm_distance : vec3 -> vec3 -> float.

Definition to_position (latitude longitude : float) : vec3 :=
  let y := sinf latitude in
  let r := cosf latitude in
  let z := fmul r (sinf longitude) in
  let x := fmul (fneg r) (cosf longitude) in
  {| vx := x; vy := y; vz := z |}.

Definition num_steps : Z := 256.

(** [1.0 + max_height * (1.0 - 4.0 * (t - 0.5) * (t - 0.5))], in [double]. *)
Definition scale (max_height : float) (t : float) : double :=
  dadd 1 (dmul (to_double max_height)
               (dsub 1 (dmul (dmul 4 (dsub (to_double t) (1 # 2)))
                             (dsub (to_double t) (1 # 2))))).

(** The [t] of step [i]: [static_cast<float>(i) / (num_steps - 1)]. *)
Definition step_t (i : Z) : float :=
  fdiv (float_of_int i) (float_of_int (num_steps - 1)).

(** One turn of the loop of [build_connection_geometry]. *)
Definition connection_sample (from_normal to_normal : vec3) (max_height : float)
    (i : Z) : connection_vertex :=
  let t := step_t i in
  let v := glm_normalize
             (vec_add from_normal (scalar_mul t (vec_sub to_normal from_normal))) in
  let s := scale max_height t in
  (vec_mul_assign v s, t).

(** [for (int i = ...; i < num_steps; ++i) verts.emplace_back(v, t)],
    with [n] turns left. *)
Fixpoint build_loop (from_normal to_normal : vec3) (max_height : float)
    (n : nat) (i : Z) (verts : list connection_vertex) : list connection_vertex :=
  match n with
  | O => verts
  | S n' =>
      build_loop from_normal to_normal max_height n' (i + 1)
        (verts ++ [connection_sample from_normal to_normal max_height i])
  end.

Definition build_connection_geometry (from_normal to_normal : vec3)
    (max_height : float) : geometry connection_vertex :=
  build_loop from_normal to_normal max_height (Z.to_nat num_steps) 0 [].

Definition initialize_graph (cities : list city) : graph :=
  (λ c, {| position := to_position (latitude c) (longitude c);
           connections := [] |}) <$> cities.

Definition min_distance : double := dlit (75 # 100).
Definition min_height : double := dlit (5 # 100).
Definition max_height : double := dlit (3 # 10).

(** [min_height + (d / min_distance) * (max_height - min_height)], in
    [double]. *)
Definition connection_height (d : float) : double :=
  dadd min_height
       (dmul (ddiv (to_double d) min_distance) (dsub max_height min_height)).

(** The body of the inner loop of [initialize_connections] at [(i, j)].
    The counters are [int]s that stay below [graph_.size()], the length of
    the city table, so they are modelled without wrap-around. *)
Definition connect (i j : nat) (st : graph * rng) : graph * rng :=
  let '(g, r) := st in
  if decide (i = j) then st
  else
    match g !! i, g !! j with
    | Some vi, Some vj =>
        let from := position vi in
        let to := position vj in
        let d := glm_distance from to in
        if Ieee.Qltb (to_double d) min_distance then
          let '(x, r') := rand r in
          let height := connection_height d in
          let conn :=
            {| active := Z.rem x 150 =? 0;
               elapsed := 0;
               target_vertex := Z.of_nat j;
               mesh := build_connection_geometry from to (to_float height) |} in
          (<[i := set_connections vi (connections vi ++ [conn])]> g, r')
        else st
    | _, _ => st
    end.

Definition initialize_connections (g : graph) (r : rng) : graph * rng :=
  let n := length g in
  foldl (fun st i => foldl (fun st j => connect i j st) st (seq 0 n))
        (g, r) (seq 0 n).

End Builder.

(** ** Propagation engine *)

(** [conn->elapsed += 0.02]: the sum is formed in [double] and stored
    back as a [float]. *)
Definition advance (e : float) : float :=
  to_float (dadd (to_double e) (dlit (2 # 100))).

(** [elapsed >= 1.0], compared in [double]. *)
Definition completed (e : float) : bool := Qle_bool 1 (to_double e).

(** The scan of the target's connections, with [activated] switched so far. *)
Fixpoint activate_loop (activated : Z) (conns : list connection) : list connection :=
  match conns with
  | [] => []
  | next_conn :: rest =>
      if negb (active next_conn) then
        let activated' := activated + 1 in
        if activated' =? 3 then set_active next_conn true :: rest
        else set_active next_conn true :: activate_loop activated' rest
      else next_conn :: activate_loop activated rest
  end.

(** The body of the inner loop of [step_connections] for the connection
    [k] of vertex [i].  [None] is an index out of the range of [graph_]. *)
Definition step_connection (i k : nat) (g : graph) : option graph :=
  vertex ← g !! i;
  conn ← connections vertex !! k;
  if negb (active conn) || completed (elapsed conn) then Some g
  else
    let conn' := set_elapsed conn (advance (elapsed conn)) in
    let g1 := <[i := set_connections vertex (<[k := conn']> (connections vertex))]> g in
    if completed (elapsed conn') then
      if target_vertex conn' <? 0 then None
      else
        let t := Z.to_nat (target_vertex conn') in
        target ← g1 !! t;
        Some (<[t := set_connections target
                       (activate_loop 0 (connections target))]> g1)
    else Some g1.

Fixpoint step_from (i : nat) (ks : list nat) (g : graph) : option graph :=
  match ks with
  | [] => Some g
  | k :: ks' => g' ← step_connection i k g; step_from i ks' g'
  end.

Definition step_vertex (i : nat) (g : graph) : option graph :=
  vertex ← g !! i;
  step_from i (seq 0 (length (connections vertex))) g.

Fixpoint step_vertices (idx : list nat) (g : graph) : option graph :=
  match idx with
  | [] => Some g
  | i :: idx' => g' ← step_vertex i g; step_vertices idx' g'
  end.

Definition step_connections (g : graph) : option graph :=
  step_vertices (seq 0 (length g)) g.

(** [n] ticks. *)
Fixpoint ticks (n : nat) (g : graph) : option graph :=
  match n with
  | O => Some g
  | S n' => g' ← step_connections g; ticks n' g'
  end.

(** ** Consumers of the propagation state *)

(** [std::max_element] with the comparison [a->elapsed < b->elapsed]:
    the first largest element. *)
Fixpoint max_element (largest : connection) (rest : list connection) : connection :=
  match rest with
  | [] => largest
  | c :: rest' =>
      if Ieee.Qltb (elapsed largest) (elapsed c) then max_element c rest'
      else max_element largest rest'
  end.

(** The body of the loop of [update_cities_mesh]: [vert_data] is the mapped
    buffer and [n] both the write position and [num_active_cities_].
    [None] is a write past the end of the buffer. *)
Definition update_vertex (vertex : graph_vertex) (st : list city_vertex * nat)
    : option (list city_vertex * nat) :=
  let '(vert_data, n) := st in
  match connections vertex with
  | [] => Some st
  | c :: cs =>
      let e := elapsed (max_element c cs) in
      if Qeq_bool e 0 then Some st
      else
        let alpha := std_min 1 (fmul e 2) in
        if decide (n < length vert_data)%nat
        then Some (<[n := (position vertex, alpha)]> vert_data, S n)
        else None
  end.

Fixpoint update_loop (vs : list graph_vertex) (st : list city_vertex * nat)
    : option (list city_vertex * nat) :=
  match vs with
  | [] => Some st
  | v :: vs' => st' ← update_vertex v st; update_loop vs' st'
  end.

(** [mapped] is the content of the buffer when it is mapped; the buffer
    was given [graph_.size()] entries by [initialize_meshes]. *)
Definition update_cities_mesh (g : graph) (mapped : list city_vertex)
    : option (list city_vertex * nat) :=
  update_loop g (mapped, O).

(** The values given to the uniform [tex_offset] by one call of
    [render_connections], in the order of the draw calls. *)
Definition render_connections (g : graph) : list float :=
  flat_map (fun vertex =>
              flat_map (fun conn => if active conn then [elapsed conn] else [])
                       (connections vertex)) g.

(** ** The frame loop

    The state of a [demo] object, as far as this file follows it: the
    graph, the clock, the vertex buffer of [cities_] and the number of
    its entries that are drawn. *)
Record demo := {
  graph_ : graph;
  cur_time_ : float;
  cities_ : list city_vertex;
  num_active_cities_ : nat }.

(** What one call of [render_connections] hands to the GPU: the buffer of
    [cities_] and the number of its points that are drawn, and the
    [tex_offset] of each edge that is drawn. *)
Record pass := {
  vertex_data : list city_vertex;
  drawn_cities : nat;
  tex_offsets : list float }.

(** [initialize_meshes]: the buffer of [cities_] gets [graph_.size()]
    entries and no data, so its content is whatever [garbage] the memory
    holds. *)
Definition initialize_meshes (g : graph) (garbage : nat → city_vertex)
    : list city_vertex :=
  garbage <$> seq 0 (length g).

(** [render]: [update_cities_mesh], then, with [GLOW] defined, one pass
    into the blur buffer and one to the screen. *)
Definition render (d : demo) : option (demo * list pass) :=
  '(buf, n) ← update_cities_mesh (graph_ d) (cities_ d);
  let d' := {| graph_ := graph_ d; cur_time_ := cur_time_ d;
               cities_ := buf; num_active_cities_ := n |} in
  let p := {| vertex_data := buf; drawn_cities := n;
              tex_offsets := render_connections (graph_ d) |} in
  Some (d', [p; p]).

(** [render_and_step]: [render], then [step_connections], then
    [cur_time_ += dt]. *)
Definition render_and_step (d : demo) (dt : float) : option (demo * list pass) :=
  '(d1, f) ← render d;
  g' ← step_connections (graph_ d1);
  Some ({| graph_ := g'; cur_time_ := fadd (cur_time_ d1) dt;
           cities_ := cities_ d1; num_active_cities_ := num_active_cities_ d1 |}, f).

(** [1.0f / 60], the [dt] of [main]. *)
Definition dt : float := fdiv 1 (float_of_int 60).

(** [n] turns of the loop of [main], with the frames they draw. *)
Fixpoint main_loop (n : nat) (d : demo) : option (demo * list (list pass)) :=
  match n with
  | O => Some (d, [])
  | S n' =>
      '(d1, f) ← render_and_step d dt;
      '(d2, fs) ← main_loop n' d1;
      Some (d2, f :: fs)
  end.

Section Demo.

Variable sinf cosf : float → float.
Variable normalize : vec3 → vec3.
Variable distance : vec3 → vec3 → float.

(** The constructor of [demo], for the table [cities], the random source
    [r], and the [garbage] and the number [n0] that the uninitialized
    buffer and counter hold. *)
Definition demo_new (cities : list city) (r : rng)
    (garbage : nat → city_vertex) (n0 : nat) : demo :=
  let g := initialize_graph sinf cosf cities in
  let buf := initialize_meshes g garbage in
  {| graph_ := (initialize_connections normalize distance g r).1;
     cur_time_ := 0;
     cities_ := buf;
     num_active_cities_ := n0 |}.

End Demo.

(** ** An instance of the library functions

    glm's [distance] and [normalize] as its headers define them on
    [vec3] ([length (p1 - p0)] and [v * inversesqrt (dot v v)]), over a
    correctly rounded square root.  The theorems below hold for any
    [distance] and [normalize]; this instance runs the builder on
    concrete positions. *)

Module GlmModel.

(** The correctly rounded square root of a positive rational [n / d]:
    the integer square root [s] of [n / d] scaled by [4^k] has more bits
    than the format, so [s], or a point strictly between [s] and
    [s + 1] when the root is not exact, rounds like the root. *)
Definition sqrt_pos (fmt : Ieee.format) (n d : Z) : Q :=
  let k := Z.max 0 (Ieee.prec fmt + 4 + (Z.log2 d - Z.log2 n) / 2) in
  let x := n * 4 ^ k / d in
  let s := Z.sqrt x in
  if s * s * d =? n * 4 ^ k
  then Ieee.round fmt (Qmake s (Z.to_pos (2 ^ k)))
  else Ieee.round fmt (Qmake (2 * s + 1) (Z.to_pos (2 ^ (k + 1)))).

Definition fsqrt (x : float) : float :=
  match Qnum x with
  | Zpos n => sqrt_pos Ieee.binary32 (Zpos n) (Zpos (Qden x))
  | _ => 0
  end.

Definition dot (a b : vec3) : float :=
  fadd (fadd (fmul (vx a) (vx b)) (fmul (vy a) (vy b))) (fmul (vz a) (vz b)).

Definition length (v : vec3) : float := fsqrt (dot v v).

Definition distance (p0 p1 : vec3) : float := length (vec_sub p1 p0).

Definition inversesqrt (x : float) : float := fdiv 1 (fsqrt x).

Definition normalize (v : vec3) : vec3 :=
  let s := inversesqrt (dot v v) in
  {| vx := fmul (vx v) s; vy := fmul (vy v) s; vz := fmul (vz v) s |}.

End GlmModel.

(** * Vocabulary of the properties *)

(** ** The values an [elapsed] field can take

    Every edge starts at [0] and is only ever advanced while it is below
    [1.0], so the stored values are the iterates of [advance] from [0]. *)

Fixpoint orbit_from (n : nat) (x : float) : list float :=
  match n with
  | O => [x]
  | S n' => x :: orbit_from n' (advance x)
  end.

(** The 52 values from [0] to the first one that is not below [1.0]. *)
Definition orbit : list float := Eval vm_compute in orbit_from 51 0.

Definition in_orbit (x : float) : bool := existsb (Ieee.Qeqb x) orbit.

(** The value of a completed edge: the first iterate that is not below [1.0]. *)
Definition overshoot : float := 8556377 # 8388608.

(** ** Rounding, step by step *)

(** The comparison of [t] with [n / (d * 2^e)]. *)
Definition cmp (n d e t : Z) : comparison :=
  (t * (Ieee.shifted n d e).2 ?= (Ieee.shifted n d e).1).

(** The exponent of the last place that [round_pos] chooses. *)
Definition exponent (fmt : Ieee.format) (n d : Z) : Z :=
  let e1 := Z.log2 n - Z.log2 d - Ieee.prec fmt in
  let e2 := if 2 ^ Ieee.prec fmt * (Ieee.shifted n d e1).2 <=? (Ieee.shifted n d e1).1
            then e1 + 1 else e1 in
  Z.max e2 (Ieee.emin fmt).

(** The quotient [N / D] moved to the nearest integer, ties to even. *)
Definition nearest (N D : Z) : Z :=
  match 2 * (N mod D) ?= D with
  | Lt => N / D
  | Gt => N / D + 1
  | Eq => if Z.even (N / D) then N / D else N / D + 1
  end.

(** ** The cascade scan *)

(** The number of inactive connections of [l]. *)
Fixpoint inactive_count (l : list connection) : nat :=
  match l with
  | [] => 0
  | c :: l' => (if active c then 0 else 1) + inactive_count l'
  end.

(** The number of positions that are inactive in [l] and active in [l']. *)
Fixpoint switched (l l' : list connection) : nat :=
  match l, l' with
  | c :: r, c' :: r' => (if negb (active c) && active c' then 1 else 0) + switched r r'
  | _, _ => 0
  end.

(** ** What one tick does to each edge *)

(** An edge the loop has not reached yet is either unchanged or has been
    switched on by a cascade. *)
Definition later (c c' : connection) : Prop :=
  c' = c ∨ (active c = false ∧ c' = set_active c true).

(** The effect of the loop body on the edge it visits. *)
Definition advanced (c : connection) : connection :=
  if active c && negb (completed (elapsed c))
  then set_elapsed c (advance (elapsed c))
  else c.

(** An edge the loop has passed: it may have been switched on before the
    visit, was advanced at the visit if it was active and below [1.0],
    and may have been switched on after the visit. *)
Definition visited (c c' : connection) : Prop :=
  ∃ c1, later c c1 ∧ later (advanced c1) c'.

(** [g'] has the vertices and edges of [g], and the edge [k] of vertex
    [i] of [g] is related by [R i k] to the one of [g']. *)
Definition graph_rel (R : nat → nat → connection → connection → Prop)
    (g g' : graph) : Prop :=
  length g' = length g ∧
  ∀ i v, g !! i = Some v →
    ∃ v', g' !! i = Some v' ∧
          position v' = position v ∧
          length (connections v') = length (connections v) ∧
          ∀ k c, connections v !! k = Some c →
            ∃ c', connections v' !! k = Some c' ∧ R i k c c'.

(** Edges in the set [S] have been visited, the others not yet. *)
Definition rel_on (S : nat → nat → Prop) (i k : nat) (c c' : connection) : Prop :=
  (S i k ∧ visited c c') ∨ (¬ S i k ∧ later c c').

(** What one tick does to an edge, as seen from outside. *)
Definition tick_rel (c c' : connection) : Prop :=
  target_vertex c' = target_vertex c ∧
  mesh c' = mesh c ∧
  (active c = true → active c' = true) ∧
  (elapsed c <= elapsed c')%Q ∧
  (elapsed c' = elapsed c ∨ elapsed c' = advance (elapsed c)) ∧
  (active c = true → completed (elapsed c) = false →
   elapsed c' = advance (elapsed c)) ∧
  (completed (elapsed c) = true → elapsed c' = elapsed c).

(** [e'] is what [elapsed += 0.02] stores for [e], in numbers: the
    [float] of the [double] sum of [e] and the literal [0.02], which is
    strictly above [e], by [0.02] up to half the last place of a [float]
    below [1.0]. *)
Definition stepped (e e' : float) : Prop :=
  e' = to_float (dadd (to_double e) (dlit (2 # 100))) ∧
  (e < e')%Q ∧
  (Qabs (e' - e - (2 # 100)) <= 1 # 33554432)%Q.

(** What one tick does to an edge, with the amount of the step: its
    [elapsed] is kept or stepped once, and stepped when the edge is
    active and below [1.0]. *)
Definition tick_step (c c' : connection) : Prop :=
  tick_rel c c' ∧
  (elapsed c' = elapsed c ∨ stepped (elapsed c) (elapsed c')) ∧
  (active c = true → completed (elapsed c) = false →
   stepped (elapsed c) (elapsed c')).

(** ** Invariants of the graph state *)

(** An edge of a graph with [n] vertices is well formed: its target is a
    vertex, its [elapsed] is one of the values an edge can hold, and it
    is [0] as long as the edge is inactive. *)
Definition edge_ok (n : nat) (c : connection) : Prop :=
  0 ≤ target_vertex c < Z.of_nat n ∧
  in_orbit (elapsed c) = true ∧
  (active c = false → elapsed c = 0%Q).

(** Every edge of the graph is well formed. *)
Definition graph_ok (g : graph) : Prop :=
  ∀ i v k c, g !! i = Some v → connections v !! k = Some c →
             edge_ok (length g) c.

(** ** The dynamic vertex producer *)

(** The largest [elapsed] among the edges of a vertex that has edges. *)
Definition max_elapsed (v : graph_vertex) : option float :=
  match connections v with
  | [] => None
  | c :: cs => Some (elapsed (max_element c cs))
  end.

(** The vertices that contribute an entry. *)
Definition lit (v : graph_vertex) : bool :=
  match max_elapsed v with
  | Some e => negb (Qeq_bool e 0)
  | None => false
  end.

(** The entry a contributing vertex writes. *)
Definition city_entry (v : graph_vertex) : city_vertex :=
  (position v, std_min 1 (fmul (default 0%Q (max_elapsed v)) 2)).

(** ** The edge geometry generator *)

(** The checks on the parameter [t] of step [i], run on all 256 steps. *)
Definition step_t_check (i : Z) : bool :=
  Qle_bool 0 (step_t i) && Qle_bool (step_t i) 1
  && Qle_bool (Qabs (step_t i - inject_Z i / 255)) (1 # 2 ^ 25)
  && ((255 <=? i) || Ieee.Qltb (step_t i) (step_t (i + 1))).

(** ** The graph built by [initialize_connections] *)

(** The graph [initialize_graph] hands to [initialize_connections]: the
    positions, and no connection yet. *)
Definition graph_of_positions (ps : list vec3) : graph :=
  (λ p, {| position := p; connections := [] |}) <$> ps.

Section BuiltGraph.

Variable normalize : vec3 → vec3.
Variable distance : vec3 → vec3 → float.

(** The test that lets the pair [(i, j)] have an edge. *)
Definition near (ps : list vec3) (i j : nat) : bool :=
  match ps !! i, ps !! j with
  | Some pi, Some pj =>
      bool_decide (i ≠ j) && Ieee.Qltb (to_double (distance pi pj)) min_distance
  | _, _ => false
  end.

(** What every edge from [i] to [j] is when it is created, whatever
    the random source draws. *)
Definition built (ps : list vec3) (i j : nat) (c : connection) : Prop :=
  target_vertex c = Z.of_nat j ∧
  elapsed c = 0%Q ∧
  ∃ pi pj, ps !! i = Some pi ∧ ps !! j = Some pj ∧
           mesh c = build_connection_geometry normalize pi pj
                      (to_float (connection_height (distance pi pj))).

(** The graph [graph_] once the constructor of [demo] has run, for the
    positions [ps] and the random source [r]. *)
Definition constructed (ps : list vec3) (r : rng) : graph :=
  (initialize_connections normalize distance (graph_of_positions ps) r).1.

End BuiltGraph.

(** ** Runs of ticks *)

(** An edge that a tick may have touched. *)
Definition moved (c c' : connection) : Prop := visited c c' ∨ later c c'.

(** What every run of loop bodies keeps of an edge. *)
Definition kept (c c' : connection) : Prop :=
  target_vertex c' = target_vertex c ∧
  (completed (elapsed c) = true → elapsed c' = elapsed c).

(** The vertices correspond, with the same positions, and so do their
    edges, related by [R]. *)
Definition same_shape (R : connection → connection → Prop) (g g' : graph) : Prop :=
  Forall2 (λ v v', position v' = position v ∧
                   Forall2 R (connections v) (connections v')) g g'.

(** Active edges stay active. *)
Definition grows (l l' : list connection) : Prop :=
  Forall2 (λ c c', active c = true → active c' = true) l l'.

(** No edge is both active and below [1.0]: the tick has nothing to do. *)
Definition quiet (g : graph) : bool :=
  forallb (λ v, forallb (λ c, negb (active c) || completed (elapsed c))
                        (connections v)) g.

(** The edge [(i0, k0)] is stored before the edge [(i, k)]: the loop of
    [step_connections] visits it first. *)
Definition before (i k i0 k0 : nat) : Prop :=
  (i0 < i)%nat ∨ (i0 = i ∧ (k0 < k)%nat).

(** Some edge with target [i], at a place in [Pos], was below [1.0] in [g]
    and is at or above it in [g']. *)
Definition caused_at (Pos : nat → nat → Prop) (g g' : graph) (i : nat) : Prop :=
  ∃ i0 k0 c0 c0',
    Pos i0 k0 ∧
    edge_at g i0 k0 = Some c0 ∧ edge_at g' i0 k0 = Some c0' ∧
    target_vertex c0 = Z.of_nat i ∧
    completed (elapsed c0) = false ∧ completed (elapsed c0') = true.

(** [gc] comes from [g] by loop bodies at places in [Pos]: every edge
    that has been switched on has its cause there. *)
Definition traced (Pos : nat → nat → Prop) (g gc : graph) : Prop :=
  graph_rel (λ _ _, kept) g gc ∧
  ∀ i k c c', edge_at g i k = Some c → edge_at gc i k = Some c' →
              active c = false → active c' = true → caused_at Pos g gc i.

(** The targets of all edges are vertices. *)
Definition in_range (g : graph) : Prop :=
  ∀ i k c, edge_at g i k = Some c → 0 ≤ target_vertex c < Z.of_nat (length g).

(** The edge [(i, k)] is about to cross [1.0] and its target is not a
    vertex. *)
Definition overruns (g : graph) (i k : nat) : Prop :=
  ∃ c, edge_at g i k = Some c ∧ active c = true ∧
       completed (elapsed c) = false ∧
       completed (advance (elapsed c)) = true ∧
       ¬ (0 ≤ target_vertex c < Z.of_nat (length g)).

(** What one tick makes of the [elapsed] of an active edge. *)
Definition age (e : float) : float := if completed e then e else advance e.

(** The number of [+= 0.02] steps an edge with this [elapsed] still takes
    before it is at or above [1.0]. *)
Definition remaining (e : float) : nat :=
  length (filter (λ y, Ieee.Qltb e y = true) orbit).

(** The steps all edges of the graph can still take. *)
Definition pending (g : graph) : nat :=
  sum_list ((λ v, sum_list (remaining ∘ elapsed <$> connections v)) <$> g).

(** ** The random draws of the builder *)

(** The flag of the [k]-th edge created from the random source [r]. *)
Definition seeded (r : rng) (k : nat) : bool :=
  Z.rem (tape r (drawn r + k)) 150 =? 0.

(** The number of edges. *)
Definition edge_count (g : graph) : nat :=
  sum_list ((λ v, length (connections v)) <$> g).

(** An edge without its [active] flag, the one field set from [rand]. *)
Definition drawn_apart (c : connection)
    : Z * float * geometry connection_vertex :=
  (target_vertex c, elapsed c, mesh c).

Section Degrees.
Variable distance : vec3 → vec3 → float.

(** The vertices within reach of vertex [i], in the order of the loop. *)
Definition neighbours (ps : list vec3) (i : nat) : list nat :=
  filter (λ j, near distance ps i j = true) (seq 0 (length ps)).

(** The number of edges created before the first edge of vertex [i]. *)
Definition edges_before (ps : list vec3) (i : nat) : nat :=
  sum_list (length <$> (neighbours ps <$> seq 0 i)).

End Degrees.

(** ** The frames *)

(** What a frame shows of the graph [g]. *)
Definition shows (g : graph) (f : list pass) : Prop :=
  ∃ p, f = [p; p] ∧
       drawn_cities p = length (filter (λ v, lit v = true) g) ∧
       take (drawn_cities p) (vertex_data p)
         = city_entry <$> filter (λ v, lit v = true) g ∧
       length (vertex_data p) = length g ∧
       tex_offsets p = render_connections g.

(** ** Concrete graphs *)

(** The graph of two vertices with one edge each way. *)
Definition two_vertex_graph (p0 p1 : vec3) (m01 m10 : geometry connection_vertex)
    (a01 : bool) (e01 : float) (a10 : bool) (e10 : float) : graph :=
  [ {| position := p0;
       connections :=
         [ {| active := a01; elapsed := e01; target_vertex := 1; mesh := m01 |} ] |};
    {| position := p1;
       connections :=
         [ {| active := a10; elapsed := e10; target_vertex := 0; mesh := m10 |} ] |} ].

Module Scenario.

(** Two cities about [0.63] apart: [to_position 0 0] and a point near
    the unit sphere. *)
Definition p0 : vec3 := {| vx := -1; vy := 0; vz := 0 |}.
Definition p1 : vec3 := {| vx := flit (-8 # 10); vy := 0; vz := flit (6 # 10) |}.

(** A random source that draws [0, 1, 2, ...]: only the first edge
    created is seeded. *)
Definition counting : rng := {| tape := Z.of_nat; drawn := 0 |}.

(** One that never draws a multiple of 150: no edge is seeded. *)
Definition ones : rng := {| tape := λ _, 1; drawn := 0 |}.

(** The graph built for the two cities, and the meshes of its edges. *)
Definition g0 : graph :=
  constructed GlmModel.normalize GlmModel.distance [p0; p1] counting.

Definition m01 : geometry connection_vertex :=
  build_connection_geometry GlmModel.normalize p0 p1
    (to_float (connection_height (GlmModel.distance p0 p1))).
Definition m10 : geometry connection_vertex :=
  build_connection_geometry GlmModel.normalize p1 p0
    (to_float (connection_height (GlmModel.distance p1 p0))).

(** A vertex whose only edge is about to complete, and a target with
    four inactive edges around an active one. *)
Definition c0 : connection :=
  {| active := true; elapsed := 8388605 # 8388608; target_vertex := 1; mesh := [] |}.
Definition v0 : graph_vertex := {| position := p0; connections := [c0] |}.
Definition idle : connection :=
  {| active := false; elapsed := 0; target_vertex := 0; mesh := [] |}.
Definition busy : connection :=
  {| active := true; elapsed := advance 0; target_vertex := 0; mesh := [] |}.
Definition v1 : graph_vertex :=
  {| position := p1; connections := [idle; busy; idle; idle; idle] |}.
Definition fan : graph := [v0; v1].

End Scenario.

(** ** The distance of the spec *)

(** The square of the Euclidean distance of two positions, without any
    rounding. *)
Definition euclid_sq (p q : vec3) : Q :=
  (vx q - vx p) * (vx q - vx p) + (vy q - vy p) * (vy q - vy p)
  + (vz q - vz p) * (vz q - vz p).

(** The components of [v] are [float]s. *)
Definition representable (v : vec3) : bool :=
  Ieee.Qeqb (to_float (vx v)) (vx v) && Ieee.Qeqb (to_float (vy v)) (vy v)
  && Ieee.Qeqb (to_float (vz v)) (vz v).

Module Threshold.

Definition origin : vec3 := {| vx := 0; vy := 0; vz := 0 |}.

(** Two positions within [2^-24] of the unit sphere and about [0.75]
    away from [Scenario.p0]: [inside] is closer than [0.75] and
    [outside] is not. *)
Definition inside : vec3 :=
  {| vx := -23 # 32; vy := 11515903 # 16777216; vz := 14856199 # 134217728 |}.
Definition outside : vec3 :=
  {| vx := -23 # 32; vy := -11563871 # 16777216; vz := -6120723 # 67108864 |}.

End Threshold.

(** * Properties *)

(** ** Known bit patterns *)

(** The rounding functions on values whose bit patterns are well known:
    [0.02] is [0x3F947AE147AE147B], [0.02f] is [0x3CA3D70A], [0.1f] is
    [0x3DCCCCCD], the [float] square root of [2] is [0x3FB504F3], and a tie
    goes to the even significand. *)
Example dlit_0_02 : dlit (2 # 100) = (5764607523034235 # 288230376151711744)%Q.
Proof. by vm_compute. Qed.

Example flit_0_02 : flit (2 # 100) = (5368709 # 268435456)%Q.
Proof. by vm_compute. Qed.

Example flit_0_1 : flit (1 # 10) = (13421773 # 134217728)%Q.
Proof. by vm_compute. Qed.

Example fsqrt_2 : GlmModel.fsqrt 2 = (11863283 # 8388608)%Q.
Proof. by vm_compute. Qed.

Example float_of_int_ties :
  float_of_int 16777217 = 16777216%Q ∧ float_of_int 16777219 = 16777220%Q.
Proof. by vm_compute. Qed.

Example advance_0 : advance 0 = (5368709 # 268435456)%Q.
Proof. by vm_compute. Qed.

(** ** The values an [elapsed] field can take *)

Lemma Qeqb_eq (x y : Q) : Ieee.Qeqb x y = true → x = y.
Proof.
  destruct x as [a b], y as [c d]; unfold Ieee.Qeqb; simpl.
  intros [H1 H2]%andb_prop.
  apply Z.eqb_eq in H1. apply Pos.eqb_eq in H2. by subst.
Qed.

Lemma Qeqb_refl (x : Q) : Ieee.Qeqb x x = true.
Proof.
  unfold Ieee.Qeqb. by rewrite Z.eqb_refl, Pos.eqb_refl.
Qed.

Lemma Qltb_lt (x y : Q) : Ieee.Qltb x y = true ↔ (x < y)%Q.
Proof.
  unfold Ieee.Qltb. rewrite negb_true_iff. split.
  - intros H. apply Qnot_le_lt. intros Hle. apply Qle_bool_iff in Hle. congruence.
  - intros H. destruct (Qle_bool y x) eqn:Hle; [|done].
    apply Qle_bool_iff in Hle. by apply Qlt_not_le in H.
Qed.

Lemma Qltb_ge (x y : Q) : Ieee.Qltb x y = false ↔ (y <= x)%Q.
Proof.
  unfold Ieee.Qltb. rewrite negb_false_iff. apply Qle_bool_iff.
Qed.

Lemma orbit_forall (p : float → bool) (x : float) :
  forallb p orbit = true → in_orbit x = true → p x = true.
Proof.
  intros Hall Hx. unfold in_orbit in Hx.
  apply existsb_exists in Hx as (y & Hy & Heq).
  apply Qeqb_eq in Heq. subst y.
  rewrite forallb_forall in Hall. by apply Hall.
Qed.

Lemma zero_in_orbit : in_orbit 0 = true.
Proof. by vm_compute. Qed.

Lemma advance_in_orbit (x : float) :
  in_orbit x = true → completed x = false → in_orbit (advance x) = true.
Proof.
  intros Hx Hc.
  assert (Hall : forallb (λ y, completed y || in_orbit (advance y)) orbit = true)
    by (by vm_compute).
  pose proof (orbit_forall _ x Hall Hx) as H. cbv beta in H.
  rewrite Hc in H. exact H.
Qed.

Lemma advance_increases (x : float) :
  in_orbit x = true → completed x = false → (x < advance x)%Q.
Proof.
  intros Hx Hc.
  assert (Hall : forallb (λ y, completed y || Ieee.Qltb y (advance y)) orbit = true)
    by (by vm_compute).
  pose proof (orbit_forall _ x Hall Hx) as H. cbv beta in H.
  rewrite Hc in H. change (Ieee.Qltb x (advance x) = true) in H.
  unfold Ieee.Qltb in H. apply negb_true_iff in H.
  apply Qnot_le_lt. intros Hle. apply Qle_bool_iff in Hle. congruence.
Qed.

Lemma orbit_bounds (x : float) :
  in_orbit x = true → (0 <= x)%Q ∧ (x <= overshoot)%Q.
Proof.
  intros Hx.
  assert (Hall : forallb (λ y, Qle_bool 0 y && Qle_bool y overshoot) orbit = true)
    by (by vm_compute).
  pose proof (orbit_forall _ x Hall Hx) as H. cbv beta in H.
  apply andb_prop in H as [H1 H2]. split; by apply Qle_bool_iff.
Qed.

(** ** Facts about rounding

    A value that rounds to itself in binary32 has a significand and an
    exponent that binary64 can hold, so it rounds to itself there too. *)

Module IeeeFacts.

Import Ieee.

Lemma shifted_pos (n d e : Z) :
  0 < n → 0 < d → 0 < (shifted n d e).1 ∧ 0 < (shifted n d e).2.
Proof.
  intros Hn Hd. unfold shifted. destruct (0 <=? e) eqn:He; simpl.
  - apply Z.leb_le in He. split; [done|].
    apply Z.mul_pos_pos; [done|]. by apply Z.pow_pos_nonneg.
  - apply Z.leb_gt in He. split; [|done].
    apply Z.mul_pos_pos; [done|]. apply Z.pow_pos_nonneg; lia.
Qed.

Lemma compare_mul_r (a b c : Z) : 0 < c → (a * c ?= b * c) = (a ?= b).
Proof.
  intros Hc. destruct (Z.compare_spec a b) as [-> | H | H].
  - apply Z.compare_refl.
  - apply Z.compare_lt_iff. nia.
  - apply Z.compare_gt_iff. nia.
Qed.

Lemma cmp_rescale (n d e e' t : Z) :
  e ≤ e' → cmp n d e' t = cmp n d e (t * 2 ^ (e' - e)).
Proof.
  intros Hle. unfold cmp, shifted.
  destruct (Z.leb_spec 0 e) as [He | He], (Z.leb_spec 0 e') as [He' | He'];
    simpl; try lia.
  - f_equal. replace e' with (e + (e' - e)) at 1 by lia.
    rewrite Z.pow_add_r by lia. ring.
  - replace (e' - e) with (e' + - e) by lia. rewrite Z.pow_add_r by lia.
    replace (t * (2 ^ e' * 2 ^ (- e)) * d) with (t * (d * 2 ^ e') * 2 ^ (- e)) by ring.
    symmetry. apply compare_mul_r. apply Z.pow_pos_nonneg; lia.
  - replace (- e) with (- e' + (e' - e)) by lia. rewrite Z.pow_add_r by lia.
    replace (t * 2 ^ (e' - e) * d) with (t * d * 2 ^ (e' - e)) by ring.
    rewrite Z.mul_assoc.
    symmetry. apply compare_mul_r. apply Z.pow_pos_nonneg; lia.
Qed.

Lemma cmp_mono (n d e t t' : Z) :
  0 < n → 0 < d → t ≤ t' → cmp n d e t = Gt → cmp n d e t' = Gt.
Proof.
  intros Hn Hd Ht. unfold cmp.
  destruct (shifted_pos n d e Hn Hd) as [_ HD].
  rewrite !Z.compare_gt_iff. nia.
Qed.

(** The first guess [e1] of the exponent is at most one too small. *)
Lemma first_guess (p n d : Z) :
  0 < p → 0 < n → 0 < d →
  let e1 := Z.log2 n - Z.log2 d - p in
  cmp n d e1 (2 ^ (p - 1)) ≠ Gt ∧ cmp n d e1 (2 ^ (p + 1)) = Gt.
Proof.
  intros Hp Hn Hd e1.
  destruct (Z.log2_spec n Hn) as [Hn1 Hn2].
  destruct (Z.log2_spec d Hd) as [Hd1 Hd2].
  pose proof (Z.log2_nonneg n) as Hln. pose proof (Z.log2_nonneg d) as Hld.
  rewrite Z.pow_succ_r in Hn2, Hd2 by done.
  assert (HX : 0 < 2 ^ (p - 1)) by (apply Z.pow_pos_nonneg; lia).
  assert (HY : 0 < 2 ^ Z.log2 d) by (apply Z.pow_pos_nonneg; lia).
  replace (2 ^ (p + 1)) with (2 ^ (p - 1) * 4)
    by (replace (p + 1) with (p - 1 + 2) by lia; by rewrite Z.pow_add_r by lia).
  unfold cmp, shifted. destruct (Z.leb_spec 0 e1) as [He | He]; simpl.
  - assert (HW : 0 < 2 ^ e1) by (by apply Z.pow_pos_nonneg).
    assert (Hid : 2 ^ Z.log2 n = 2 ^ (p - 1) * 2 * 2 ^ Z.log2 d * 2 ^ e1).
    { replace (Z.log2 n) with (p - 1 + 1 + Z.log2 d + e1) at 1 by lia.
      rewrite !Z.pow_add_r by lia. done. }
    pose proof (Z.mul_pos_pos _ _ HX HW) as HXW.
    split; [intros H; apply Z.compare_gt_iff in H | apply Z.compare_gt_iff].
    + assert (0 < 2 ^ (p - 1) * 2 ^ e1 * (2 * 2 ^ Z.log2 d - d))
        by (apply Z.mul_pos_pos; lia).
      lia.
    + assert (0 <= 2 ^ (p - 1) * 2 ^ e1 * (d - 2 ^ Z.log2 d))
        by (apply Z.mul_nonneg_nonneg; lia).
      lia.
  - assert (HW : 0 < 2 ^ (- e1)) by (apply Z.pow_pos_nonneg; lia).
    assert (Hid : 2 ^ Z.log2 n * 2 ^ (- e1) = 2 ^ (p - 1) * 2 * 2 ^ Z.log2 d).
    { rewrite <- Z.pow_add_r by lia.
      replace (Z.log2 n + - e1) with (p - 1 + 1 + Z.log2 d) by lia.
      rewrite !Z.pow_add_r by lia. done. }
    split; [intros H; apply Z.compare_gt_iff in H | apply Z.compare_gt_iff].
    + assert (0 < 2 ^ (p - 1) * (2 * 2 ^ Z.log2 d - d))
        by (apply Z.mul_pos_pos; lia).
      assert (0 <= 2 ^ (- e1) * (n - 2 ^ Z.log2 n))
        by (apply Z.mul_nonneg_nonneg; lia).
      lia.
    + assert (0 <= 2 ^ (p - 1) * (d - 2 ^ Z.log2 d))
        by (apply Z.mul_nonneg_nonneg; lia).
      assert (0 < 2 ^ (- e1) * (2 * 2 ^ Z.log2 n - n))
        by (apply Z.mul_pos_pos; lia).
      lia.
Qed.

Lemma round_pos_unfold (fmt : format) (n d : Z) :
  round_pos fmt n d =
    scale2 (nearest (shifted n d (exponent fmt n d)).1
                    (shifted n d (exponent fmt n d)).2)
           (exponent fmt n d).
Proof.
  unfold round_pos, exponent, nearest.
  destruct (shifted n d (Z.log2 n - Z.log2 d - prec fmt)) as [n1 d1]. simpl.
  by destruct (shifted n d _) as [n2 d2].
Qed.

Lemma exponent_spec (fmt : format) (n d : Z) :
  0 < prec fmt → 0 < n → 0 < d →
  emin fmt ≤ exponent fmt n d ∧
  cmp n d (exponent fmt n d) (2 ^ prec fmt) = Gt ∧
  ∀ E M, 0 < M < 2 ^ prec fmt → emin fmt ≤ E → cmp n d E M = Eq →
         exponent fmt n d ≤ E.
Proof.
  intros Hp Hn Hd.
  destruct (first_guess (prec fmt) n d Hp Hn Hd) as [Hlo Hhi].
  unfold exponent.
  set (e1 := Z.log2 n - Z.log2 d - prec fmt) in *.
  set (e2 := if _ <=? _ then _ else _).
  assert (He2 : cmp n d e2 (2 ^ (prec fmt - 1)) ≠ Gt ∧
                cmp n d e2 (2 ^ prec fmt) = Gt).
  { subst e2. destruct (Z.leb_spec (2 ^ prec fmt * (shifted n d e1).2)
                                   (shifted n d e1).1) as [Ht | Ht].
    - rewrite !(cmp_rescale n d e1 (e1 + 1)) by lia.
      replace (e1 + 1 - e1) with 1 by lia. rewrite Z.pow_1_r.
      replace (2 ^ (prec fmt - 1) * 2) with (2 ^ prec fmt)
        by (replace (prec fmt) with (prec fmt - 1 + 1) at 1 by lia;
            by rewrite Z.pow_add_r by lia).
      replace (2 ^ prec fmt * 2) with (2 ^ (prec fmt + 1))
        by (by rewrite Z.pow_add_r by lia).
      split; [|done]. unfold cmp. intros H%Z.compare_gt_iff. lia.
    - split; [done|]. unfold cmp. apply Z.compare_gt_iff. lia. }
  destruct He2 as [He2lo He2hi].
  split; [apply Z.le_max_r|]. split.
  - rewrite (cmp_rescale n d e2) by apply Z.le_max_l.
    eapply cmp_mono; [done | done | | exact He2hi].
    assert (0 < 2 ^ (Z.max e2 (emin fmt) - e2))
      by (apply Z.pow_pos_nonneg; lia).
    assert (0 < 2 ^ prec fmt) by (apply Z.pow_pos_nonneg; lia). nia.
  - intros E M HM HE Hexact. apply Z.max_lub; [|done].
    destruct (Z.le_gt_cases e2 E) as [|Hgt]; [done|]. exfalso.
    rewrite (cmp_rescale n d E e2) in He2lo by lia.
    unfold cmp in *. destruct (shifted_pos n d E Hn Hd) as [_ HD].
    apply Z.compare_eq in Hexact. apply He2lo. apply Z.compare_gt_iff.
    rewrite <- Hexact.
    assert (2 ≤ 2 ^ (e2 - E)).
    { replace (e2 - E) with (1 + (e2 - E - 1)) by lia.
      rewrite Z.pow_add_r by lia.
      assert (0 < 2 ^ (e2 - E - 1)) by (apply Z.pow_pos_nonneg; lia). lia. }
    assert (2 ^ prec fmt = 2 ^ (prec fmt - 1) * 2).
    { replace (prec fmt) with (prec fmt - 1 + 1) at 1 by lia.
      by rewrite Z.pow_add_r by lia. }
    assert (0 < 2 ^ (prec fmt - 1)) by (apply Z.pow_pos_nonneg; lia).
    apply Z.mul_lt_mono_pos_r; [done|]. nia.
Qed.

Lemma scale2_shift (M e k : Z) : 0 ≤ k → scale2 (M * 2 ^ k) e = scale2 M (e + k).
Proof.
  intros Hk. unfold scale2.
  destruct (Z.leb_spec 0 e) as [He | He], (Z.leb_spec 0 (e + k)) as [Hek | Hek];
    try lia.
  - f_equal. rewrite Z.pow_add_r by lia. ring.
  - rewrite <- (Qcanon.Qred_identity (Qmake (M * 2 ^ (e + k)) 1))
      by (simpl; apply Z.gcd_1_r).
    apply Qred_complete. unfold Qeq. simpl.
    rewrite Z2Pos.id by (apply Z.pow_pos_nonneg; lia).
    rewrite <- !Z.mul_assoc, <- Z.pow_add_r by lia.
    replace (e + k + - e) with k by lia. ring.
  - apply Qred_complete. unfold Qeq. simpl.
    rewrite !Z2Pos.id by (apply Z.pow_pos_nonneg; lia).
    rewrite <- !Z.mul_assoc, <- Z.pow_add_r by lia.
    f_equal. f_equal. lia.
Qed.

Lemma round_pos_exact (fmt : format) (n d M E : Z) :
  0 < prec fmt → 0 < n → 0 < d →
  0 < M < 2 ^ prec fmt → emin fmt ≤ E → cmp n d E M = Eq →
  round_pos fmt n d = scale2 M E.
Proof.
  intros Hp Hn Hd HM HE Hexact.
  destruct (exponent_spec fmt n d Hp Hn Hd) as (_ & _ & Hle).
  specialize (Hle E M HM HE Hexact).
  rewrite round_pos_unfold. set (e := exponent fmt n d) in *.
  rewrite (cmp_rescale n d e E) in Hexact by done.
  unfold cmp in Hexact. apply Z.compare_eq in Hexact.
  destruct (shifted_pos n d e Hn Hd) as [_ HD].
  unfold nearest. rewrite <- Hexact.
  rewrite Z.mod_mul, Z.div_mul by lia.
  replace (2 * 0 ?= (shifted n d e).2) with Lt
    by (symmetry; apply Z.compare_lt_iff; lia).
  rewrite scale2_shift by lia. f_equal. lia.
Qed.

Lemma round_pos_form (fmt : format) (n d : Z) :
  0 < prec fmt → 0 < n → 0 < d →
  ∃ m e, round_pos fmt n d = scale2 m e ∧
         0 ≤ m ≤ 2 ^ prec fmt ∧ emin fmt ≤ e.
Proof.
  intros Hp Hn Hd.
  destruct (exponent_spec fmt n d Hp Hn Hd) as (Hemin & Hhi & _).
  rewrite round_pos_unfold. set (e := exponent fmt n d) in *.
  destruct (shifted_pos n d e Hn Hd) as [HN HD].
  unfold cmp in Hhi. apply Z.compare_gt_iff in Hhi.
  eexists _, e. split; [reflexivity|]. split; [|done].
  assert (Hq : 0 ≤ (shifted n d e).1 / (shifted n d e).2 < 2 ^ prec fmt).
  { split; [apply Z.div_pos; lia|]. apply Z.div_lt_upper_bound; lia. }
  unfold nearest. destruct (_ ?= _); [destruct (Z.even _)| |]; lia.
Qed.

Lemma scale2_zero (e : Z) : scale2 0 e = Qmake 0 1.
Proof.
  unfold scale2. destruct (0 <=? e); [done|].
  rewrite <- (Qcanon.Qred_identity (Qmake 0 1)) by done.
  apply Qred_complete. done.
Qed.

Lemma scale2_cmp (m e : Z) :
  0 < m →
  0 < Qnum (scale2 m e) ∧
  cmp (Qnum (scale2 m e)) (Zpos (Qden (scale2 m e))) e m = Eq.
Proof.
  intros Hm. unfold scale2, cmp, shifted.
  destruct (Z.leb_spec 0 e) as [He | He]; simpl.
  - assert (0 < 2 ^ e) by (by apply Z.pow_pos_nonneg).
    split; [nia|]. apply Z.compare_eq_iff. ring.
  - pose proof (Qred_correct (Qmake m (Z.to_pos (2 ^ (- e))))) as Hq.
    unfold Qeq in Hq. simpl in Hq.
    rewrite Z2Pos.id in Hq by (apply Z.pow_pos_nonneg; lia).
    assert (0 < 2 ^ (- e)) by (apply Z.pow_pos_nonneg; lia).
    split; [nia|]. apply Z.compare_eq_iff. lia.
Qed.

Lemma round_pos_float_double (n : Z) (d : positive) :
  0 < n →
  round_pos binary32 n (Zpos d) = Qmake n d →
  round_pos binary64 n (Zpos d) = Qmake n d.
Proof.
  intros Hn H.
  destruct (round_pos_form binary32 n (Zpos d)) as (m & e & Hr & Hm & He);
    [done | done | done |].
  rewrite Hr in H. simpl in Hm, He.
  assert (Hm0 : 0 < m).
  { destruct (Z.eq_dec m 0) as [-> | ]; [|lia].
    rewrite scale2_zero in H. injection H as <- _. lia. }
  destruct (scale2_cmp m e Hm0) as [_ Hc]. rewrite H in Hc. simpl in Hc.
  rewrite <- H. apply round_pos_exact; simpl; try done; try lia.
Qed.

(** Every [float] is a [double]. *)
Lemma float_is_double (h : Q) :
  round binary32 h = h → round binary64 h = h.
Proof.
  destruct h as [n d]. unfold round. simpl Qnum. simpl Qden.
  destruct n as [|n|n]; [done | |].
  - by apply round_pos_float_double.
  - intros H.
    assert (H' : round_pos binary32 (Z.pos n) (Z.pos d) = Qmake (Z.pos n) d).
    { destruct (round_pos binary32 (Z.pos n) (Z.pos d)) as [a b].
      injection H as Ha Hb. f_equal; lia. }
    by rewrite (round_pos_float_double _ _ (Pos2Z.is_pos n) H').
Qed.

End IeeeFacts.

(** ** The cascade scan *)

Lemma switched_same (l : list connection) : switched l l = 0%nat.
Proof.
  induction l as [|c l IH]; [done|]. simpl. rewrite IH.
  by destruct (active c).
Qed.

Lemma activate_loop_length (a : Z) (l : list connection) :
  length (activate_loop a l) = length l.
Proof.
  revert a. induction l as [|c l IH]; intros a; [done|]. simpl.
  destruct (active c); simpl; [by rewrite IH|].
  destruct (a + 1 =? 3); simpl; [done | by rewrite IH].
Qed.

Lemma activate_loop_lookup (l : list connection) :
  ∀ (a : Z) (j : nat) (c : connection),
    0 ≤ a < 3 →
    l !! j = Some c →
    activate_loop a l !! j =
      Some (if negb (active c) && (a + Z.of_nat (inactive_count (take j l)) <? 3)
            then set_active c true else c).
Proof.
  induction l as [|c0 l IH]; intros a j c Ha Hj; [done|].
  destruct j as [|j]; simpl in Hj.
  - injection Hj as ->.
    assert ((a + Z.of_nat (inactive_count (take 0 (c :: l))) <? 3) = true) as ->
      by (apply Z.ltb_lt; simpl; lia).
    simpl. destruct (active c); simpl; [done|]. by destruct (a + 1 =? 3).
  - simpl. destruct (active c0) eqn:Hact; simpl.
    + by apply IH.
    + destruct (a + 1 =? 3) eqn:Hthree; simpl.
      * apply Z.eqb_eq in Hthree. rewrite Hj.
        replace (a + Z.of_nat (S (inactive_count (take j l))) <? 3) with false
          by (symmetry; apply Z.ltb_ge; lia).
        by rewrite andb_false_r.
      * apply Z.eqb_neq in Hthree.
        rewrite (IH (a + 1) j c) by (done || lia).
        replace (a + 1 + Z.of_nat (inactive_count (take j l)))
          with (a + Z.of_nat (S (inactive_count (take j l)))) by lia.
        done.
Qed.

Lemma switched_activate_loop (l : list connection) :
  ∀ a : Z, 0 ≤ a < 3 →
    switched l (activate_loop a l) = Nat.min (Z.to_nat (3 - a)) (inactive_count l).
Proof.
  induction l as [|c l IH]; intros a Ha; simpl.
  - by rewrite Nat.min_0_r.
  - destruct (active c) eqn:Hact; simpl.
    + rewrite ?Hact. simpl. by apply IH.
    + destruct (a + 1 =? 3) eqn:Hthree; simpl.
      * apply Z.eqb_eq in Hthree. rewrite ?Hact, switched_same. simpl.
        replace (Z.to_nat (3 - a)) with 1%nat by lia. lia.
      * apply Z.eqb_neq in Hthree. rewrite ?Hact. simpl.
        rewrite IH by lia.
        replace (Z.to_nat (3 - a)) with (S (Z.to_nat (3 - (a + 1)))) by lia.
        done.
Qed.

Lemma activate_loop_lookup0 (l : list connection) (j : nat) (c : connection) :
  l !! j = Some c →
  activate_loop 0 l !! j =
    Some (if negb (active c) && (inactive_count (take j l) <? 3)%nat
          then set_active c true else c).
Proof.
  intros Hj. rewrite (activate_loop_lookup l 0 j c) by (done || lia).
  replace (0 + Z.of_nat (inactive_count (take j l)) <? 3)
    with (inactive_count (take j l) <? 3)%nat; [done|].
  destruct (Nat.ltb_spec (inactive_count (take j l)) 3);
    symmetry; [apply Z.ltb_lt | apply Z.ltb_ge]; lia.
Qed.

(** C1. When the loop body of [step_connections] advances an edge across
    [1.0], it scans the connections of the target vertex in stored order
    and switches exactly the inactive ones that have fewer than 3 inactive
    connections before them: at most 3, all of them when fewer than 3 are
    inactive; active connections are unchanged and are not counted, and
    no other vertex is touched by the scan. *)
Theorem cascade_on_completion (g : graph) (i k : nat)
    (vertex : graph_vertex) (conn : connection) :
  g !! i = Some vertex →
  connections vertex !! k = Some conn →
  active conn = true →
  completed (elapsed conn) = false →
  completed (advance (elapsed conn)) = true →
  0 ≤ target_vertex conn < Z.of_nat (length g) →
  let t := Z.to_nat (target_vertex conn) in
  let g1 := <[i := set_connections vertex
                     (<[k := set_elapsed conn (advance (elapsed conn))]>
                        (connections vertex))]> g in
  ∃ (target target' : graph_vertex) (g' : graph),
    step_connection i k g = Some g' ∧
    g1 !! t = Some target ∧
    g' !! t = Some target' ∧
    (∀ i', i' ≠ t → g' !! i' = g1 !! i') ∧
    position target' = position target ∧
    length (connections target') = length (connections target) ∧
    (∀ j c, connections target !! j = Some c →
       connections target' !! j =
         Some (if negb (active c)
                  && (inactive_count (take j (connections target)) <? 3)%nat
               then set_active c true else c)) ∧
    switched (connections target) (connections target')
      = Nat.min 3 (inactive_count (connections target)) ∧
    (switched (connections target) (connections target') ≤ 3)%nat.
Proof.
  intros Hi Hk Hact Hbelow Hdone Ht t g1.
  assert (Hlen : length g1 = length g) by (subst g1; apply length_insert).
  assert (Hlt : (t < length g1)%nat) by (subst t; lia).
  destruct (lookup_lt_is_Some_2 g1 t Hlt) as [target Htarget].
  exists target,
    (set_connections target (activate_loop 0 (connections target))),
    (<[t := set_connections target (activate_loop 0 (connections target))]> g1).
  split.
  { unfold step_connection. rewrite Hi. simpl. rewrite Hk. simpl.
    rewrite Hact, Hbelow. simpl. rewrite Hdone.
    replace (target_vertex conn <? 0) with false
      by (symmetry; apply Z.ltb_ge; lia).
    fold t. fold g1. rewrite Htarget. done. }
  split; [done|].
  split; [by apply list_lookup_insert_eq|].
  split; [intros i' Hne; by apply list_lookup_insert_ne|].
  split; [done|]. simpl.
  split; [apply activate_loop_length|].
  split; [intros j c Hj; by apply activate_loop_lookup0|].
  rewrite switched_activate_loop by lia.
  change (Z.to_nat (3 - 0)) with 3%nat. split; [done | lia].
Qed.

(** ** What one tick does to each edge *)

Lemma later_refl (c : connection) : later c c.
Proof. by left. Qed.

Lemma later_active (c c' : connection) :
  later c c' → active c = true → c' = c.
Proof. intros [H | [H _]] Hact; [done | congruence]. Qed.

Lemma later_trans (a b c : connection) : later a b → later b c → later a c.
Proof.
  intros [-> | [Ha ->]] Hbc; [done|].
  apply later_active in Hbc; [|done]. subst c. by right.
Qed.

Lemma advanced_visited (c : connection) : visited c (advanced c).
Proof. exists c. split; apply later_refl. Qed.

Lemma visited_later (a b c : connection) : visited a b → later b c → visited a c.
Proof.
  intros (c1 & H1 & H2) Hbc. exists c1. split; [done|]. by eapply later_trans.
Qed.

Lemma later_visited (a b c : connection) : later a b → visited b c → visited a c.
Proof.
  intros Hab (c1 & H1 & H2). exists c1. split; [|done]. by eapply later_trans.
Qed.

Lemma graph_rel_refl (R : nat → nat → connection → connection → Prop)
    (g : graph) :
  (∀ i k c, R i k c c) → graph_rel R g g.
Proof.
  intros HR. split; [done|]. intros i v Hv. exists v.
  repeat split; try done. intros k c Hc. by exists c.
Qed.

Lemma graph_rel_trans (R1 R2 R3 : nat → nat → connection → connection → Prop)
    (g g1 g2 : graph) :
  graph_rel R1 g g1 → graph_rel R2 g1 g2 →
  (∀ i k c c1 c2, R1 i k c c1 → R2 i k c1 c2 → R3 i k c c2) →
  graph_rel R3 g g2.
Proof.
  intros [Hl1 H1] [Hl2 H2] HR. split; [congruence|].
  intros i v Hv.
  destruct (H1 i v Hv) as (v1 & Hv1 & Hp1 & Hn1 & He1).
  destruct (H2 i v1 Hv1) as (v2 & Hv2 & Hp2 & Hn2 & He2).
  exists v2. repeat split; try congruence.
  intros k c Hc.
  destruct (He1 k c Hc) as (c1 & Hc1 & Hr1).
  destruct (He2 k c1 Hc1) as (c2 & Hc2 & Hr2).
  exists c2. split; [done|]. by eapply HR.
Qed.

Lemma graph_rel_mono (R R' : nat → nat → connection → connection → Prop)
    (g g' : graph) :
  graph_rel R g g' →
  (∀ i k v c c',
     g !! i = Some v → connections v !! k = Some c → R i k c c' → R' i k c c') →
  graph_rel R' g g'.
Proof.
  intros [Hl H] HR. split; [done|]. intros i v Hv.
  destruct (H i v Hv) as (v' & Hv' & Hp & Hn & He).
  exists v'. repeat split; try done. intros k c Hc.
  destruct (He k c Hc) as (c' & Hc' & Hr). exists c'. split; [done|].
  by eapply HR.
Qed.

(** Every edge of [g'] is the image of an edge of [g]. *)
Lemma graph_rel_inv (R : nat → nat → connection → connection → Prop)
    (g g' : graph) (i k : nat) (v' : graph_vertex) (c' : connection) :
  graph_rel R g g' →
  g' !! i = Some v' → connections v' !! k = Some c' →
  ∃ v c, g !! i = Some v ∧ connections v !! k = Some c ∧
         position v' = position v ∧ R i k c c'.
Proof.
  intros [Hl H] Hv' Hc'.
  assert (Hi : (i < length g)%nat)
    by (rewrite <- Hl; eapply lookup_lt_Some; eauto).
  destruct (lookup_lt_is_Some_2 g i Hi) as [v Hv].
  destruct (H i v Hv) as (v'' & Hv'' & Hp & Hn & He).
  assert (v'' = v') by congruence. subst v''.
  assert (Hk : (k < length (connections v))%nat)
    by (rewrite <- Hn; eapply lookup_lt_Some; eauto).
  destruct (lookup_lt_is_Some_2 (connections v) k Hk) as [c Hc].
  destruct (He k c Hc) as (c'' & Hc'' & Hr).
  assert (c'' = c') by congruence. subst c''.
  exists v, c. done.
Qed.

(** Replacing the connections of one vertex. *)
Lemma graph_rel_insert (R : nat → nat → connection → connection → Prop)
    (g : graph) (i : nat) (v : graph_vertex) (cs' : list connection) :
  g !! i = Some v →
  length cs' = length (connections v) →
  (∀ k c, connections v !! k = Some c →
          ∃ c', cs' !! k = Some c' ∧ R i k c c') →
  (∀ i' k c, i' ≠ i → R i' k c c) →
  graph_rel R g (<[i := set_connections v cs']> g).
Proof.
  intros Hv Hn He Hother. split; [apply length_insert|].
  intros i' w Hw. destruct (decide (i' = i)) as [-> | Hne].
  - assert (w = v) by congruence. subst w.
    exists (set_connections v cs'). split.
    + apply list_lookup_insert_eq. eapply lookup_lt_Some; eauto.
    + repeat split; try done.
  - exists w. split; [by rewrite list_lookup_insert_ne|].
    repeat split; try done. intros k c Hc. exists c. split; [done|].
    by apply Hother.
Qed.

Lemma rel_on_compose (S1 S2 : nat → nat → Prop) (g g1 g2 : graph) :
  (∀ i k, S1 i k → S2 i k → False) →
  graph_rel (rel_on S1) g g1 →
  graph_rel (rel_on S2) g1 g2 →
  graph_rel (rel_on (λ i k, S1 i k ∨ S2 i k)) g g2.
Proof.
  intros Hdisj H1 H2. eapply graph_rel_trans; [exact H1 | exact H2 |].
  intros i k c c1 c2 [[Hs1 Hr1] | [Hs1 Hr1]] [[Hs2 Hr2] | [Hs2 Hr2]].
  - destruct (Hdisj i k Hs1 Hs2).
  - left. split; [by left | by eapply visited_later].
  - left. split; [by right | by eapply later_visited].
  - right. split; [tauto | by eapply later_trans].
Qed.

Lemma rel_on_ext (S S' : nat → nat → Prop) (i k : nat) (c c' : connection) :
  (S i k ↔ S' i k) → rel_on S i k c c' → rel_on S' i k c c'.
Proof. intros Hiff [[Hs Hr] | [Hs Hr]]; [left | right]; (split; [tauto | done]). Qed.

Lemma activate_loop_later (l : list connection) (k : nat) (c : connection) :
  l !! k = Some c → ∃ c', activate_loop 0 l !! k = Some c' ∧ later c c'.
Proof.
  intros H. rewrite (activate_loop_lookup0 _ _ _ H). eexists. split; [done|].
  destruct (active c) eqn:Hact; simpl; [by left|].
  destruct (_ <? _)%nat; [by right | by left].
Qed.

(** The loop body visits the edge [(i, k)] and may switch on others. *)
Lemma step_connection_rel (i k : nat) (g g' : graph) :
  step_connection i k g = Some g' →
  graph_rel (rel_on (λ i' k', i' = i ∧ k' = k)) g g'.
Proof.
  unfold step_connection.
  destruct (g !! i) as [vertex|] eqn:Hi; simpl; [|done].
  destruct (connections vertex !! k) as [conn|] eqn:Hk; simpl; [|done].
  destruct (negb (active conn) || completed (elapsed conn)) eqn:Hskip.
  { intros [= <-].
    eapply graph_rel_mono;
      [apply (graph_rel_refl (λ _ _ c c', c' = c)); done|].
    intros i' k' v c c' Hv Hc ->.
    destruct (decide (i' = i ∧ k' = k)) as [[-> ->] | Hne];
      [left; split; [done|] | right; split; [done | apply later_refl]].
    assert (v = vertex) by congruence. subst v.
    assert (c = conn) by congruence. subst c.
    replace conn with (advanced conn) at 2; [apply advanced_visited|].
    unfold advanced. apply orb_true_iff in Hskip as [H | H].
    - apply negb_true_iff in H. by rewrite H.
    - rewrite H. by rewrite andb_false_r. }
  apply orb_false_iff in Hskip as [Hact Hbelow].
  apply negb_false_iff in Hact.
  set (conn' := set_elapsed conn (advance (elapsed conn))).
  set (g1 := <[i := _]> g).
  assert (Hadv : advanced conn = conn')
    by (unfold advanced; by rewrite Hact, Hbelow).
  assert (H1 : graph_rel
                 (λ i' k' c c1,
                    (i' = i ∧ k' = k → c1 = advanced c ∧ active c1 = true) ∧
                    (¬ (i' = i ∧ k' = k) → c1 = c)) g g1).
  { subst g1. apply graph_rel_insert; [done | apply length_insert | |].
    - intros k' c Hc. destruct (decide (k' = k)) as [-> | Hne].
      + assert (c = conn) by congruence. subst c. exists conn'. split.
        * apply list_lookup_insert_eq. eapply lookup_lt_Some; eauto.
        * split; [intros _; by rewrite Hadv | tauto].
      + exists c. split; [by rewrite list_lookup_insert_ne|].
        split; [tauto | done].
    - intros i' k' c Hne. split; [tauto | done]. }
  destruct (completed (advance (elapsed conn))).
  - destruct (target_vertex conn <? 0); [done|].
    destruct (g1 !! Z.to_nat (target_vertex conn)) as [target|] eqn:Ht;
      simpl; [|done].
    intros [= <-].
    eapply graph_rel_trans; [exact H1 | |].
    + apply (graph_rel_insert (λ _ _ c c', later c c')); [done | | |].
      * apply activate_loop_length.
      * intros k' c Hc. by apply activate_loop_later.
      * intros; apply later_refl.
    + intros i' k' c c1 c2 [Hin Hout] Hl.
      destruct (decide (i' = i ∧ k' = k)) as [HS | HS]; [left | right].
      * split; [done|]. destruct (Hin HS) as [-> Hact1].
        apply later_active in Hl; [|done]. subst c2. apply advanced_visited.
      * split; [done|]. by rewrite (Hout HS) in Hl.
  - intros [= <-]. eapply graph_rel_mono; [exact H1|].
    intros i' k' v c c1 _ _ [Hin Hout].
    destruct (decide (i' = i ∧ k' = k)) as [HS | HS]; [left | right].
    + split; [done|]. destruct (Hin HS) as [-> _]. apply advanced_visited.
    + split; [done|]. rewrite (Hout HS). apply later_refl.
Qed.

Lemma step_from_rel (i : nat) (ks : list nat) :
  NoDup ks → ∀ g g', step_from i ks g = Some g' →
  graph_rel (rel_on (λ i' k', i' = i ∧ k' ∈ ks)) g g'.
Proof.
  induction ks as [|k ks IH]; intros Hnd g g'; simpl.
  - intros [= <-]. apply graph_rel_refl. intros i' k' c. right.
    split; [|apply later_refl]. intros [_ H]. by apply elem_of_nil in H.
  - apply NoDup_cons in Hnd as [Hk Hnd].
    destruct (step_connection i k g) as [g1|] eqn:H1; simpl; [|done].
    intros H2. apply step_connection_rel in H1. apply (IH Hnd) in H2.
    eapply graph_rel_mono.
    + eapply rel_on_compose; [| exact H1 | exact H2].
      intros i' k' [_ ->] [_ Hin]. done.
    + intros i' k' v c c' _ _. apply rel_on_ext.
      rewrite elem_of_cons. tauto.
Qed.

Lemma step_vertex_rel (i : nat) (g g' : graph) :
  step_vertex i g = Some g' →
  graph_rel (rel_on (λ i' _, i' = i)) g g'.
Proof.
  unfold step_vertex.
  destruct (g !! i) as [vertex|] eqn:Hi; simpl; [|done].
  intros H. apply step_from_rel in H; [|apply NoDup_seq].
  eapply graph_rel_mono; [exact H|].
  intros i' k' v c c' Hv Hc. apply rel_on_ext. split; [tauto|].
  intros ->. split; [done|].
  assert (v = vertex) by congruence. subst v.
  apply elem_of_seq. apply lookup_lt_Some in Hc. lia.
Qed.

Lemma step_vertices_rel (idx : list nat) :
  NoDup idx → ∀ g g', step_vertices idx g = Some g' →
  graph_rel (rel_on (λ i' _, i' ∈ idx)) g g'.
Proof.
  induction idx as [|i idx IH]; intros Hnd g g'; simpl.
  - intros [= <-]. apply graph_rel_refl. intros i' k' c. right.
    split; [|apply later_refl]. intros H. by apply elem_of_nil in H.
  - apply NoDup_cons in Hnd as [Hi Hnd].
    destruct (step_vertex i g) as [g1|] eqn:H1; simpl; [|done].
    intros H2. apply step_vertex_rel in H1. apply (IH Hnd) in H2.
    eapply graph_rel_mono.
    + eapply rel_on_compose; [| exact H1 | exact H2].
      intros i' k' -> Hin. done.
    + intros i' k' v c c' _ _. apply rel_on_ext.
      rewrite elem_of_cons. tauto.
Qed.

(** In one tick every edge is visited once. *)
Lemma step_connections_rel (g g' : graph) :
  step_connections g = Some g' → graph_rel (λ _ _, visited) g g'.
Proof.
  unfold step_connections. intros H.
  apply step_vertices_rel in H; [|apply NoDup_seq].
  eapply graph_rel_mono; [exact H|].
  intros i k v c c' Hv _ [[_ Hvis] | [Hout _]]; [done|].
  destruct Hout. apply elem_of_seq. apply lookup_lt_Some in Hv. lia.
Qed.

(** ** Invariants of the graph state *)

Lemma later_ok (n : nat) (c c' : connection) :
  later c c' → edge_ok n c → edge_ok n c'.
Proof.
  intros [-> | [Hact ->]] (Ht & Ho & Hz); [done|].
  repeat split; simpl; try done; lia.
Qed.

Lemma advanced_ok (n : nat) (c : connection) :
  edge_ok n c → edge_ok n (advanced c).
Proof.
  intros Hok. pose proof Hok as (Ht & Ho & Hz). unfold advanced.
  destruct (active c) eqn:Hact; simpl; [|done].
  destruct (completed (elapsed c)) eqn:Hc; simpl; [done|].
  repeat split; simpl; try lia; try congruence.
  by apply advance_in_orbit.
Qed.

Lemma visited_ok (n : nat) (c c' : connection) :
  visited c c' → edge_ok n c → edge_ok n c'.
Proof.
  intros (c1 & H1 & H2) Hok.
  eapply later_ok; [exact H2|]. apply advanced_ok. by eapply later_ok.
Qed.

Lemma rel_on_ok (S : nat → nat → Prop) (n i k : nat) (c c' : connection) :
  rel_on S i k c c' → edge_ok n c → edge_ok n c'.
Proof.
  intros [[_ H] | [_ H]]; [by apply visited_ok | by apply later_ok].
Qed.

Lemma graph_ok_rel (R : nat → nat → connection → connection → Prop)
    (g g' : graph) :
  graph_rel R g g' →
  (∀ i k c c', R i k c c' → edge_ok (length g) c → edge_ok (length g) c') →
  graph_ok g → graph_ok g'.
Proof.
  intros Hrel HR Hok i v' k c' Hv' Hc'.
  destruct (graph_rel_inv R g g' i k v' c' Hrel Hv' Hc')
    as (v & c & Hv & Hc & _ & Hr).
  destruct Hrel as [-> _]. eapply HR; [exact Hr|]. by eapply Hok.
Qed.

(** The loop body never indexes [graph_] out of range. *)
Lemma step_connection_total (i k : nat) (g : graph)
    (v : graph_vertex) (c : connection) :
  graph_ok g → g !! i = Some v → connections v !! k = Some c →
  ∃ g', step_connection i k g = Some g'.
Proof.
  intros Hok Hv Hc. unfold step_connection. rewrite Hv. simpl.
  rewrite Hc. simpl.
  destruct (negb (active c) || completed (elapsed c)); [by eexists|].
  destruct (completed (advance (elapsed c))); [|by eexists].
  destruct (Hok i v k c Hv Hc) as ((Hlo & Hhi) & _).
  replace (target_vertex c <? 0) with false by (symmetry; apply Z.ltb_ge; lia).
  set (g1 := <[i := _]> g).
  assert (Hlt : (Z.to_nat (target_vertex c) < length g1)%nat)
    by (subst g1; rewrite length_insert; lia).
  destruct (lookup_lt_is_Some_2 g1 _ Hlt) as [target Htarget].
  rewrite Htarget. simpl. by eexists.
Qed.

Lemma step_from_total (i : nat) (ks : list nat) :
  ∀ (g : graph) (v : graph_vertex),
    graph_ok g → g !! i = Some v →
    (∀ k, k ∈ ks → (k < length (connections v))%nat) →
    ∃ g', step_from i ks g = Some g'.
Proof.
  induction ks as [|k ks IH]; intros g v Hok Hv Hks; simpl; [by eexists|].
  assert (Hk : (k < length (connections v))%nat) by (apply Hks; by left).
  destruct (lookup_lt_is_Some_2 _ _ Hk) as [c Hc].
  destruct (step_connection_total i k g v c Hok Hv Hc) as [g1 H1].
  rewrite H1. simpl.
  pose proof (step_connection_rel i k g g1 H1) as Hrel.
  destruct (proj2 Hrel i v Hv) as (v1 & Hv1 & _ & Hn & _).
  apply (IH g1 v1); [| done |].
  - eapply graph_ok_rel; [exact Hrel | | done].
    intros i' k' c0 c0'. apply rel_on_ok.
  - intros k' Hk'. rewrite Hn. apply Hks. by right.
Qed.

Lemma step_vertex_total (i : nat) (g : graph) :
  graph_ok g → (i < length g)%nat → ∃ g', step_vertex i g = Some g'.
Proof.
  intros Hok Hi. unfold step_vertex.
  destruct (lookup_lt_is_Some_2 g i Hi) as [v Hv]. rewrite Hv. simpl.
  apply (step_from_total i _ g v); [done | done |].
  intros k Hk. apply elem_of_seq in Hk. lia.
Qed.

Lemma step_vertices_total (idx : list nat) :
  ∀ g : graph,
    graph_ok g → (∀ i, i ∈ idx → (i < length g)%nat) →
    ∃ g', step_vertices idx g = Some g'.
Proof.
  induction idx as [|i idx IH]; intros g Hok Hidx; simpl; [by eexists|].
  destruct (step_vertex_total i g Hok) as [g1 H1]; [apply Hidx; by left|].
  rewrite H1. simpl.
  pose proof (step_vertex_rel i g g1 H1) as Hrel.
  apply IH.
  - eapply graph_ok_rel; [exact Hrel | | done].
    intros i' k' c0 c0'. apply rel_on_ok.
  - intros i' Hi'. rewrite (proj1 Hrel). apply Hidx. by right.
Qed.

(** A tick of a well-formed graph succeeds, keeps it well formed, and
    visits every edge. *)
Lemma step_connections_ok (g : graph) :
  graph_ok g →
  ∃ g', step_connections g = Some g' ∧ graph_ok g' ∧
        graph_rel (λ _ _, visited) g g'.
Proof.
  intros Hok.
  destruct (step_vertices_total (seq 0 (length g)) g Hok) as [g' Hg'].
  { intros i Hi. apply elem_of_seq in Hi. lia. }
  exists g'. split; [done|].
  pose proof (step_connections_rel g g' Hg') as Hrel.
  split; [|done].
  eapply graph_ok_rel; [exact Hrel | | done].
  intros i k c c'. apply visited_ok.
Qed.

Lemma ticks_ok (n : nat) :
  ∀ g : graph, graph_ok g →
    ∃ g', ticks n g = Some g' ∧ graph_ok g' ∧ length g' = length g.
Proof.
  induction n as [|n IH]; intros g Hok; simpl; [by exists g|].
  destruct (step_connections_ok g Hok) as (g1 & H1 & Hok1 & Hrel).
  rewrite H1. simpl.
  destruct (IH g1 Hok1) as (g' & Hg' & Hok' & Hlen).
  exists g'. split; [done|]. split; [done|]. rewrite Hlen. apply Hrel.
Qed.

Lemma ticks_succ (n : nat) :
  ∀ g : graph, ticks (S n) g = (g' ← ticks n g; step_connections g').
Proof.
  induction n as [|n IH]; intros g.
  - cbn [ticks mbind option_bind]. destruct (step_connections g); reflexivity.
  - change (ticks (S (S n)) g) with (g' ← step_connections g; ticks (S n) g').
    change (ticks (S n) g) with (g' ← step_connections g; ticks n g').
    destruct (step_connections g) as [g1|]; [|reflexivity].
    cbn [mbind option_bind]. apply IH.
Qed.

Lemma advanced_tick_rel (c : connection) :
  in_orbit (elapsed c) = true → tick_rel c (advanced c).
Proof.
  intros Ho. unfold advanced, tick_rel.
  destruct (active c) eqn:Hact, (completed (elapsed c)) eqn:Hc; simpl;
    repeat split; try done; try (by left); try (by right);
    try apply Qle_refl; try congruence.
  apply Qlt_le_weak. by apply advance_increases.
Qed.

Lemma visited_tick_rel (c c' : connection) :
  in_orbit (elapsed c) = true → visited c c' → tick_rel c c'.
Proof.
  intros Ho (c1 & H1 & H2).
  assert (Hc1 : tick_rel c (advanced c1)).
  { destruct H1 as [-> | [Hact ->]]; [by apply advanced_tick_rel|].
    unfold advanced, tick_rel. simpl.
    destruct (completed (elapsed c)) eqn:Hc; simpl;
      repeat split; try done; try (by left); try (by right);
      try apply Qle_refl; try congruence.
    apply Qlt_le_weak. by apply advance_increases. }
  destruct H2 as [-> | [Hact ->]]; [done|].
  destruct Hc1 as (Ht & Hm & Ha & Hle & Hor & Hadv & Hdone).
  unfold tick_rel. simpl. repeat split; done.
Qed.

Lemma advance_stepped (x : float) :
  in_orbit x = true → completed x = false → stepped x (advance x).
Proof.
  intros Hx Hc. split; [reflexivity|]. split; [by apply advance_increases|].
  assert (Hall : forallb (λ y, completed y ||
                               Qle_bool (Qabs (advance y - y - (2 # 100)))
                                        (1 # 33554432)) orbit = true)
    by (by vm_compute).
  pose proof (orbit_forall _ x Hall Hx) as H. cbv beta in H.
  rewrite Hc in H. exact (proj1 (Qle_bool_iff _ _) H).
Qed.

Lemma tick_rel_step (c c' : connection) :
  in_orbit (elapsed c) = true → tick_rel c c' → tick_step c c'.
Proof.
  intros Ho Hrel. split; [done|].
  destruct Hrel as (_ & _ & _ & _ & Hor & Hadv & Hdone).
  split.
  - destruct (completed (elapsed c)) eqn:Hc; [left; by apply Hdone|].
    destruct Hor as [-> | ->]; [by left | right]. by apply advance_stepped.
  - intros Hact Hc. rewrite (Hadv Hact Hc). by apply advance_stepped.
Qed.

(** ** Two vertices within reach of each other *)

(** With only the edge [0 -> 1] active: after 50 ticks its [elapsed] is
    still below [1.0] and the edge [1 -> 0] has not been touched; the tick
    after that completes [0 -> 1], switches [1 -> 0] on, and advances it,
    as vertex 1 comes after vertex 0 in the loop. *)
Lemma two_vertex_ticks (p0 p1 : vec3) (m01 m10 : geometry connection_vertex) :
  ticks 50 (two_vertex_graph p0 p1 m01 m10 true 0 false 0)
    = Some (two_vertex_graph p0 p1 m01 m10 true (8388605 # 8388608) false 0) ∧
  ticks 51 (two_vertex_graph p0 p1 m01 m10 true 0 false 0)
    = Some (two_vertex_graph p0 p1 m01 m10 true overshoot true (advance 0)).
Proof. split; by vm_compute. Qed.

Lemma last_steps :
  completed (8388605 # 8388608) = false ∧
  advance (8388605 # 8388608) = overshoot ∧
  completed overshoot = true ∧
  (1 < overshoot)%Q ∧
  advance 0 = (5368709 # 268435456)%Q.
Proof. repeat split; by vm_compute. Qed.

(** ** The dynamic vertex producer *)

(** [std::max_element] returns an element whose [elapsed] no other exceeds. *)
Lemma max_element_spec (cs : list connection) :
  ∀ c : connection,
    max_element c cs ∈ c :: cs ∧
    ∀ x, x ∈ c :: cs → (elapsed x <= elapsed (max_element c cs))%Q.
Proof.
  induction cs as [|d cs IH]; intros c; simpl.
  - split; [by left|]. intros x Hx. apply list_elem_of_singleton in Hx.
    subst x. apply Qle_refl.
  - destruct (Ieee.Qltb (elapsed c) (elapsed d)) eqn:Hlt.
    + destruct (IH d) as [Hin Hmax]. split; [by right|].
      intros x Hx. apply elem_of_cons in Hx as [-> | Hx]; [|by apply Hmax].
      apply Qltb_lt in Hlt. apply Qlt_le_weak.
      eapply Qlt_le_trans; [exact Hlt|]. apply Hmax. by left.
    + destruct (IH c) as [Hin Hmax]. split.
      * apply elem_of_cons in Hin as [-> | Hin]; [by left | by do 2 right].
      * intros x Hx. apply elem_of_cons in Hx as [-> | Hx];
          [apply Hmax; by left|].
        apply elem_of_cons in Hx as [-> | Hx]; [|apply Hmax; by right].
        apply Qltb_ge in Hlt. eapply Qle_trans; [exact Hlt|].
        apply Hmax. by left.
Qed.

Lemma update_vertex_lit (v : graph_vertex) (buf : list city_vertex) (n : nat) :
  update_vertex v (buf, n) =
    if lit v
    then if decide (n < length buf)%nat
         then Some (<[n := city_entry v]> buf, S n) else None
    else Some (buf, n).
Proof.
  unfold update_vertex, lit, city_entry, max_elapsed.
  destruct (connections v) as [|c cs]; [done|]. simpl.
  by destruct (Qeq_bool (elapsed (max_element c cs)) 0).
Qed.

Lemma update_loop_spec (vs : list graph_vertex) :
  ∀ (buf : list city_vertex) (n : nat),
    (n + length (filter (λ v, lit v = true) vs) ≤ length buf)%nat →
    update_loop vs (buf, n) =
      Some (take n buf ++ (city_entry <$> filter (λ v, lit v = true) vs)
              ++ drop (n + length (filter (λ v, lit v = true) vs)) buf,
            (n + length (filter (λ v, lit v = true) vs))%nat).
Proof.
  induction vs as [|v vs IH]; intros buf n Hn.
  - simpl. rewrite Nat.add_0_r. by rewrite take_drop.
  - cbn [update_loop]. rewrite update_vertex_lit.
    destruct (lit v) eqn:Hlit.
    + rewrite filter_cons_True in * by done. simpl in Hn.
      destruct (decide (n < length buf)%nat) as [Hlt|]; [|lia].
      cbn [mbind option_bind]. rewrite IH by (rewrite length_insert; lia).
      rewrite (take_S_r _ n (city_entry v))
        by (by apply list_lookup_insert_eq).
      rewrite take_insert_ge by done. rewrite drop_insert_lt by lia.
      cbn [length fmap list_fmap].
      replace (S n + length (filter (λ v, lit v = true) vs))%nat
        with (n + S (length (filter (λ v, lit v = true) vs)))%nat by lia.
      by rewrite <- app_assoc.
    + rewrite filter_cons_False in * by (by rewrite Hlit).
      cbn [mbind option_bind]. by apply IH.
Qed.

Lemma std_min_le (x : float) : (std_min 1 x <= 1)%Q.
Proof.
  unfold std_min. destruct (Ieee.Qltb x 1) eqn:H; [|apply Qle_refl].
  apply Qlt_le_weak. by apply Qltb_lt.
Qed.

Lemma lit_spec (v : graph_vertex) :
  lit v = true ↔
  ∃ c, c ∈ connections v ∧
       (∀ c', c' ∈ connections v → (elapsed c' <= elapsed c)%Q) ∧
       ¬ (elapsed c == 0)%Q ∧
       city_entry v = (position v, std_min 1 (fmul (elapsed c) 2)).
Proof.
  unfold lit, city_entry, max_elapsed.
  destruct (connections v) as [|c0 cs] eqn:Hcs.
  - split; [done|]. intros (c & Hc & _). by apply elem_of_nil in Hc.
  - destruct (max_element_spec cs c0) as [Hin Hmax]. simpl. split.
    + intros Hnz. exists (max_element c0 cs). repeat split; try done.
      intros Hz. apply Qeq_bool_iff in Hz. rewrite Hz in Hnz. done.
    + intros (c & Hc & Hle & Hnz & _).
      apply negb_true_iff. destruct (Qeq_bool _ 0) eqn:Hz; [|done].
      apply Qeq_bool_iff in Hz. destruct Hnz.
      apply Qle_antisym.
      * rewrite <- Hz. by apply Hmax.
      * rewrite <- Hz. by apply Hle.
Qed.


(** ** The edge geometry generator *)

Lemma step_t_checked (i : Z) : 0 ≤ i < 256 → step_t_check i = true.
Proof.
  intros Hi.
  assert (Hall : forallb step_t_check (seqZ 0 256) = true) by (by vm_compute).
  rewrite forallb_forall in Hall. apply Hall.
  apply list_elem_of_In, elem_of_seqZ. lia.
Qed.

Lemma step_t_spec (i : Z) :
  0 ≤ i < 256 →
  (0 <= step_t i)%Q ∧ (step_t i <= 1)%Q ∧
  (Qabs (step_t i - inject_Z i / 255) <= 1 # 2 ^ 25)%Q ∧
  (i < 255 → (step_t i < step_t (i + 1))%Q).
Proof.
  intros Hi. pose proof (step_t_checked i Hi) as H. unfold step_t_check in H.
  apply andb_prop in H as [H H4]. apply andb_prop in H as [H H3].
  apply andb_prop in H as [H1 H2].
  apply Qle_bool_iff in H1, H2, H3. repeat split; try done.
  intros Hlt. apply orb_prop in H4 as [H4 | H4].
  - apply Z.leb_le in H4. lia.
  - by apply Qltb_lt.
Qed.

Lemma dmul_zero (h : double) : dmul h 0 = 0%Q.
Proof.
  destruct h as [n d]. unfold dmul, Ieee.round, Qmult. simpl Qnum.
  by rewrite Z.mul_0_r.
Qed.

Lemma dmul_one (h : double) : dmul h 1 = Ieee.round Ieee.binary64 h.
Proof.
  destruct h as [n d]. unfold dmul, Qmult. simpl Qnum. simpl Qden.
  by rewrite Z.mul_1_r, Pos.mul_1_r.
Qed.

Lemma scale_at_0 (h : float) : scale h 0 = 1%Q.
Proof.
  unfold scale, to_double.
  replace (dsub 1 (dmul (dmul 4 (dsub 0 (1 # 2))) (dsub 0 (1 # 2)))) with 0%Q
    by (by vm_compute).
  rewrite dmul_zero. by vm_compute.
Qed.

Lemma scale_at_1 (h : float) : scale h 1 = 1%Q.
Proof.
  unfold scale, to_double.
  replace (dsub 1 (dmul (dmul 4 (dsub 1 (1 # 2))) (dsub 1 (1 # 2)))) with 0%Q
    by (by vm_compute).
  rewrite dmul_zero. by vm_compute.
Qed.

Lemma scale_at_half (h : float) :
  scale h (1 # 2) = dadd 1 (Ieee.round Ieee.binary64 h).
Proof.
  unfold scale, to_double.
  replace (dsub 1 (dmul (dmul 4 (dsub (1 # 2) (1 # 2))) (dsub (1 # 2) (1 # 2))))
    with 1%Q by (by vm_compute).
  by rewrite dmul_one.
Qed.

(** ** The graph built by [initialize_connections] *)

Lemma initialize_graph_positions (sinf cosf : float → float) (cities : list city) :
  initialize_graph sinf cosf cities =
  graph_of_positions
    ((λ c, to_position sinf cosf (latitude c) (longitude c)) <$> cities).
Proof.
  unfold initialize_graph, graph_of_positions.
  by rewrite <- list_fmap_compose.
Qed.

Section Construction.

Variable normalize : vec3 → vec3.
Variable distance : vec3 → vec3 → float.

Lemma connect_spec (i j : nat) (g : graph) (r : rng) (vi : graph_vertex) :
  g !! i = Some vi → (j < length g)%nat →
  ∃ new r',
    connect normalize distance i j (g, r)
      = (<[i := set_connections vi (connections vi ++ new)]> g, r') ∧
    Forall2 (built normalize distance (position <$> g) i)
            (filter (λ j, near distance (position <$> g) i j = true) [j]) new.
Proof.
  intros Hvi Hj.
  destruct (lookup_lt_is_Some_2 g j Hj) as [vj Hvj].
  assert (Hid : <[i := set_connections vi (connections vi ++ [])]> g = g).
  { rewrite app_nil_r. apply list_insert_id.
    rewrite Hvi. by destruct vi. }
  assert (Hnear : near distance (position <$> g) i j =
                  bool_decide (i ≠ j) &&
                  Ieee.Qltb (to_double (distance (position vi) (position vj)))
                            min_distance).
  { unfold near. by rewrite !list_lookup_fmap, Hvi, Hvj. }
  unfold connect. rewrite Hvi, Hvj.
  destruct (decide (i = j)) as [Heq | Hne].
  { exists [], r. rewrite Hid. split; [reflexivity|].
    rewrite filter_cons_False; [constructor|].
    rewrite Hnear, bool_decide_eq_false_2; [done | by intros ?]. }
  rewrite bool_decide_eq_true_2 in Hnear by done. simpl in Hnear.
  cbv zeta.
  destruct (Ieee.Qltb (to_double (distance (position vi) (position vj)))
                      min_distance) eqn:Hlt.
  - destruct (rand r) as [x r'] eqn:Hrand.
    eexists [_], r'. split; [reflexivity|].
    rewrite filter_cons_True by done.
    constructor; [|constructor].
    split; [done|]. split; [done|].
    exists (position vi), (position vj).
    by rewrite !list_lookup_fmap, Hvi, Hvj.
  - exists [], r. rewrite Hid. split; [reflexivity|].
    rewrite filter_cons_False; [constructor|]. by rewrite Hnear.
Qed.

Lemma positions_insert (g : graph) (i : nat) (vi : graph_vertex)
    (cs : list connection) :
  g !! i = Some vi →
  position <$> <[i := set_connections vi cs]> g = position <$> g.
Proof.
  intros Hvi. rewrite list_fmap_insert. simpl. apply list_insert_id.
  by rewrite list_lookup_fmap, Hvi.
Qed.

(** The inner loop of [initialize_connections] for the vertex [i]. *)
Lemma connect_row (i : nat) (js : list nat) :
  ∀ (g : graph) (r : rng) (vi : graph_vertex),
    g !! i = Some vi → (∀ j, j ∈ js → (j < length g)%nat) →
    ∃ new r',
      foldl (λ st j, connect normalize distance i j st) (g, r) js
        = (<[i := set_connections vi (connections vi ++ new)]> g, r') ∧
      Forall2 (built normalize distance (position <$> g) i)
              (filter (λ j, near distance (position <$> g) i j = true) js) new.
Proof.
  induction js as [|j js IH]; intros g r vi Hvi Hjs.
  - exists [], r. split; [|constructor]. simpl. f_equal.
    rewrite app_nil_r. symmetry. apply list_insert_id.
    rewrite Hvi. by destruct vi.
  - destruct (connect_spec i j g r vi Hvi) as (new1 & r1 & H1 & F1);
      [apply Hjs; by left|].
    set (vi1 := set_connections vi (connections vi ++ new1)) in *.
    set (g1 := <[i := vi1]> g) in *.
    assert (Hvi1 : g1 !! i = Some vi1).
    { apply list_lookup_insert_eq. eapply lookup_lt_Some; eauto. }
    assert (Hps : position <$> g1 = position <$> g)
      by (by apply positions_insert).
    destruct (IH g1 r1 vi1 Hvi1) as (new2 & r2 & H2 & F2).
    { intros j' Hj'. subst g1. rewrite length_insert. apply Hjs. by right. }
    exists (new1 ++ new2), r2. split.
    + change (foldl ?f ?a (?x :: ?l)) with (foldl f (f a x) l).
      cbv beta. rewrite H1, H2. f_equal. subst g1 vi1.
      rewrite list_insert_insert_eq. simpl. by rewrite app_assoc.
    + change (j :: js) with ([j] ++ js). rewrite filter_app.
      apply Forall2_app; [done|]. by rewrite <- Hps.
Qed.

(** The outer loop. *)
Lemma connect_rows (js idx : list nat) :
  NoDup idx →
  ∀ (g : graph) (r : rng),
    (∀ j, j ∈ js → (j < length g)%nat) →
    (∀ i, i ∈ idx → (i < length g)%nat) →
    ∃ g' r',
      foldl (λ st i, foldl (λ st j, connect normalize distance i j st) st js)
            (g, r) idx = (g', r') ∧
      position <$> g' = position <$> g ∧
      ∀ i vi, g !! i = Some vi →
        ∃ new,
          g' !! i = Some (set_connections vi (connections vi ++ new)) ∧
          ((i ∈ idx ∧
            Forall2 (built normalize distance (position <$> g) i)
                    (filter (λ j, near distance (position <$> g) i j = true) js) new)
           ∨ ((i ∉ idx) ∧ new = [])).
Proof.
  induction idx as [|i0 idx IH]; intros Hnd g r Hjs Hidx.
  - exists g, r. split; [done|]. split; [done|].
    intros i vi Hvi. exists []. split.
    + rewrite app_nil_r, Hvi. by destruct vi.
    + right. split; [apply not_elem_of_nil | done].
  - apply NoDup_cons in Hnd as [Hi0 Hnd].
    assert (Hlt : (i0 < length g)%nat) by (apply Hidx; by left).
    destruct (lookup_lt_is_Some_2 g i0 Hlt) as [v0 Hv0].
    destruct (connect_row i0 js g r v0 Hv0 Hjs) as (new0 & r1 & H1 & F1).
    set (g1 := <[i0 := set_connections v0 (connections v0 ++ new0)]> g) in *.
    assert (Hps : position <$> g1 = position <$> g)
      by (by apply positions_insert).
    assert (Hlen : length g1 = length g) by apply length_insert.
    destruct (IH Hnd g1 r1) as (g' & r' & H2 & Hps' & He).
    { intros j Hj. rewrite Hlen. by apply Hjs. }
    { intros i Hi. rewrite Hlen. apply Hidx. by right. }
    exists g', r'. split.
    { change (foldl ?f ?a (?x :: ?l)) with (foldl f (f a x) l).
      cbv beta. by rewrite H1, H2. }
    split; [congruence|].
    intros i vi Hvi. destruct (decide (i = i0)) as [-> | Hne].
    + assert (vi = v0) by congruence. subst vi.
      destruct (He i0 (set_connections v0 (connections v0 ++ new0)))
        as (new & Hg' & [[Hin _] | [_ ->]]); [| done |].
      { apply list_lookup_insert_eq. eapply lookup_lt_Some; eauto. }
      exists new0. split; [by rewrite Hg', app_nil_r|].
      left. split; [by left | done].
    + destruct (He i vi) as (new & Hg' & Hcase).
      { subst g1. by rewrite list_lookup_insert_ne. }
      exists new. split; [done|].
      rewrite Hps in Hcase. destruct Hcase as [[Hin F] | [Hout ->]].
      * left. split; [by right | done].
      * right. split; [|done]. rewrite not_elem_of_cons. done.
Qed.

(** The edges of every vertex after construction: in the order of [j],
    one for each [j] that passes the test, whatever the random source
    draws. *)
Lemma initialize_connections_spec (ps : list vec3) (r : rng) :
  let g := (initialize_connections normalize distance
              (graph_of_positions ps) r).1 in
  position <$> g = ps ∧
  ∀ i pi, ps !! i = Some pi →
    ∃ v, g !! i = Some v ∧ position v = pi ∧
         Forall2 (built normalize distance ps i)
                 (filter (λ j, near distance ps i j = true) (seq 0 (length ps)))
                 (connections v).
Proof.
  assert (Hgp : position <$> graph_of_positions ps = ps).
  { unfold graph_of_positions. rewrite <- list_fmap_compose.
    apply list_fmap_id. }
  assert (Hlen : length (graph_of_positions ps) = length ps)
    by apply length_fmap.
  unfold initialize_connections. rewrite Hlen.
  destruct (connect_rows (seq 0 (length ps)) (seq 0 (length ps))
              (NoDup_seq _ _) (graph_of_positions ps) r)
    as (g' & r' & Hrun & Hps & He).
  { intros j Hj. apply elem_of_seq in Hj. lia. }
  { intros i Hi. apply elem_of_seq in Hi. lia. }
  rewrite Hrun. simpl. rewrite Hgp in *. split; [done|].
  intros i pi Hpi.
  destruct (He i {| position := pi; connections := [] |}) as (new & Hg' & Hcase).
  { unfold graph_of_positions. by rewrite list_lookup_fmap, Hpi. }
  eexists. split; [exact Hg'|]. split; [done|]. simpl.
  destruct Hcase as [[_ F] | [Hout _]]; [done|].
  destruct Hout. apply elem_of_seq. apply lookup_lt_Some in Hpi. lia.
Qed.

Lemma constructed_length (ps : list vec3) (r : rng) :
  length (constructed normalize distance ps r) = length ps.
Proof.
  destruct (initialize_connections_spec ps r) as [Hps _].
  unfold constructed. rewrite <- Hps at 2. by rewrite length_fmap.
Qed.

(** Every edge of the constructed graph was built for some pair that
    passes the test. *)
Lemma constructed_edge (ps : list vec3) (r : rng) (i k : nat)
    (v : graph_vertex) (c : connection) :
  constructed normalize distance ps r !! i = Some v → connections v !! k = Some c →
  ∃ j, near distance ps i j = true ∧ (j < length ps)%nat ∧
       built normalize distance ps i j c.
Proof.
  intros Hv Hc.
  destruct (initialize_connections_spec ps r) as [Hps He].
  fold (constructed normalize distance ps r) in Hps, He.
  assert (Hpi : ps !! i = Some (position v))
    by (by rewrite <- Hps, list_lookup_fmap, Hv).
  destruct (He i _ Hpi) as (v' & Hv' & _ & F).
  assert (v' = v) by congruence. subst v'.
  destruct (Forall2_lookup_r _ _ _ _ _ F Hc) as (j & Hj & Hb).
  exists j. apply list_elem_of_lookup_2 in Hj.
  apply list_elem_of_filter in Hj as [Hn Hs].
  apply elem_of_seq in Hs. split; [done|]. split; [lia | done].
Qed.

Lemma constructed_ok (ps : list vec3) (r : rng) :
  graph_ok (constructed normalize distance ps r).
Proof.
  intros i v k c Hv Hc. rewrite constructed_length.
  destruct (constructed_edge ps r i k v c Hv Hc) as (j & _ & Hj & Ht & He & _).
  repeat split; try lia.
  - rewrite He. apply zero_in_orbit.
  - done.
Qed.

(** C5. After construction, whatever the random source draws, vertex
    [i] has an edge with target [j] exactly when [i] and [j] are two
    different vertices whose computed distance is below [0.75]: every
    such pair has its edge, and no other edge exists. *)
Theorem edge_exists_iff_near (ps : list vec3) (r : rng) (i j : nat) :
  (∃ k c, edge_at (constructed normalize distance ps r) i k = Some c ∧
          target_vertex c = Z.of_nat j)
  ↔ (∃ pi pj, ps !! i = Some pi ∧ ps !! j = Some pj ∧ i ≠ j ∧
              Ieee.Qltb (to_double (distance pi pj)) min_distance = true).
Proof.
  assert (Hnear : near distance ps i j = true ↔
            ∃ pi pj, ps !! i = Some pi ∧ ps !! j = Some pj ∧ i ≠ j ∧
              Ieee.Qltb (to_double (distance pi pj)) min_distance = true).
  { unfold near. destruct (ps !! i) as [pi|], (ps !! j) as [pj|]; split;
      try (intros; discriminate); try (intros (? & ? & ? & ? & _); discriminate).
    - intros [H1 H2]%andb_prop. apply bool_decide_eq_true in H1.
      by exists pi, pj.
    - intros (pi' & pj' & [= <-] & [= <-] & Hne & Hlt).
      by rewrite bool_decide_eq_true_2, Hlt. }
  rewrite <- Hnear. clear Hnear. split.
  - intros (k & c & He & Ht). unfold edge_at in He.
    destruct (constructed normalize distance ps r !! i) as [v|] eqn:Hv;
      simpl in He; [|done].
    destruct (constructed_edge ps r i k v c Hv He) as (j' & Hn & _ & Ht' & _).
    assert (j' = j) by lia. by subst j'.
  - intros Hn.
    destruct (initialize_connections_spec ps r) as [Hps He].
    fold (constructed normalize distance ps r) in Hps, He.
    assert (∃ pi, ps !! i = Some pi) as [pi Hpi].
    { unfold near in Hn. destruct (ps !! i); [by eexists | done]. }
    assert (Hj : (j < length ps)%nat).
    { unfold near in Hn. rewrite Hpi in Hn.
      destruct (ps !! j) eqn:Hpj; [|done]. by eapply lookup_lt_Some. }
    destruct (He i pi Hpi) as (v & Hv & _ & F).
    assert (Hin : j ∈ filter (λ j, near distance ps i j = true) (seq 0 (length ps))).
    { apply list_elem_of_filter. split; [done|]. apply elem_of_seq. lia. }
    apply list_elem_of_lookup_1 in Hin as [k Hk].
    destruct (Forall2_lookup_l _ _ _ _ _ F Hk) as (c & Hc & Ht & _).
    exists k, c. split; [|done]. unfold edge_at. by rewrite Hv.
Qed.

(** C8. In every state reached from construction by any number of
    ticks, the target of every edge is the index of a vertex; no tick
    indexes the graph out of range, so every tick yields a state. *)
Theorem target_vertex_in_range (ps : list vec3) (r : rng) (n : nat) :
  ∃ g, ticks n (constructed normalize distance ps r) = Some g ∧
       length g = length ps ∧
       (∀ i k c, edge_at g i k = Some c →
                 0 ≤ target_vertex c < Z.of_nat (length g)) ∧
       ∃ g', step_connections g = Some g'.
Proof.
  destruct (ticks_ok n (constructed normalize distance ps r) (constructed_ok ps r))
    as (g & Hg & Hok & Hlen).
  exists g. split; [done|]. split; [by rewrite Hlen, constructed_length|].
  split.
  - intros i k c He. unfold edge_at in He.
    destruct (g !! i) as [v|] eqn:Hv; simpl in He; [|done].
    by destruct (Hok i v k c Hv He) as (Ht & _).
  - destruct (step_connections_ok g Hok) as (g' & Hg' & _). by exists g'.
Qed.

(** C9. In every state reached from construction by any number of
    ticks, an edge whose [active] flag is false has [elapsed] exactly
    [0]; the cascade scan writes no [elapsed] field, so an edge it
    switches on starts with [elapsed] [0]. *)
Theorem inactive_elapsed_zero (ps : list vec3) (r : rng) (n : nat) :
  ∃ g, ticks n (constructed normalize distance ps r) = Some g ∧
       (∀ i k c, edge_at g i k = Some c → active c = false → elapsed c = 0%Q) ∧
       (∀ t target j c, g !! t = Some target →
          connections target !! j = Some c →
          ∃ c', activate_loop 0 (connections target) !! j = Some c' ∧
                elapsed c' = elapsed c ∧
                (active c = false → active c' = true → elapsed c' = 0%Q)).
Proof.
  destruct (ticks_ok n (constructed normalize distance ps r) (constructed_ok ps r))
    as (g & Hg & Hok & Hlen).
  exists g. split; [done|]. split.
  - intros i k c He. unfold edge_at in He.
    destruct (g !! i) as [v|] eqn:Hv; simpl in He; [|done].
    by destruct (Hok i v k c Hv He) as (_ & _ & Hz).
  - intros t target j c Ht Hc.
    destruct (activate_loop_later _ _ _ Hc) as (c' & Hc' & Hl).
    exists c'. split; [done|].
    destruct (Hok t target j c Ht Hc) as (_ & _ & Hz).
    destruct Hl as [-> | [Hact ->]]; simpl; split; auto.
Qed.

(** C2. Along every run from construction, from each state to the
    next tick: an active edge stays active; [elapsed] does not decrease;
    it is kept, or replaced once by the [float] of its [double] sum with
    [0.02], which is strictly larger and differs from [elapsed + 0.02]
    by at most [2^-25]; an edge that is active and below [1.0] is
    stepped in this way at every tick; and an edge at or above [1.0]
    keeps its [elapsed]. *)
Theorem elapsed_monotone (ps : list vec3) (r : rng) (n : nat) :
  ∃ g g',
    ticks n (constructed normalize distance ps r) = Some g ∧
    step_connections g = Some g' ∧
    ticks (S n) (constructed normalize distance ps r) = Some g' ∧
    graph_rel (λ _ _, tick_step) g g'.
Proof.
  destruct (ticks_ok n (constructed normalize distance ps r) (constructed_ok ps r))
    as (g & Hg & Hok & Hlen).
  destruct (step_connections_ok g Hok) as (g' & Hg' & Hok' & Hrel).
  exists g, g'. split; [done|]. split; [done|]. split.
  - by rewrite ticks_succ, Hg.
  - eapply graph_rel_mono; [exact Hrel|].
    intros i k v c c' Hv Hc Hvis.
    destruct (Hok i v k c Hv Hc) as (_ & Ho & _).
    apply tick_rel_step; [done|]. by apply visited_tick_rel.
Qed.

Lemma build_loop_spec (from_normal to_normal : vec3) (h : float) (n : nat) :
  ∀ (i : Z) (verts : list connection_vertex),
    build_loop normalize from_normal to_normal h n i verts =
    verts ++ (connection_sample normalize from_normal to_normal h
                <$> seqZ i (Z.of_nat n)).
Proof.
  induction n as [|n IH]; intros i verts.
  - simpl. by rewrite app_nil_r.
  - cbn [build_loop]. rewrite IH.
    rewrite (seqZ_cons i (Z.of_nat (S n))) by lia.
    replace (Z.pred (Z.of_nat (S n))) with (Z.of_nat n) by lia.
    replace (Z.succ i) with (i + 1) by lia.
    rewrite fmap_cons. by rewrite <- app_assoc.
Qed.

Lemma connect_self (i : nat) (st : graph * rng) :
  connect normalize distance i i st = st.
Proof. unfold connect. destruct st as [g r]. by rewrite decide_True. Qed.

Lemma connect_near (i j : nat) (g : graph) (r : rng) (vi vj : graph_vertex) :
  i ≠ j → g !! i = Some vi → g !! j = Some vj →
  Ieee.Qltb (to_double (distance (position vi) (position vj))) min_distance
    = true →
  connect normalize distance i j (g, r) =
    (<[i := set_connections vi
              (connections vi ++
                 [ {| active := Z.rem (tape r (drawn r)) 150 =? 0;
                      elapsed := 0;
                      target_vertex := Z.of_nat j;
                      mesh := build_connection_geometry normalize
                                (position vi) (position vj)
                                (to_float (connection_height
                                   (distance (position vi) (position vj)))) |} ])]> g,
     {| tape := tape r; drawn := S (drawn r) |}).
Proof.
  intros Hne Hi Hj Hd. unfold connect.
  rewrite decide_False by done. rewrite Hi, Hj. cbv zeta. by rewrite Hd.
Qed.

Lemma two_vertex_constructed (p0 p1 : vec3) (r : rng) :
  Ieee.Qltb (to_double (distance p0 p1)) min_distance = true →
  Ieee.Qltb (to_double (distance p1 p0)) min_distance = true →
  Z.rem (tape r (drawn r)) 150 = 0 →
  Z.rem (tape r (S (drawn r))) 150 ≠ 0 →
  constructed normalize distance [p0; p1] r =
    two_vertex_graph p0 p1
      (build_connection_geometry normalize p0 p1
         (to_float (connection_height (distance p0 p1))))
      (build_connection_geometry normalize p1 p0
         (to_float (connection_height (distance p1 p0))))
      true 0 false 0.
Proof.
  intros H01 H10 Hr0 Hr1.
  unfold constructed, initialize_connections, graph_of_positions.
  cbn [fmap list_fmap length seq foldl].
  rewrite !connect_self.
  erewrite (connect_near 0 1); [| done | reflexivity | reflexivity | exact H01].
  erewrite (connect_near 1 0); [| done | reflexivity | reflexivity | exact H10].
  cbn [fst insert list_insert set_connections connections position app tape drawn].
  rewrite Hr0. apply Z.eqb_neq in Hr1. rewrite Hr1. reflexivity.
Qed.

(** C4, as the code has it. Two vertices whose computed distance is
    below [0.75] in both directions get exactly the edges [0 -> 1] and
    [1 -> 0]. When the random source seeds only [0 -> 1]: after 50 ticks
    its [elapsed] is [8388605 / 8388608], still below [1.0], and
    [1 -> 0] is inactive with [elapsed] [0]; the 51st tick takes
    [0 -> 1] to [8556377 / 8388608], which completes it and switches
    [1 -> 0] on, and the same tick advances [1 -> 0], so that after 51
    ticks [1 -> 0] is active with [elapsed] [0.02f]. *)
Theorem two_vertex_scenario (p0 p1 : vec3) (r : rng) :
  Ieee.Qltb (to_double (distance p0 p1)) min_distance = true →
  Ieee.Qltb (to_double (distance p1 p0)) min_distance = true →
  Z.rem (tape r (drawn r)) 150 = 0 →
  Z.rem (tape r (S (drawn r))) 150 ≠ 0 →
  ∃ m01 m10 : geometry connection_vertex,
    constructed normalize distance [p0; p1] r
      = two_vertex_graph p0 p1 m01 m10 true 0 false 0 ∧
    ticks 50 (constructed normalize distance [p0; p1] r)
      = Some (two_vertex_graph p0 p1 m01 m10
                true (8388605 # 8388608) false 0) ∧
    ticks 51 (constructed normalize distance [p0; p1] r)
      = Some (two_vertex_graph p0 p1 m01 m10
                true (8556377 # 8388608) true (5368709 # 268435456)) ∧
    completed (8388605 # 8388608) = false ∧
    completed (8556377 # 8388608) = true ∧
    advance 0 = (5368709 # 268435456)%Q.
Proof.
  intros H01 H10 Hr0 Hr1.
  rewrite (two_vertex_constructed p0 p1 r H01 H10 Hr0 Hr1).
  eexists _, _. split; [reflexivity|].
  destruct (two_vertex_ticks p0 p1
              (build_connection_geometry normalize p0 p1
                 (to_float (connection_height (distance p0 p1))))
              (build_connection_geometry normalize p1 p0
                 (to_float (connection_height (distance p1 p0)))))
    as [H50 H51].
  destruct last_steps as (Hc50 & _ & Hc51 & _ & Hadv).
  split; [exact H50|]. split; [rewrite H51, Hadv; reflexivity|].
  split; [exact Hc50|]. split; [exact Hc51 | exact Hadv].
Qed.

(** C3, as the code has it. In every state reached from construction,
    each value given to [tex_offset] is the stored [elapsed] of an active
    edge, not clamped: it lies between [0] and [8556377 / 8388608], the
    value a completed edge holds, which is above [1.0]; the largest
    [elapsed] read for a city lies in the same range, and the intensity
    computed from it is [min(1, elapsed * 2)], never above [1.0]. *)
Theorem consumers_read_elapsed (ps : list vec3) (r : rng) (n : nat) :
  ∃ g, ticks n (constructed normalize distance ps r) = Some g ∧
    (∀ x, x ∈ render_connections g →
       (∃ i k c, edge_at g i k = Some c ∧ active c = true ∧ x = elapsed c) ∧
       (0 <= x)%Q ∧ (x <= 8556377 # 8388608)%Q) ∧
    (∀ v e, v ∈ g → max_elapsed v = Some e →
       (0 <= e)%Q ∧ (e <= 8556377 # 8388608)%Q ∧
       snd (city_entry v) = std_min 1 (fmul e 2) ∧
       (snd (city_entry v) <= 1)%Q) ∧
    (1 < 8556377 # 8388608)%Q.
Proof.
  destruct (ticks_ok n (constructed normalize distance ps r) (constructed_ok ps r))
    as (g & Hg & Hok & Hlen).
  exists g. split; [done|]. split; [|split; [|done]].
  - intros x Hx. apply list_elem_of_In in Hx. unfold render_connections in Hx.
    apply in_flat_map in Hx as (v & Hv & Hx).
    apply in_flat_map in Hx as (c & Hc & Hx).
    apply list_elem_of_In, list_elem_of_lookup_1 in Hv as [i Hi].
    apply list_elem_of_In, list_elem_of_lookup_1 in Hc as [k Hk].
    destruct (active c) eqn:Hact; [|by destruct Hx].
    destruct Hx as [<- | []].
    destruct (Hok i v k c Hi Hk) as (_ & Ho & _).
    split; [|by apply orbit_bounds].
    exists i, k, c. split; [|done]. unfold edge_at. by rewrite Hi.
  - intros v e Hv He. apply list_elem_of_lookup_1 in Hv as [i Hi].
    assert (Hentry : snd (city_entry v) = std_min 1 (fmul e 2))
      by (unfold city_entry; by rewrite He).
    unfold max_elapsed in He.
    destruct (connections v) as [|c cs] eqn:Hcs; [done|].
    injection He as <-.
    destruct (max_element_spec cs c) as [Hin _]. rewrite <- Hcs in Hin.
    apply list_elem_of_lookup_1 in Hin as [k Hk].
    destruct (Hok i v k _ Hi Hk) as (_ & Ho & _).
    destruct (orbit_bounds _ Ho) as [H0 H1].
    split; [done|]. split; [done|]. split; [done|].
    rewrite Hentry. apply std_min_le.
Qed.

End Construction.


(** ** Concrete runs *)

Lemma scenario_distance :
  GlmModel.distance Scenario.p0 Scenario.p1 = (10610843 # 16777216)%Q ∧
  GlmModel.distance Scenario.p1 Scenario.p0 = (10610843 # 16777216)%Q.
Proof. split; by vm_compute. Qed.

Lemma scenario_graph :
  Scenario.g0 =
    two_vertex_graph Scenario.p0 Scenario.p1 Scenario.m01 Scenario.m10
      true 0 false 0.
Proof.
  unfold Scenario.g0. apply two_vertex_constructed; by vm_compute.
Qed.

Lemma cascade_on_completion_witness :
  ∃ (target target' : graph_vertex) (g' : graph),
    step_connection 0 0 Scenario.fan = Some g' ∧
    g' !! 1%nat = Some target' ∧
    target = Scenario.v1 ∧
    active <$> connections target' = [true; true; true; true; false] ∧
    switched (connections target) (connections target') = 3%nat.
Proof.
  destruct (cascade_on_completion Scenario.fan 0 0 Scenario.v0 Scenario.c0)
    as (target & target' & g' & Hstep & Ht & Ht' & _ & _ & _ & _ & Hsw & _).
  1-5: vm_compute; reflexivity.
  { simpl. lia. }
  assert (Hg' : Some g' = step_connection 0 0 Scenario.fan)
    by (symmetry; exact Hstep).
  vm_compute in Hg'. injection Hg' as ->.
  vm_compute in Ht. injection Ht as <-.
  vm_compute in Ht'. injection Ht' as <-.
  eexists _, _, _. split; [exact Hstep|]. vm_compute. repeat split.
Defined.

(** C3 fails as stated: in the run of two vertices with only the edge
    [0 -> 1] seeded, after 51 ticks the completed edge is drawn with
    [tex_offset] [8556377 / 8388608], which is above [1.0]. *)
Lemma tex_offset_above_one :
  Scenario.g0 =
    two_vertex_graph Scenario.p0 Scenario.p1 Scenario.m01 Scenario.m10
      true 0 false 0 ∧
  ∃ g, ticks 51 Scenario.g0 = Some g ∧
       render_connections g = [(8556377 # 8388608)%Q; (5368709 # 268435456)%Q] ∧
       ¬ (∀ x, x ∈ render_connections g → (x <= 1)%Q).
Proof.
  split; [apply scenario_graph|].
  rewrite scenario_graph.
  destruct (two_vertex_ticks Scenario.p0 Scenario.p1 Scenario.m01 Scenario.m10)
    as [_ H51].
  eexists. split; [exact H51|].
  assert (Hr : render_connections
                 (two_vertex_graph Scenario.p0 Scenario.p1 Scenario.m01
                    Scenario.m10 true overshoot true (advance 0))
               = [(8556377 # 8388608)%Q; (5368709 # 268435456)%Q]).
  { unfold render_connections, two_vertex_graph.
    cbn [flat_map connections active elapsed app].
    destruct last_steps as (_ & _ & _ & _ & ->). reflexivity. }
  split; [exact Hr|]. rewrite Hr. intros H.
  specialize (H (8556377 # 8388608)%Q (list_elem_of_here _ _)).
  revert H. apply Qlt_not_le. by vm_compute.
Qed.

(** C4 fails as stated: two vertices at a distance between [0] and
    [0.75], only the edge [0 -> 1] seeded; after 50 ticks the edge
    [0 -> 1] is still below [1.0] and the edge [1 -> 0] is inactive. *)
Lemma fifty_ticks_leave_target_idle :
  (0 < GlmModel.distance Scenario.p0 Scenario.p1)%Q ∧
  (GlmModel.distance Scenario.p0 Scenario.p1 < 75 # 100)%Q ∧
  Scenario.g0 =
    two_vertex_graph Scenario.p0 Scenario.p1 Scenario.m01 Scenario.m10
      true 0 false 0 ∧
  ∃ g c01 c10,
    ticks 50 Scenario.g0 = Some g ∧
    edge_at g 0 0 = Some c01 ∧ edge_at g 1 0 = Some c10 ∧
    ¬ (completed (elapsed c01) = true ∧ active c10 = true ∧ elapsed c10 = 0%Q) ∧
    completed (elapsed c01) = false ∧ active c10 = false.
Proof.
  destruct scenario_distance as [-> _].
  split; [by vm_compute|]. split; [by vm_compute|].
  split; [apply scenario_graph|].
  rewrite scenario_graph.
  destruct (two_vertex_ticks Scenario.p0 Scenario.p1 Scenario.m01 Scenario.m10)
    as [H50 _].
  eexists _, _, _. split; [exact H50|].
  split; [reflexivity|]. split; [reflexivity|].
  cbn [active elapsed]. split; [|split; [by vm_compute | done]].
  intros (_ & Hact & _). discriminate.
Qed.

Lemma two_vertex_scenario_witness :
  ∃ m01 m10 : geometry connection_vertex,
    Scenario.g0
      = two_vertex_graph Scenario.p0 Scenario.p1 m01 m10 true 0 false 0 ∧
    ticks 50 Scenario.g0
      = Some (two_vertex_graph Scenario.p0 Scenario.p1 m01 m10
                true (8388605 # 8388608) false 0) ∧
    ticks 51 Scenario.g0
      = Some (two_vertex_graph Scenario.p0 Scenario.p1 m01 m10
                true (8556377 # 8388608) true (5368709 # 268435456)) ∧
    completed (8388605 # 8388608) = false ∧
    completed (8556377 # 8388608) = true ∧
    advance 0 = (5368709 # 268435456)%Q.
Proof.
  apply (two_vertex_scenario GlmModel.normalize GlmModel.distance
           Scenario.p0 Scenario.p1 Scenario.counting); by vm_compute.
Defined.




(** * Further properties *)

(** ** The shape of the graph along a run *)

Lemma graph_rel_same_shape (R : connection → connection → Prop) (g g' : graph) :
  graph_rel (λ _ _, R) g g' → same_shape R g g'.
Proof.
  intros [Hlen H]. apply Forall2_same_length_lookup_2; [done|].
  intros i v v' Hv Hv'.
  destruct (H i v Hv) as (v'' & Hv'' & Hp & Hn & He).
  assert (v'' = v') by congruence. subst v''. split; [done|].
  apply Forall2_same_length_lookup_2; [done|].
  intros k c c' Hc Hc'. destruct (He k c Hc) as (c'' & Hc'' & Hr).
  congruence.
Qed.

Lemma same_shape_graph_rel (R : connection → connection → Prop) (g g' : graph) :
  same_shape R g g' → graph_rel (λ _ _, R) g g'.
Proof.
  intros H. split; [symmetry; by eapply Forall2_length|].
  intros i v Hv. destruct (Forall2_lookup_l _ _ _ _ _ H Hv) as (v' & Hv' & Hp & He).
  exists v'. split; [done|]. split; [done|].
  split; [symmetry; by eapply Forall2_length|].
  intros k c Hc. by apply (Forall2_lookup_l _ _ _ _ _ He Hc).
Qed.

Lemma same_shape_refl (R : connection → connection → Prop) (g : graph) :
  (∀ c, R c c) → same_shape R g g.
Proof.
  intros HR. apply Forall_Forall2_diag, Forall_true. intros v.
  split; [done|]. by apply Forall_Forall2_diag, Forall_true.
Qed.

Lemma same_shape_trans (R1 R2 R3 : connection → connection → Prop)
    (g g1 g2 : graph) :
  (∀ c c1 c2, R1 c c1 → R2 c1 c2 → R3 c c2) →
  same_shape R1 g g1 → same_shape R2 g1 g2 → same_shape R3 g g2.
Proof.
  intros HR H1 H2. apply same_shape_graph_rel in H1, H2.
  apply graph_rel_same_shape.
  eapply graph_rel_trans; [exact H1 | exact H2 |]. intros i k. apply HR.
Qed.

Lemma same_shape_fmap {A} (f : connection → A)
    (R : connection → connection → Prop) (g g' : graph) :
  (∀ c c', R c c' → f c' = f c) →
  same_shape R g g' →
  position <$> g' = position <$> g ∧
  (λ v, f <$> connections v) <$> g' = (λ v, f <$> connections v) <$> g.
Proof.
  intros Hf H. induction H as [|v v' g g' [Hp He] _ [IH1 IH2]]; [done|].
  rewrite !fmap_cons, IH1, IH2, Hp. split; [done|]. f_equal.
  clear -Hf He. induction He as [|c c' l l' Hc _ IH]; [done|].
  by rewrite !fmap_cons, IH, (Hf _ _ Hc).
Qed.

Lemma later_moved (c c' : connection) : later c c' → moved c c'.
Proof. by right. Qed.

Lemma moved_same (c c' : connection) :
  moved c c' →
  target_vertex c' = target_vertex c ∧ mesh c' = mesh c ∧
  (active c = true → active c' = true) ∧
  (elapsed c' = elapsed c ∨
   (completed (elapsed c) = false ∧ elapsed c' = advance (elapsed c))) .
Proof.
  assert (Hl : ∀ a b, later a b →
            target_vertex b = target_vertex a ∧ mesh b = mesh a ∧
            (active a = true → active b = true) ∧ elapsed b = elapsed a).
  { intros a b [-> | [Ha ->]]; simpl; repeat split; try done. }
  assert (Ha : ∀ a,
            target_vertex (advanced a) = target_vertex a ∧
            mesh (advanced a) = mesh a ∧
            active (advanced a) = active a ∧
            (elapsed (advanced a) = elapsed a ∨
             (completed (elapsed a) = false ∧
              elapsed (advanced a) = advance (elapsed a)))).
  { intros a. unfold advanced.
    destruct (active a) eqn:Hact, (completed (elapsed a)); simpl;
      rewrite ?Hact; repeat split; try done; try (by left); try (by right). }
  intros [(c1 & H1 & H2) | H].
  - destruct (Hl _ _ H1) as (T1 & M1 & A1 & E1).
    destruct (Ha c1) as (T2 & M2 & A2 & E2).
    destruct (Hl _ _ H2) as (T3 & M3 & A3 & E3).
    rewrite E1 in E2. rewrite <- E3 in E2.
    repeat split; try congruence.
    intros Hact. apply A3. rewrite A2. by apply A1.
  - destruct (Hl _ _ H) as (T & M & A & E). auto.
Qed.

Lemma step_connections_shape (g g' : graph) :
  step_connections g = Some g' → same_shape visited g g'.
Proof. intros H. by apply graph_rel_same_shape, step_connections_rel. Qed.

Lemma ticks_shape (n : nat) :
  ∀ g g', ticks n g = Some g' →
    same_shape (λ c c', target_vertex c' = target_vertex c ∧ mesh c' = mesh c ∧
                        (active c = true → active c' = true)) g g'.
Proof.
  induction n as [|n IH]; intros g g'; simpl.
  - intros [= <-]. by apply same_shape_refl.
  - destruct (step_connections g) as [g1|] eqn:H1; simpl; [|done].
    intros H2. apply step_connections_shape in H1. apply IH in H2.
    eapply same_shape_trans; [| exact H1 | exact H2].
    intros c c1 c2 Hv (T & M & A).
    destruct (moved_same c c1 (or_introl Hv)) as (T1 & M1 & A1 & _).
    repeat split; try congruence. auto.
Qed.

(** X1. Any number of ticks leaves the topology as it is: the vertices,
    their positions, and the target and the mesh of every edge. A tick
    writes [active] and [elapsed] fields only. *)
Theorem ticks_keep_topology (n : nat) (g g' : graph) :
  ticks n g = Some g' →
  length g' = length g ∧
  position <$> g' = position <$> g ∧
  (λ v, target_vertex <$> connections v) <$> g'
    = (λ v, target_vertex <$> connections v) <$> g ∧
  (λ v, mesh <$> connections v) <$> g' = (λ v, mesh <$> connections v) <$> g.
Proof.
  intros H. apply ticks_shape in H.
  split; [symmetry; by eapply Forall2_length|].
  destruct (same_shape_fmap target_vertex _ g g' (λ c c' H, proj1 H) H) as [Hp Ht].
  destruct (same_shape_fmap mesh _ g g' (λ c c' H, proj1 (proj2 H)) H) as [_ Hm].
  done.
Qed.

(** ** Graphs at rest, and the budget of a scan *)

Lemma quiet_edge (g : graph) (i k : nat) (v : graph_vertex) (c : connection) :
  quiet g = true → g !! i = Some v → connections v !! k = Some c →
  negb (active c) || completed (elapsed c) = true.
Proof.
  intros Hq Hv Hc. unfold quiet in Hq. rewrite forallb_forall in Hq.
  specialize (Hq v). rewrite forallb_forall in Hq. apply Hq.
  - apply list_elem_of_In. by eapply list_elem_of_lookup_2.
  - apply list_elem_of_In. by eapply list_elem_of_lookup_2.
Qed.

Lemma step_from_quiet (g : graph) (i : nat) (v : graph_vertex) (ks : list nat) :
  quiet g = true → g !! i = Some v →
  (∀ k, k ∈ ks → (k < length (connections v))%nat) →
  step_from i ks g = Some g.
Proof.
  intros Hq Hv. induction ks as [|k ks IH]; intros Hks; [done|].
  assert (Hk : (k < length (connections v))%nat) by (apply Hks; by left).
  destruct (lookup_lt_is_Some_2 _ _ Hk) as [c Hc].
  cbn [step_from]. unfold step_connection at 1. rewrite Hv. simpl. rewrite Hc. simpl.
  rewrite (quiet_edge g i k v c Hq Hv Hc). simpl.
  apply IH. intros k' Hk'. apply Hks. by right.
Qed.

Lemma step_vertices_quiet (g : graph) (idx : list nat) :
  quiet g = true → (∀ i, i ∈ idx → (i < length g)%nat) →
  step_vertices idx g = Some g.
Proof.
  intros Hq. induction idx as [|i idx IH]; intros Hidx; [done|].
  assert (Hi : (i < length g)%nat) by (apply Hidx; by left).
  destruct (lookup_lt_is_Some_2 _ _ Hi) as [v Hv].
  cbn [step_vertices]. unfold step_vertex at 1. rewrite Hv. simpl.
  rewrite (step_from_quiet g i v _ Hq Hv).
  - simpl. apply IH. intros i' Hi'. apply Hidx. by right.
  - intros k Hk. apply elem_of_seq in Hk. lia.
Qed.

Lemma ticks_quiet (g : graph) (n : nat) :
  quiet g = true → ticks n g = Some g.
Proof.
  intros Hq. induction n as [|n IH]; [done|].
  cbn [ticks]. unfold step_connections. rewrite step_vertices_quiet; [done | done |].
  intros i Hi. apply elem_of_seq in Hi. lia.
Qed.

Lemma switched_grows (l l' : list connection) :
  grows l l' → (switched l l' + inactive_count l' = inactive_count l)%nat.
Proof.
  induction 1 as [|c c' l l' Hc _ IH]; [done|]. simpl.
  destruct (active c) eqn:Ha; simpl.
  - rewrite (Hc eq_refl). simpl. done.
  - destruct (active c'); simpl; lia.
Qed.

Lemma inactive_after_scan (l : list connection) :
  ∀ a : Z, 0 ≤ a < 3 →
    (inactive_count (activate_loop a l) + Nat.min (Z.to_nat (3 - a)) (inactive_count l)
     = inactive_count l)%nat.
Proof.
  induction l as [|c l IH]; intros a Ha; simpl; [lia|].
  destruct (active c) eqn:Hact; simpl.
  - rewrite Hact. simpl. by apply IH.
  - destruct (a + 1 =? 3) eqn:H3; simpl.
    + apply Z.eqb_eq in H3. replace (Z.to_nat (3 - a)) with 1%nat by lia. lia.
    + apply Z.eqb_neq in H3. specialize (IH (a + 1) ltac:(lia)).
      replace (Z.to_nat (3 - a)) with (S (Z.to_nat (3 - (a + 1)))) by lia.
      simpl. lia.
Qed.

Lemma activate_loop_grows (l : list connection) (a : Z) :
  grows l (activate_loop a l).
Proof.
  revert a. induction l as [|c l IH]; intros a; simpl; [constructor|].
  destruct (active c) eqn:Hact; simpl.
  - constructor; [done | apply IH].
  - destruct (a + 1 =? 3).
    + constructor; [done|]. apply Forall_Forall2_diag, Forall_true. done.
    + constructor; [done | apply IH].
Qed.

Lemma grows_trans (l1 l2 l3 : list connection) : grows l1 l2 → grows l2 l3 → grows l1 l3.
Proof.
  intros H1 H2. eapply Forall2_trans; [| exact H1 | exact H2].
  simpl. auto.
Qed.

(** X2. The budget of 3 belongs to each scan: one scan leaves all inactive
    edges but 3 inactive, two scans of the same connections, as two
    completing edges with the same target cause them, switch on up to 6,
    and a scan of connections that are all active changes nothing. *)
Theorem scan_budget_is_per_scan (l : list connection) :
  (inactive_count (activate_loop 0 l) = inactive_count l - 3)%nat ∧
  switched l (activate_loop 0 (activate_loop 0 l)) = Nat.min 6 (inactive_count l) ∧
  (inactive_count l = 0%nat → activate_loop 0 l = l).
Proof.
  pose proof (inactive_after_scan l 0 ltac:(lia)) as H1.
  pose proof (inactive_after_scan (activate_loop 0 l) 0 ltac:(lia)) as H2.
  change (Z.to_nat (3 - 0)) with 3%nat in *.
  pose proof (switched_grows l (activate_loop 0 (activate_loop 0 l))
                (grows_trans _ _ _ (activate_loop_grows l 0)
                   (activate_loop_grows _ 0))) as H3.
  split; [lia|]. split; [lia|].
  intros Hz. apply list_eq. intros j.
  destruct (l !! j) as [c|] eqn:Hc.
  - rewrite (activate_loop_lookup0 l j c Hc).
    destruct (active c) eqn:Hact; [done|]. exfalso.
    clear -Hz Hc Hact. revert j Hc. induction l as [|c0 l IH]; intros j Hc; [done|].
    simpl in Hz. destruct j; simpl in Hc.
    + injection Hc as ->. rewrite Hact in Hz. done.
    + apply (IH ltac:(destruct (active c0); simpl in Hz; lia) j Hc).
  - apply lookup_ge_None in Hc. apply lookup_ge_None.
    by rewrite activate_loop_length.
Qed.

(** ** What switches an edge on *)

Lemma edge_at_insert (g : graph) (i i' k' : nat) (v : graph_vertex)
    (cs : list connection) :
  g !! i = Some v →
  edge_at (<[i := set_connections v cs]> g) i' k'
    = if decide (i' = i) then cs !! k' else edge_at g i' k'.
Proof.
  intros Hv. unfold edge_at. destruct (decide (i' = i)) as [-> | Hne].
  - rewrite list_lookup_insert_eq by (by eapply lookup_lt_Some). done.
  - by rewrite list_lookup_insert_ne.
Qed.

Lemma edge_at_rel (R : nat → nat → connection → connection → Prop)
    (g g' : graph) (i k : nat) :
  graph_rel R g g' →
  match edge_at g i k, edge_at g' i k with
  | Some c, Some c' => R i k c c'
  | None, None => True
  | _, _ => False
  end.
Proof.
  intros [Hlen H]. unfold edge_at.
  destruct (g !! i) as [v|] eqn:Hv; simpl.
  - destruct (H i v Hv) as (v' & Hv' & _ & Hn & He). rewrite Hv'. simpl.
    destruct (connections v !! k) as [c|] eqn:Hc.
    + destruct (He k c Hc) as (c' & -> & Hr). done.
    + apply lookup_ge_None in Hc. rewrite <- Hn in Hc.
      apply lookup_ge_None in Hc. by rewrite Hc.
  - apply lookup_ge_None in Hv. rewrite <- Hlen in Hv.
    apply lookup_ge_None in Hv. by rewrite Hv.
Qed.

Lemma moved_kept (c c' : connection) : moved c c' → kept c c'.
Proof.
  intros H. destruct (moved_same c c' H) as (T & _ & _ & E).
  split; [done|]. intros Hc. destruct E as [E | [E _]]; [done | congruence].
Qed.

Lemma kept_trans (a b c : connection) : kept a b → kept b c → kept a c.
Proof.
  intros [T1 E1] [T2 E2]. split; [congruence|].
  intros Ha. rewrite E2; [by apply E1|]. by rewrite E1.
Qed.

Lemma step_connection_kept (i k : nat) (g g' : graph) :
  step_connection i k g = Some g' → graph_rel (λ _ _, kept) g g'.
Proof.
  intros H. apply step_connection_rel in H.
  eapply graph_rel_mono; [exact H|].
  intros i' k' v c c' _ _ [[_ Hr] | [_ Hr]]; apply moved_kept;
    [by left | by right].
Qed.

(** The loop body switches on edges of the target of the edge it visits
    only, and only when that edge crosses [1.0]. *)
Lemma step_connection_cause (i k : nat) (g g' : graph) (i' k' : nat)
    (c1 c2 : connection) :
  step_connection i k g = Some g' →
  edge_at g i' k' = Some c1 → edge_at g' i' k' = Some c2 →
  active c1 = false → active c2 = true →
  ∃ c c', edge_at g i k = Some c ∧ edge_at g' i k = Some c' ∧
          target_vertex c = Z.of_nat i' ∧
          completed (elapsed c) = false ∧ completed (elapsed c') = true.
Proof.
  unfold step_connection.
  destruct (g !! i) as [vertex|] eqn:Hi; simpl; [|done].
  destruct (connections vertex !! k) as [conn|] eqn:Hk; simpl; [|done].
  destruct (negb (active conn) || completed (elapsed conn)) eqn:Hskip.
  { intros [= <-] H1 H2. congruence. }
  apply orb_false_iff in Hskip as [Hact Hbelow].
  apply negb_false_iff in Hact.
  set (conn' := set_elapsed conn (advance (elapsed conn))).
  set (cs1 := <[k := conn']> (connections vertex)).
  set (g1 := <[i := set_connections vertex cs1]> g).
  assert (Hik : edge_at g i k = Some conn) by (unfold edge_at; by rewrite Hi).
  assert (Hcs1 : ∀ j, cs1 !! j = if decide (j = k) then Some conn'
                                 else connections vertex !! j).
  { intros j. subst cs1. destruct (decide (j = k)) as [-> | Hne].
    - apply list_lookup_insert_eq. by eapply lookup_lt_Some.
    - by apply list_lookup_insert_ne. }
  assert (Hg1 : ∀ a b, edge_at g1 a b =
                  if decide (a = i ∧ b = k) then Some conn' else edge_at g a b).
  { intros a b. subst g1. rewrite (edge_at_insert g i a b vertex cs1 Hi).
    destruct (decide (a = i)) as [-> | Ha].
    - rewrite Hcs1. destruct (decide (b = k)) as [-> | Hb].
      + by rewrite decide_True.
      + rewrite decide_False by tauto. unfold edge_at. by rewrite Hi.
    - by rewrite decide_False by tauto. }
  assert (Hsame : ∀ a b x y, edge_at g a b = Some x → edge_at g1 a b = Some y →
                             active y = active x).
  { intros a b x y Hx. rewrite Hg1.
    destruct (decide (a = i ∧ b = k)) as [[-> ->] | _]; [|congruence].
    intros [= <-]. simpl. congruence. }
  destruct (completed (advance (elapsed conn))) eqn:Hdone.
  - destruct (target_vertex conn <? 0) eqn:Hneg; [done|].
    apply Z.ltb_ge in Hneg.
    set (t := Z.to_nat (target_vertex conn)).
    destruct (g1 !! t) as [target|] eqn:Ht; simpl; [|done].
    intros [= <-] H1 H2 Hoff Hon.
    rewrite (edge_at_insert g1 t i' k' target _ Ht) in H2.
    destruct (decide (i' = t)) as [-> | Hne].
    + assert (∃ c', edge_at
                (<[t := set_connections target
                          (activate_loop 0 (connections target))]> g1) i k = Some c'
              ∧ elapsed c' = advance (elapsed conn)) as (c' & Hc' & He').
      { rewrite (edge_at_insert g1 t i k target _ Ht).
        assert (H1ik : edge_at g1 i k = Some conn')
          by (rewrite Hg1; by rewrite decide_True).
        destruct (decide (i = t)) as [-> | Hit].
        - unfold edge_at in H1ik. rewrite Ht in H1ik. simpl in H1ik.
          destruct (activate_loop_later _ _ _ H1ik) as (c' & Hc' & Hl).
          exists c'. split; [done|]. by destruct Hl as [-> | [_ ->]].
        - by exists conn'. }
      exists conn, c'. split; [done|]. split; [done|].
      split; [subst t; lia|]. split; [done|]. by rewrite He'.
    + rewrite (Hsame i' k' c1 c2 H1 H2) in Hon. congruence.
  - intros [= <-] H1 H2 Hoff Hon.
    rewrite (Hsame i' k' c1 c2 H1 H2) in Hon. congruence.
Qed.

Lemma traced_refl (Pos : nat → nat → Prop) (g : graph) : traced Pos g g.
Proof.
  split.
  - apply graph_rel_refl. intros i0 k0 a. by split.
  - intros i k c c' Hc Hc' Hoff Hon. congruence.
Qed.

Lemma caused_at_kept (Pos : nat → nat → Prop) (g g1 g2 : graph) (i : nat) :
  caused_at Pos g g1 i → graph_rel (λ _ _, kept) g1 g2 → caused_at Pos g g2 i.
Proof.
  intros (i0 & k0 & c0 & c0' & Hp & H0 & H0' & Ht & Hb & Hd) Hrel.
  pose proof (edge_at_rel _ g1 g2 i0 k0 Hrel) as R. rewrite H0' in R.
  destruct (edge_at g2 i0 k0) as [c0''|] eqn:H0''; [|done].
  exists i0, k0, c0, c0''. repeat split; try done.
  destruct R as [_ E]. by rewrite E.
Qed.

Lemma traced_step (Pos : nat → nat → Prop) (g g1 g2 : graph) (i k : nat) :
  Pos i k → traced Pos g g1 → step_connection i k g1 = Some g2 →
  traced Pos g g2.
Proof.
  intros Hpos [Hrel Hcause] Hstep.
  pose proof (step_connection_kept i k g1 g2 Hstep) as Hrel2.
  assert (Hrel' : graph_rel (λ _ _, kept) g g2).
  { eapply graph_rel_trans; [exact Hrel | exact Hrel2 |].
    intros i0 k0 a b c. apply kept_trans. }
  split; [done|].
  intros i' k' c c2 Hc Hc2 Hoff Hon.
  pose proof (edge_at_rel _ g g1 i' k' Hrel) as R1. rewrite Hc in R1.
  destruct (edge_at g1 i' k') as [c1|] eqn:Hc1; [|done].
  destruct (active c1) eqn:Hact1.
  - eapply caused_at_kept; [|exact Hrel2]. by eapply Hcause.
  - destruct (step_connection_cause i k g1 g2 i' k' c1 c2 Hstep Hc1 Hc2 Hact1 Hon)
      as (x & x' & Hx & Hx' & Ht & Hb & Hd).
    pose proof (edge_at_rel _ g g1 i k Hrel) as R0. rewrite Hx in R0.
    destruct (edge_at g i k) as [x0|] eqn:Hx0; [|done].
    destruct R0 as [T E].
    exists i, k, x0, x'. repeat split; try done; [congruence|].
    destruct (completed (elapsed x0)) eqn:Hx0c; [|done].
    rewrite E in Hb by done. congruence.
Qed.

Lemma step_from_traced (Pos : nat → nat → Prop) (g : graph) (i : nat)
    (ks : list nat) :
  (∀ k, k ∈ ks → Pos i k) →
  ∀ g1 g2, traced Pos g g1 → step_from i ks g1 = Some g2 → traced Pos g g2.
Proof.
  induction ks as [|k ks IH]; intros Hks g1 g2 Ht; simpl.
  - by intros [= <-].
  - destruct (step_connection i k g1) as [g1'|] eqn:H1; simpl; [|done].
    apply IH; [intros k' Hk'; apply Hks; by right|].
    eapply traced_step; [apply Hks; by left | exact Ht | exact H1].
Qed.

Lemma step_vertices_traced (Pos : nat → nat → Prop) (g : graph)
    (idx : list nat) :
  (∀ i k, i ∈ idx → Pos i k) →
  ∀ g1 g2, traced Pos g g1 → step_vertices idx g1 = Some g2 → traced Pos g g2.
Proof.
  induction idx as [|i idx IH]; intros Hidx g1 g2 Ht; simpl.
  - by intros [= <-].
  - destruct (step_vertex i g1) as [g1'|] eqn:H1; simpl; [|done].
    apply IH; [intros i' k' Hi'; apply Hidx; by right|].
    unfold step_vertex in H1. destruct (g1 !! i); simpl in H1; [|done].
    eapply step_from_traced; [| exact Ht | exact H1].
    intros k' _. apply Hidx. by left.
Qed.

(** What a whole tick does to the [elapsed] of an edge and to its cause. *)
Lemma tick_elapsed (g g' : graph) (i k : nat) (c c' : connection) :
  step_connections g = Some g' →
  edge_at g i k = Some c → edge_at g' i k = Some c' →
  (active c = true → active c' = true) ∧
  (elapsed c' = elapsed c ∨
   (completed (elapsed c) = false ∧ elapsed c' = advance (elapsed c) ∧
    active c' = true)).
Proof.
  intros Htick Hc Hc'.
  pose proof (edge_at_rel _ g g' i k (step_connections_rel g g' Htick)) as Hvis.
  rewrite Hc, Hc' in Hvis.
  destruct (moved_same c c' (or_introl Hvis)) as (_ & _ & A & _).
  split; [exact A|].
  destruct Hvis as (c1 & Hl1 & Hl2).
  assert (E1 : elapsed c1 = elapsed c) by (by destruct Hl1 as [-> | [_ ->]]).
  assert (E2 : elapsed c' = elapsed (advanced c1))
    by (by destruct Hl2 as [-> | [_ ->]]).
  unfold advanced in Hl2, E2.
  destruct (active c1) eqn:Hact1, (completed (elapsed c1)) eqn:Hcomp;
    simpl in Hl2, E2; try (left; congruence).
  right. rewrite <- E1. split; [done|]. split; [done|].
  destruct Hl2 as [-> | [_ ->]]; simpl; done.
Qed.

(** X3. An edge that a tick switches on was switched on by an edge that
    targets its vertex and crossed [1.0] in that tick: nothing becomes
    active by itself. *)
Theorem activation_has_a_cause (g g' : graph) (i k : nat) (c c' : connection) :
  step_connections g = Some g' →
  edge_at g i k = Some c → edge_at g' i k = Some c' →
  active c = false → active c' = true →
  ∃ i0 k0 c0 c0',
    edge_at g i0 k0 = Some c0 ∧ edge_at g' i0 k0 = Some c0' ∧
    target_vertex c0 = Z.of_nat i ∧
    active c0' = true ∧
    completed (elapsed c0) = false ∧ completed (elapsed c0') = true ∧
    elapsed c0' = advance (elapsed c0).
Proof.
  intros Htick Hc Hc' Hoff Hon.
  assert (HP : traced (λ _ _, True) g g').
  { eapply step_vertices_traced; [| apply traced_refl | exact Htick]. done. }
  destruct HP as [_ Hcause].
  destruct (Hcause i k c c' Hc Hc' Hoff Hon)
    as (i0 & k0 & c0 & c0' & _ & H0 & H0' & Ht & Hb & Hd).
  exists i0, k0, c0, c0'. split; [done|]. split; [done|]. split; [done|].
  destruct (tick_elapsed g g' i0 k0 c0 c0' Htick H0 H0') as [_ [E | (_ & E & A)]].
  - rewrite E in Hd. congruence.
  - done.
Qed.

(** ** The order of the loop *)

Lemma step_from_app (i : nat) (ks1 ks2 : list nat) :
  ∀ g, step_from i (ks1 ++ ks2) g = (g1 ← step_from i ks1 g; step_from i ks2 g1).
Proof.
  induction ks1 as [|k ks1 IH]; intros g; [done|].
  simpl. destruct (step_connection i k g) as [g1|]; [|done]. simpl. apply IH.
Qed.

Lemma step_vertices_app (l1 l2 : list nat) :
  ∀ g, step_vertices (l1 ++ l2) g = (g1 ← step_vertices l1 g; step_vertices l2 g1).
Proof.
  induction l1 as [|i l1 IH]; intros g; [done|].
  simpl. destruct (step_vertex i g) as [g1|]; [|done]. simpl. apply IH.
Qed.

Lemma seq_split (n i : nat) :
  (i < n)%nat → seq 0 n = seq 0 i ++ i :: seq (S i) (n - S i).
Proof.
  intros Hi. replace n with (i + S (n - S i))%nat at 1 by lia.
  by rewrite seq_app.
Qed.

(** A tick, cut at the visit of the edge [(i, k)]. *)
Lemma step_connections_split (g g' : graph) (i k : nat) (v : graph_vertex) :
  step_connections g = Some g' →
  g !! i = Some v → (k < length (connections v))%nat →
  ∃ ga g1 g2 gb,
    step_vertices (seq 0 i) g = Some ga ∧
    step_from i (seq 0 k) ga = Some g1 ∧
    step_connection i k g1 = Some g2 ∧
    step_from i (seq (S k) (length (connections v) - S k)) g2 = Some gb ∧
    step_vertices (seq (S i) (length g - S i)) gb = Some g'.
Proof.
  intros Htick Hv Hk. unfold step_connections in Htick.
  rewrite (seq_split (length g) i) in Htick by (by eapply lookup_lt_Some).
  rewrite step_vertices_app in Htick.
  destruct (step_vertices (seq 0 i) g) as [ga|] eqn:Ha; simpl in Htick; [|done].
  destruct (step_vertex i ga) as [gb|] eqn:Hb; simpl in Htick; [|done].
  pose proof (step_vertices_rel _ (NoDup_seq 0 i) g ga Ha) as Hrel.
  destruct (proj2 Hrel i v Hv) as (va & Hva & _ & Hn & _).
  unfold step_vertex in Hb. rewrite Hva in Hb. simpl in Hb.
  rewrite Hn, (seq_split (length (connections v)) k) in Hb by done.
  rewrite step_from_app in Hb.
  destruct (step_from i (seq 0 k) ga) as [g1|] eqn:H1; simpl in Hb; [|done].
  destruct (step_connection i k g1) as [g2|] eqn:H2; simpl in Hb; [|done].
  by exists ga, g1, g2, gb.
Qed.

Lemma rel_on_kept (S : nat → nat → Prop) (g g' : graph) :
  graph_rel (rel_on S) g g' → graph_rel (λ _ _, kept) g g'.
Proof.
  intros H. eapply graph_rel_mono; [exact H|].
  intros i k v c c' _ _ [[_ Hr] | [_ Hr]]; apply moved_kept;
    [by left | by right].
Qed.

Lemma rel_on_later (S : nat → nat → Prop) (g g' : graph) (i k : nat)
    (c c' : connection) :
  graph_rel (rel_on S) g g' → ¬ S i k →
  edge_at g i k = Some c → edge_at g' i k = Some c' → later c c'.
Proof.
  intros Hrel HS Hc Hc'.
  pose proof (edge_at_rel _ g g' i k Hrel) as R. rewrite Hc, Hc' in R.
  by destruct R as [[HS' _] | [_ Hl]].
Qed.

Lemma edge_at_Some (R : nat → nat → connection → connection → Prop)
    (g g' : graph) (i k : nat) (c : connection) :
  graph_rel R g g' → edge_at g i k = Some c →
  ∃ c', edge_at g' i k = Some c' ∧ R i k c c'.
Proof.
  intros Hrel Hc. pose proof (edge_at_rel _ g g' i k Hrel) as H.
  rewrite Hc in H. destruct (edge_at g' i k) as [c'|]; [|done]. by exists c'.
Qed.

(** X4. An edge that is inactive when a tick begins is advanced in that
    tick only if it is switched on before the loop visits it: by an edge
    that is stored before it, targets its vertex and crosses [1.0] in that
    tick. Switched on by an edge that is stored after it, it keeps its
    [elapsed] until the next tick. *)
Theorem advanced_only_after_earlier_cause (g g' : graph) (i k : nat)
    (c c' : connection) :
  step_connections g = Some g' →
  edge_at g i k = Some c → edge_at g' i k = Some c' →
  active c = false →
  elapsed c' = elapsed c ∨
  (elapsed c' = advance (elapsed c) ∧ active c' = true ∧
   ∃ i0 k0 c0 c0',
     before i k i0 k0 ∧
     edge_at g i0 k0 = Some c0 ∧ edge_at g' i0 k0 = Some c0' ∧
     target_vertex c0 = Z.of_nat i ∧
     completed (elapsed c0) = false ∧ completed (elapsed c0') = true).
Proof.
  intros Htick Hc Hc' Hoff.
  destruct (tick_elapsed g g' i k c c' Htick Hc Hc') as [_ [E | (Hb & E & Hon)]];
    [by left|].
  pose proof Hc as Hc0. unfold edge_at in Hc0.
  destruct (g !! i) as [v|] eqn:Hv; simpl in Hc0; [|done].
  destruct (step_connections_split g g' i k v Htick Hv)
    as (ga & g1 & g2 & gb & Ha & H1 & H2 & Hgb & Hg'); [by eapply lookup_lt_Some|].
  (* the part of the loop before the visit *)
  assert (Ht1 : traced (before i k) g g1).
  { eapply step_from_traced; [| | exact H1].
    - intros k0 Hk0. apply elem_of_seq in Hk0. right. split; [done | lia].
    - eapply step_vertices_traced; [| apply traced_refl | exact Ha].
      intros i0 k0 Hi0. apply elem_of_seq in Hi0. left. lia. }
  pose proof (step_vertices_rel _ (NoDup_seq 0 i) g ga Ha) as Ra.
  pose proof (step_from_rel i _ (NoDup_seq 0 k) ga g1 H1) as R1.
  pose proof (step_connection_rel i k g1 g2 H2) as R2.
  pose proof (step_from_rel i _ (NoDup_seq (S k) _) g2 gb Hgb) as Rb.
  pose proof (step_vertices_rel _ (NoDup_seq (S i) _) gb g' Hg') as R'.
  destruct (edge_at_Some _ g ga i k c Ra Hc) as (ca & Hca & _).
  destruct (edge_at_Some _ ga g1 i k ca R1 Hca) as (c1 & Hc1 & _).
  destruct (edge_at_Some _ g1 g2 i k c1 R2 Hc1) as (c2 & Hc2 & _).
  destruct (edge_at_Some _ g2 gb i k c2 Rb Hc2) as (cb & Hcb & _).
  assert (La : later c ca).
  { eapply (rel_on_later _ g ga i k); [exact Ra | | done | done].
    intros Hin. apply elem_of_seq in Hin. lia. }
  assert (L1 : later ca c1).
  { eapply (rel_on_later _ ga g1 i k); [exact R1 | | done | done].
    intros [_ Hin]. apply elem_of_seq in Hin. lia. }
  assert (Lb : later c2 cb).
  { eapply (rel_on_later _ g2 gb i k); [exact Rb | | done | done].
    intros [_ Hin]. apply elem_of_seq in Hin. lia. }
  assert (L' : later cb c').
  { eapply (rel_on_later _ gb g' i k); [exact R' | | done | done].
    intros Hin. apply elem_of_seq in Hin. lia. }
  assert (Ee : ∀ a b, later a b → elapsed b = elapsed a)
    by (by intros a b [-> | [_ ->]]).
  destruct (active c1) eqn:Hact1.
  - right. split; [done|]. split; [done|].
    destruct Ht1 as [_ Hcause].
    assert (Hk : graph_rel (λ _ _, kept) g1 g').
    { eapply graph_rel_trans; [exact (step_connection_kept i k g1 g2 H2) | |
                               intros i0 k0 a b d; apply kept_trans].
      eapply graph_rel_trans; [exact (rel_on_kept _ _ _ Rb) |
                               exact (rel_on_kept _ _ _ R') |
                               intros i0 k0 a b d; apply kept_trans]. }
    destruct (caused_at_kept _ g g1 g' i (Hcause i k c c1 Hc Hc1 Hoff Hact1) Hk)
      as (i0 & k0 & c0 & c0' & Hp & H0 & H0' & Ht & Hb0 & Hd0).
    by exists i0, k0, c0, c0'.
  - left.
    assert (g2 = g1).
    { unfold step_connection in H2. unfold edge_at in Hc1.
      destruct (g1 !! i) as [v1|]; simpl in *; [|done].
      rewrite Hc1 in H2. simpl in H2. rewrite Hact1 in H2. simpl in H2.
      congruence. }
    subst g2. assert (c2 = c1) by congruence. subst c2.
    rewrite (Ee _ _ L'), (Ee _ _ Lb), (Ee _ _ L1), (Ee _ _ La). done.
Qed.

(** ** The draw calls *)
Lemma flat_map_length_le {A B C} (f : A → list C) (f' : B → list C)
    (R : A → B → Prop) (l : list A) (l' : list B) :
  (∀ a b, R a b → (length (f a) ≤ length (f' b))%nat) →
  Forall2 R l l' →
  (length (flat_map f l) ≤ length (flat_map f' l'))%nat.
Proof.
  intros HR H. induction H as [|a b l l' Hab _ IH]; [done|].
  simpl. rewrite !length_app. specialize (HR a b Hab). lia.
Qed.

(** X5. A frame draws at least as many edges as any frame before it: an
    edge that is drawn once is drawn in every later frame. *)
Theorem drawn_edges_never_decrease (n : nat) (g g' : graph) :
  ticks n g = Some g' →
  (length (render_connections g) ≤ length (render_connections g'))%nat.
Proof.
  intros H. apply ticks_shape in H. unfold render_connections.
  eapply flat_map_length_le; [|exact H].
  intros v v' [_ He]. eapply flat_map_length_le; [|exact He].
  intros c c' (_ & _ & Ha). simpl in Ha.
  destruct (active c); [by rewrite Ha | simpl; lia].
Qed.

(** ** Ticks of any graph whose targets are vertices *)
Lemma in_range_rel (g g' : graph) :
  graph_rel (λ _ _, kept) g g' → in_range g → in_range g'.
Proof.
  intros Hrel Hin i k c' Hc'.
  pose proof (edge_at_rel _ g g' i k Hrel) as R. rewrite Hc' in R.
  destruct (edge_at g i k) as [c|] eqn:Hc; [|done].
  destruct R as [T _]. rewrite T, (proj1 Hrel). by eapply Hin.
Qed.

Lemma step_connection_in_range (i k : nat) (g : graph)
    (v : graph_vertex) (c : connection) :
  in_range g → g !! i = Some v → connections v !! k = Some c →
  ∃ g', step_connection i k g = Some g'.
Proof.
  intros Hok Hv Hc. unfold step_connection. rewrite Hv. simpl.
  rewrite Hc. simpl.
  destruct (negb (active c) || completed (elapsed c)); [by eexists|].
  destruct (completed (advance (elapsed c))); [|by eexists].
  destruct (Hok i k c) as (Hlo & Hhi); [unfold edge_at; by rewrite Hv|].
  replace (target_vertex c <? 0) with false by (symmetry; apply Z.ltb_ge; lia).
  set (g1 := <[i := _]> g).
  assert (Hlt : (Z.to_nat (target_vertex c) < length g1)%nat)
    by (subst g1; rewrite length_insert; lia).
  destruct (lookup_lt_is_Some_2 g1 _ Hlt) as [target Htarget].
  rewrite Htarget. simpl. by eexists.
Qed.

Lemma step_from_in_range (i : nat) (ks : list nat) :
  ∀ (g : graph) (v : graph_vertex),
    in_range g → g !! i = Some v →
    (∀ k, k ∈ ks → (k < length (connections v))%nat) →
    ∃ g', step_from i ks g = Some g' ∧ graph_rel (λ _ _, kept) g g'.
Proof.
  induction ks as [|k ks IH]; intros g v Hok Hv Hks; simpl.
  { exists g. split; [done|]. apply graph_rel_refl. by split. }
  assert (Hk : (k < length (connections v))%nat) by (apply Hks; by left).
  destruct (lookup_lt_is_Some_2 _ _ Hk) as [c Hc].
  destruct (step_connection_in_range i k g v c Hok Hv Hc) as [g1 H1].
  rewrite H1. simpl.
  pose proof (step_connection_kept i k g g1 H1) as Hrel.
  destruct (proj2 Hrel i v Hv) as (v1 & Hv1 & _ & Hn & _).
  destruct (IH g1 v1) as (g' & Hg' & Hrel'); [by eapply in_range_rel | done | |].
  - intros k' Hk'. rewrite Hn. apply Hks. by right.
  - exists g'. split; [done|].
    eapply graph_rel_trans; [exact Hrel | exact Hrel' |].
    intros i0 k0 a b d. apply kept_trans.
Qed.

Lemma step_vertices_in_range (idx : list nat) :
  ∀ g : graph,
    in_range g → (∀ i, i ∈ idx → (i < length g)%nat) →
    ∃ g', step_vertices idx g = Some g' ∧ graph_rel (λ _ _, kept) g g'.
Proof.
  induction idx as [|i idx IH]; intros g Hok Hidx; simpl.
  { exists g. split; [done|]. apply graph_rel_refl. by split. }
  assert (Hi : (i < length g)%nat) by (apply Hidx; by left).
  destruct (lookup_lt_is_Some_2 g i Hi) as [v Hv].
  destruct (step_from_in_range i (seq 0 (length (connections v))) g v Hok Hv)
    as (g1 & H1 & Hrel).
  { intros k Hk. apply elem_of_seq in Hk. lia. }
  unfold step_vertex at 1. rewrite Hv. simpl. rewrite H1. simpl.
  destruct (IH g1) as (g' & Hg' & Hrel'); [by eapply in_range_rel | |].
  - intros i' Hi'. rewrite (proj1 Hrel). apply Hidx. by right.
  - exists g'. split; [done|].
    eapply graph_rel_trans; [exact Hrel | exact Hrel' |].
    intros i0 k0 a b d. apply kept_trans.
Qed.

(** X6. Any graph whose edges all target vertices of the graph can be
    ticked for ever, whatever its [elapsed] values and flags are: the only
    index a tick computes is a target, and targets do not change. *)
Theorem ticks_total_in_range (n : nat) (g : graph) :
  in_range g → ∃ g', ticks n g = Some g' ∧ in_range g'.
Proof.
  revert g. induction n as [|n IH]; intros g Hok; [by exists g|].
  destruct (step_vertices_in_range (seq 0 (length g)) g Hok) as (g1 & H1 & Hrel).
  { intros i Hi. apply elem_of_seq in Hi. lia. }
  destruct (IH g1) as (g' & Hg' & Hok'); [by eapply in_range_rel|].
  exists g'. split; [|done].
  cbn [ticks]. unfold step_connections. rewrite H1. done.
Qed.

Lemma overruns_later (S : nat → nat → Prop) (g g1 : graph) (i k : nat) :
  graph_rel (rel_on S) g g1 → ¬ S i k → overruns g i k → overruns g1 i k.
Proof.
  intros Hrel HS (c & Hc & Ha & Hb & Hd & Ht).
  pose proof (edge_at_rel _ g g1 i k Hrel) as R. rewrite Hc in R.
  destruct (edge_at g1 i k) as [c1|] eqn:Hc1; [|done].
  destruct R as [[HS' _] | [_ Hl]]; [done|].
  exists c1. split; [done|]. rewrite (proj1 Hrel).
  destruct Hl as [-> | [Hoff ->]]; [done | congruence].
Qed.

Lemma step_connection_overruns (i k : nat) (g : graph) :
  overruns g i k → step_connection i k g = None.
Proof.
  intros (c & Hc & Ha & Hb & Hd & Ht). unfold edge_at in Hc.
  unfold step_connection.
  destruct (g !! i) as [v|] eqn:Hv; simpl in *; [|done].
  rewrite Hc. simpl. rewrite Ha, Hb. simpl. rewrite Hd.
  destruct (target_vertex c <? 0) eqn:Hneg; [done|].
  apply Z.ltb_ge in Hneg.
  rewrite (proj2 (lookup_ge_None _ _)); [done|].
  rewrite length_insert. lia.
Qed.

Lemma step_from_overruns (i k : nat) (ks : list nat) :
  ∀ g, k ∈ ks → overruns g i k → step_from i ks g = None.
Proof.
  induction ks as [|k0 ks IH]; intros g Hin Hbad; [by apply elem_of_nil in Hin|].
  simpl. destruct (step_connection i k0 g) as [g1|] eqn:H1; [|done]. simpl.
  destruct (decide (k0 = k)) as [-> | Hne].
  { rewrite step_connection_overruns in H1; done. }
  apply IH.
  - apply elem_of_cons in Hin as [-> | Hin]; done.
  - eapply overruns_later; [by apply step_connection_rel | | done].
    simpl. intros [_ ->]. done.
Qed.

Lemma step_vertices_overruns (i k : nat) (idx : list nat) :
  ∀ g, i ∈ idx → overruns g i k → step_vertices idx g = None.
Proof.
  induction idx as [|i0 idx IH]; intros g Hin Hbad; [by apply elem_of_nil in Hin|].
  simpl. destruct (step_vertex i0 g) as [g1|] eqn:H1; [|done]. simpl.
  destruct (decide (i0 = i)) as [-> | Hne].
  { unfold step_vertex in H1. destruct Hbad as (c & Hc & Hrest).
    pose proof Hc as Hc0. unfold edge_at in Hc0.
    destruct (g !! i) as [v|] eqn:Hv; simpl in *; [|done].
    rewrite (step_from_overruns i k) in H1; [done | | by exists c].
    apply elem_of_seq. apply lookup_lt_Some in Hc0. lia. }
  apply IH.
  - apply elem_of_cons in Hin as [-> | Hin]; done.
  - eapply overruns_later; [by apply step_vertex_rel | | done].
    simpl. intros ->. done.
Qed.

(** X7. A tick indexes [graph_] out of range as soon as an active edge
    crosses [1.0] with a target that is not a vertex, wherever the edge is
    in the graph. *)
Theorem out_of_range_target_is_hit (g : graph) (i k : nat) (c : connection) :
  edge_at g i k = Some c →
  active c = true →
  completed (elapsed c) = false →
  completed (advance (elapsed c)) = true →
  ¬ (0 ≤ target_vertex c < Z.of_nat (length g)) →
  step_connections g = None.
Proof.
  intros Hc Ha Hb Hd Ht. unfold step_connections.
  apply (step_vertices_overruns i k); [|by exists c].
  apply elem_of_seq. unfold edge_at in Hc.
  destruct (g !! i) as [v|] eqn:Hv; simpl in Hc; [|done].
  apply lookup_lt_Some in Hv. lia.
Qed.

(** ** The life of an active edge *)

Lemma age_in_orbit (e : float) : in_orbit e = true → in_orbit (age e) = true.
Proof.
  intros He. unfold age. destruct (completed e) eqn:Hc; [done|].
  by apply advance_in_orbit.
Qed.

Lemma age_51 (e : float) : in_orbit e = true → Nat.iter 51 age e = overshoot.
Proof.
  intros He.
  assert (Hall : forallb (λ y, Ieee.Qeqb (Nat.iter 51 age y) overshoot) orbit = true)
    by (by vm_compute).
  apply Qeqb_eq. exact (orbit_forall _ e Hall He).
Qed.

Lemma age_overshoot (n : nat) : Nat.iter n age overshoot = overshoot.
Proof.
  induction n as [|n IH]; [done|]. simpl. rewrite IH. by vm_compute.
Qed.

Lemma age_from_51 (e : float) (n : nat) :
  in_orbit e = true → (51 ≤ n)%nat → Nat.iter n age e = overshoot.
Proof.
  intros He Hn. replace n with ((n - 51) + 51)%nat by lia.
  rewrite Nat.iter_add, age_51 by done. apply age_overshoot.
Qed.

Lemma tick_active_edge (g : graph) (i k : nat) (c : connection) :
  graph_ok g → edge_at g i k = Some c → active c = true →
  ∃ g' c', step_connections g = Some g' ∧ graph_ok g' ∧
           edge_at g' i k = Some c' ∧ active c' = true ∧
           elapsed c' = age (elapsed c).
Proof.
  intros Hok Hc Ha.
  destruct (step_connections_ok g Hok) as (g' & Hg' & Hok' & Hrel).
  pose proof (edge_at_rel _ g g' i k Hrel) as R. rewrite Hc in R.
  destruct (edge_at g' i k) as [c'|] eqn:Hc'; [|done].
  exists g', c'. split; [done|]. split; [done|]. split; [done|].
  assert (Ho : in_orbit (elapsed c) = true).
  { unfold edge_at in Hc. destruct (g !! i) as [v|] eqn:Hv; simpl in Hc; [|done].
    by destruct (Hok i v k c Hv Hc) as (_ & Ho & _). }
  destruct (visited_tick_rel c c' Ho R) as (_ & _ & A & _ & _ & Hadv & Hdone).
  split; [by apply A|]. unfold age.
  destruct (completed (elapsed c)) eqn:Hcomp; [by apply Hdone | by apply Hadv].
Qed.

Lemma ticks_active_edge (n : nat) (i k : nat) :
  ∀ (g : graph) (c : connection),
    graph_ok g → edge_at g i k = Some c → active c = true →
    ∃ g' c', ticks n g = Some g' ∧ graph_ok g' ∧
             edge_at g' i k = Some c' ∧ active c' = true ∧
             elapsed c' = Nat.iter n age (elapsed c).
Proof.
  induction n as [|n IH]; intros g c Hok Hc Ha.
  - exists g, c. done.
  - destruct (tick_active_edge g i k c Hok Hc Ha)
      as (g1 & c1 & H1 & Hok1 & Hc1 & Ha1 & He1).
    destruct (IH g1 c1 Hok1 Hc1 Ha1) as (g' & c' & Hg' & Hok' & Hc' & Ha' & He').
    exists g', c'. split; [cbn [ticks]; by rewrite H1|].
    split; [done|]. split; [done|]. split; [done|].
    rewrite He', He1. symmetry. apply Nat.iter_succ_r.
Qed.

Lemma ticks_from_ok (m : nat) (g0 g : graph) :
  graph_ok g0 → ticks m g0 = Some g → graph_ok g.
Proof.
  intros Hok Hg. destruct (ticks_ok m g0 Hok) as (g' & Hg' & Hok' & _).
  assert (g' = g) by congruence. by subst g'.
Qed.

Lemma edge_at_ok (g : graph) (i k : nat) (c : connection) :
  graph_ok g → edge_at g i k = Some c → edge_ok (length g) c.
Proof.
  intros Hok Hc. unfold edge_at in Hc.
  destruct (g !! i) as [v|] eqn:Hv; simpl in Hc; [|done]. by eapply Hok.
Qed.

(** ** The cities *)
Lemma doubling_in_orbit (e : float) :
  in_orbit e = true →
  (fmul e 2 == 2 * e)%Q ∧
  (¬ (e == 0)%Q → (5368709 # 268435456 <= e)%Q).
Proof.
  intros He.
  assert (Hall : forallb (λ y, Qeq_bool (fmul y 2) (2 * y) &&
                               (Qeq_bool y 0 || Qle_bool (5368709 # 268435456) y))
                         orbit = true) by (by vm_compute).
  pose proof (orbit_forall _ e Hall He) as H. cbv beta in H.
  apply andb_prop in H as [H1 H2]. split; [by apply Qeq_bool_iff|].
  intros Hnz. apply orb_prop in H2 as [H2 | H2].
  - destruct Hnz. exact (proj1 (Qeq_bool_iff _ _) H2).
  - exact (proj1 (Qle_bool_iff _ _) H2).
Qed.

Lemma max_elapsed_in (v : graph_vertex) (e : float) :
  max_elapsed v = Some e →
  ∃ c, c ∈ connections v ∧ elapsed c = e ∧
       ∀ x, x ∈ connections v → (elapsed x <= e)%Q.
Proof.
  unfold max_elapsed. destruct (connections v) as [|c cs]; [done|].
  intros [= <-]. destruct (max_element_spec cs c) as [Hin Hmax].
  by exists (max_element c cs).
Qed.

Lemma lit_max (v : graph_vertex) :
  lit v = true ↔ ∃ e, max_elapsed v = Some e ∧ ¬ (e == 0)%Q.
Proof.
  unfold lit. destruct (max_elapsed v) as [e|]; split.
  - intros H. exists e. split; [done|]. intros Hz.
    apply Qeq_bool_iff in Hz. by rewrite Hz in H.
  - intros (e' & [= <-] & Hnz). apply negb_true_iff.
    destruct (Qeq_bool e 0) eqn:Hz; [|done]. by apply Qeq_bool_iff in Hz.
  - done.
  - by intros (e' & ? & _).
Qed.

(** With no negative [elapsed], a vertex is lit exactly when one of its
    edges has left [0]. *)
Lemma lit_nonzero (v : graph_vertex) :
  (∀ c, c ∈ connections v → (0 <= elapsed c)%Q) →
  lit v = true ↔ ∃ c, c ∈ connections v ∧ (0 < elapsed c)%Q.
Proof.
  intros Hpos. rewrite lit_max. split.
  - intros (e & He & Hnz). destruct (max_elapsed_in v e He) as (c & Hc & <- & _).
    exists c. split; [done|]. specialize (Hpos c Hc).
    apply Qle_lteq in Hpos as [Hlt | Heq]; [done|]. destruct Hnz. by symmetry.
  - intros (c & Hc & Hlt).
    destruct (max_elapsed v) as [e|] eqn:He.
    + exists e. split; [done|]. destruct (max_elapsed_in v e He) as (_ & _ & _ & Hmax).
      specialize (Hmax c Hc). intros Hz. rewrite Hz in Hmax.
      by apply Qlt_not_le in Hlt.
    + unfold max_elapsed in He. destruct (connections v); [|done].
      by apply elem_of_nil in Hc.
Qed.

Lemma graph_ok_elem (g : graph) (v : graph_vertex) (c : connection) :
  graph_ok g → v ∈ g → c ∈ connections v → edge_ok (length g) c.
Proof.
  intros Hok Hv Hc. apply list_elem_of_lookup_1 in Hv as [i Hi].
  apply list_elem_of_lookup_1 in Hc as [k Hk]. by eapply Hok.
Qed.

Lemma lit_grows (g g' : graph) :
  graph_ok g → same_shape visited g g' →
  Forall2 (λ v v', lit v = true → lit v' = true) g g'.
Proof.
  intros Hok Hs.
  assert (Hok' : graph_ok g').
  { eapply graph_ok_rel; [by apply same_shape_graph_rel | | done].
    intros i k c c'. apply visited_ok. }
  apply Forall2_same_length_lookup_2; [by eapply Forall2_length|].
  intros i v v' Hv Hv' Hlit.
  destruct (Forall2_lookup_lr _ _ _ _ _ _ Hs Hv Hv') as [_ He].
  apply lit_nonzero.
  { intros c' Hc'. apply list_elem_of_lookup_1 in Hc' as [k Hk].
    destruct (Hok' i v' k c' Hv' Hk) as (_ & Ho & _).
    by apply orbit_bounds. }
  apply lit_nonzero in Hlit.
  2:{ intros c Hc. apply list_elem_of_lookup_1 in Hc as [k Hk].
      destruct (Hok i v k c Hv Hk) as (_ & Ho & _). by apply orbit_bounds. }
  destruct Hlit as (c & Hc & Hpos).
  apply list_elem_of_lookup_1 in Hc as [k Hk].
  destruct (Forall2_lookup_l _ _ _ _ _ He Hk) as (c' & Hk' & Hvis).
  exists c'. split; [by eapply list_elem_of_lookup_2|].
  destruct (Hok i v k c Hv Hk) as (_ & Ho & _).
  destruct (visited_tick_rel c c' Ho Hvis) as (_ & _ & _ & Hle & _).
  eapply Qlt_le_trans; [exact Hpos | exact Hle].
Qed.

Lemma filter_length_grows {A} (p : A → bool) (l l' : list A) :
  Forall2 (λ a b, p a = true → p b = true) l l' →
  (length (filter (λ a, p a = true) l) ≤ length (filter (λ a, p a = true) l'))%nat.
Proof.
  induction 1 as [|a b l l' Hab _ IH]; [done|].
  destruct (p a) eqn:Ha.
  - rewrite !filter_cons_True by auto. simpl. lia.
  - rewrite (filter_cons_False _ a) by (by rewrite Ha).
    destruct (p b) eqn:Hb.
    + rewrite filter_cons_True by done. simpl. lia.
    + rewrite filter_cons_False by (by rewrite Hb). done.
Qed.

Lemma update_cities_mesh_count (g : graph) (mapped : list city_vertex) :
  length mapped = length g →
  ∃ buf, update_cities_mesh g mapped
         = Some (buf, length (filter (λ v, lit v = true) g)).
Proof.
  intros Hlen. unfold update_cities_mesh.
  rewrite update_loop_spec.
  - eexists. done.
  - simpl. rewrite Hlen. apply length_filter.
Qed.

(** Each lit vertex has an active edge of its own. *)
Lemma lit_count_le_drawn (g0 g : list graph_vertex) :
  (∀ v c, v ∈ g → c ∈ connections v → edge_ok (length g0) c) →
  (length (filter (λ v, lit v = true) g) ≤ length (render_connections g))%nat.
Proof.
  induction g as [|v g IH]; intros Hok; [done|].
  unfold render_connections in *. simpl. rewrite length_app.
  assert (IH' := IH (λ v' c Hv' Hc, Hok v' c (list_elem_of_further _ _ _ Hv') Hc)).
  destruct (lit v) eqn:Hlit.
  - rewrite filter_cons_True by done. simpl.
    apply lit_nonzero in Hlit.
    2:{ intros c Hc. destruct (Hok v c) as (_ & Ho & _); [by left | done |].
        by apply orbit_bounds. }
    destruct Hlit as (c & Hc & Hpos).
    assert (Ha : active c = true).
    { destruct (Hok v c) as (_ & _ & Hz); [by left | done |].
      destruct (active c); [done|]. rewrite Hz in Hpos by done.
      by apply Qlt_irrefl in Hpos. }
    assert (1 ≤ length (flat_map (λ conn, if active conn then [elapsed conn] else [])
                           (connections v)))%nat; [|lia].
    clear -Hc Ha. induction (connections v) as [|d l IHl];
      [by apply elem_of_nil in Hc|].
    simpl. rewrite length_app. apply elem_of_cons in Hc as [<- | Hc].
    + rewrite Ha. simpl. lia.
    + specialize (IHl Hc). lia.
  - rewrite filter_cons_False by (by rewrite Hlit). lia.
Qed.

(** ** The edges of the constructed graph *)

Section Topology.

Variable normalize : vec3 → vec3.
Variable distance : vec3 → vec3 → float.

Lemma filter_seq_increasing (P : nat → Prop) `{∀ x, Decision (P x)} (n : nat) :
  ∀ (a k1 k2 x y : nat),
    (k1 < k2)%nat →
    filter P (seq a n) !! k1 = Some x → filter P (seq a n) !! k2 = Some y →
    (a ≤ x < y)%nat.
Proof.
  induction n as [|n IH]; intros a k1 k2 x y Hlt H1 H2; [done|].
  simpl in H1, H2. destruct (decide (P a)) as [Ha | Ha].
  - rewrite filter_cons_True in H1, H2 by done.
    destruct k2 as [|k2]; [lia|]. simpl in H2.
    destruct k1 as [|k1]; simpl in H1.
    + injection H1 as <-. apply list_elem_of_lookup_2 in H2.
      apply list_elem_of_filter in H2 as [_ H2]. apply elem_of_seq in H2. lia.
    + destruct (IH (S a) k1 k2 x y) as [? ?]; [lia | done | done | lia].
  - rewrite filter_cons_False in H1, H2 by done.
    destruct (IH (S a) k1 k2 x y) as [? ?]; [lia | done | done | lia].
Qed.

(** The targets of the edges of a vertex, in stored order. *)
Lemma constructed_targets (ps : list vec3) (r : rng) (i : nat) (v : graph_vertex) :
  constructed normalize distance ps r !! i = Some v →
  target_vertex <$> connections v = Z.of_nat <$> neighbours distance ps i.
Proof.
  intros Hv.
  destruct (initialize_connections_spec normalize distance ps r) as [Hps He].
  fold (constructed normalize distance ps r) in Hps, He.
  assert (Hpi : ps !! i = Some (position v))
    by (by rewrite <- Hps, list_lookup_fmap, Hv).
  destruct (He i _ Hpi) as (v' & Hv' & _ & F).
  assert (v' = v) by congruence. subst v'.
  unfold neighbours. clear -F.
  induction F as [|j c js cs Hb _ IH]; [done|].
  rewrite !fmap_cons, IH. f_equal. by destruct Hb as [-> _].
Qed.

Lemma constructed_target_near (ps : list vec3) (r : rng) (i j : nat) :
  (∃ k c, edge_at (constructed normalize distance ps r) i k = Some c ∧
          target_vertex c = Z.of_nat j)
  ↔ near distance ps i j = true.
Proof.
  assert (Hnb : near distance ps i j = true ↔ j ∈ neighbours distance ps i).
  { unfold neighbours. rewrite list_elem_of_filter, elem_of_seq. split; [|tauto].
    intros Hn. split; [done|]. unfold near in Hn.
    destruct (ps !! i); [|done]. destruct (ps !! j) eqn:Hj; [|done].
    apply lookup_lt_Some in Hj. lia. }
  rewrite Hnb. unfold edge_at. split.
  - intros (k & c & Hc & Ht).
    destruct (constructed normalize distance ps r !! i) as [v|] eqn:Hv;
      simpl in Hc; [|done].
    pose proof (constructed_targets ps r i v Hv) as Hts.
    assert (Hin : Z.of_nat j ∈ target_vertex <$> connections v).
    { rewrite <- Ht. apply list_elem_of_fmap_2.
      by eapply list_elem_of_lookup_2. }
    rewrite Hts in Hin. apply list_elem_of_fmap in Hin as (j' & Hj' & Hin).
    by replace j with j' by lia.
  - intros Hin.
    assert (Hi : (i < length ps)%nat).
    { apply Hnb in Hin. unfold near in Hin.
      destruct (ps !! i) eqn:Hpi; [|done]. by eapply lookup_lt_Some. }
    rewrite <- (constructed_length normalize distance ps r) in Hi.
    destruct (lookup_lt_is_Some_2 _ _ Hi) as [v Hv]. rewrite Hv. simpl.
    pose proof (constructed_targets ps r i v Hv) as Hts.
    assert (Hin' : Z.of_nat j ∈ target_vertex <$> connections v)
      by (rewrite Hts; by apply list_elem_of_fmap_2).
    apply list_elem_of_fmap in Hin' as (c & Hc & Hin').
    apply list_elem_of_lookup_1 in Hin' as [k Hk]. by exists k, c.
Qed.

(** X8. After construction the edges of a vertex are stored by increasing
    target: no two of them have the same target, none targets the vertex
    itself, and there are fewer of them than vertices. *)
Theorem edges_are_stored_by_target (ps : list vec3) (r : rng) (i : nat)
    (v : graph_vertex) :
  constructed normalize distance ps r !! i = Some v →
  (∀ k1 k2 c1 c2, (k1 < k2)%nat →
     connections v !! k1 = Some c1 → connections v !! k2 = Some c2 →
     target_vertex c1 < target_vertex c2) ∧
  (∀ c, c ∈ connections v → target_vertex c ≠ Z.of_nat i) ∧
  (length (connections v) < length ps)%nat.
Proof.
  intros Hv. pose proof (constructed_targets ps r i v Hv) as Hts.
  assert (Hlook : ∀ k c, connections v !! k = Some c →
            ∃ j, neighbours distance ps i !! k = Some j ∧
                 target_vertex c = Z.of_nat j).
  { intros k c Hc.
    assert (H : (target_vertex <$> connections v) !! k = Some (target_vertex c))
      by (by rewrite list_lookup_fmap, Hc).
    rewrite Hts, list_lookup_fmap in H.
    destruct (neighbours distance ps i !! k) as [j|]; [|done].
    exists j. split; [done|]. simpl in H. congruence. }
  split; [|split].
  - intros k1 k2 c1 c2 Hlt H1 H2.
    destruct (Hlook k1 c1 H1) as (j1 & Hj1 & ->).
    destruct (Hlook k2 c2 H2) as (j2 & Hj2 & ->).
    destruct (filter_seq_increasing _ _ 0 k1 k2 j1 j2 Hlt Hj1 Hj2). lia.
  - intros c Hc Ht. apply list_elem_of_lookup_1 in Hc as [k Hk].
    destruct (Hlook k c Hk) as (j & Hj & Htj).
    apply list_elem_of_lookup_2 in Hj. unfold neighbours in Hj.
    apply list_elem_of_filter in Hj as [Hn _].
    assert (j = i) by lia. subst j. unfold near in Hn.
    destruct (ps !! i); [|done]. by rewrite bool_decide_eq_false_2 in Hn by auto.
  - assert (Hi : (i < length ps)%nat).
    { rewrite <- (constructed_length normalize distance ps r).
      by eapply lookup_lt_Some. }
    assert (Hlen : length (connections v) = length (neighbours distance ps i)).
    { rewrite <- (length_fmap target_vertex), Hts. apply length_fmap. }
    rewrite Hlen. unfold neighbours.
    pose proof (length_filter_lt (λ j, near distance ps i j = true)
                  (seq 0 (length ps)) i) as Hlt.
    rewrite length_seq in Hlt. apply Hlt; [apply elem_of_seq; lia|].
    unfold near. destruct (ps !! i); [|done].
    by rewrite bool_decide_eq_false_2 by auto.
Qed.

(** X9. When the distance computed from [i] to [j] is the one computed
    from [j] to [i], the edge from [i] to [j] exists exactly when the edge
    from [j] to [i] does. *)
Theorem edges_come_in_pairs (ps : list vec3) (r : rng) (i j : nat) (pi pj : vec3) :
  ps !! i = Some pi → ps !! j = Some pj →
  distance pi pj = distance pj pi →
  (∃ k c, edge_at (constructed normalize distance ps r) i k = Some c ∧
          target_vertex c = Z.of_nat j)
  ↔ (∃ k c, edge_at (constructed normalize distance ps r) j k = Some c ∧
            target_vertex c = Z.of_nat i).
Proof.
  intros Hi Hj Hd. rewrite !constructed_target_near. unfold near.
  rewrite Hi, Hj, Hd.
  destruct (decide (i = j)) as [-> | Hne].
  - done.
  - by rewrite !bool_decide_eq_true_2 by auto.
Qed.

End Topology.

(** ** The draws of [initialize_connections] *)

Section Draws.

Variable normalize : vec3 → vec3.
Variable distance : vec3 → vec3 → float.

Lemma seeded_shift (r : rng) (d k : nat) :
  seeded {| tape := tape r; drawn := drawn r + d |} k = seeded r (d + k).
Proof. unfold seeded. simpl. by rewrite Nat.add_assoc. Qed.

(** The body of the inner loop draws once when it creates an edge and not
    at all when it does not. *)
Lemma connect_draws (i j : nat) (g : graph) (r : rng) (vi : graph_vertex) :
  g !! i = Some vi → (j < length g)%nat →
  ∃ new,
    connect normalize distance i j (g, r)
      = (<[i := set_connections vi (connections vi ++ new)]> g,
         {| tape := tape r; drawn := drawn r + length new |}) ∧
    length new = length (filter (λ j, near distance (position <$> g) i j = true) [j]) ∧
    ∀ k c, new !! k = Some c → active c = seeded r k.
Proof.
  intros Hvi Hj.
  destruct (lookup_lt_is_Some_2 g j Hj) as [vj Hvj].
  assert (Hid : <[i := set_connections vi (connections vi ++ [])]> g = g).
  { rewrite app_nil_r. apply list_insert_id.
    rewrite Hvi. by destruct vi. }
  assert (Hr : {| tape := tape r; drawn := drawn r + 0 |} = r)
    by (rewrite Nat.add_0_r; by destruct r).
  assert (Hnear : near distance (position <$> g) i j =
                  bool_decide (i ≠ j) &&
                  Ieee.Qltb (to_double (distance (position vi) (position vj)))
                            min_distance).
  { unfold near. by rewrite !list_lookup_fmap, Hvi, Hvj. }
  unfold connect. rewrite Hvi, Hvj.
  destruct (decide (i = j)) as [Heq | Hne].
  { exists []. simpl length. rewrite Hid, Hr. split; [reflexivity|].
    rewrite filter_cons_False; [done|].
    rewrite Hnear, bool_decide_eq_false_2; [done | by intros ?]. }
  rewrite bool_decide_eq_true_2 in Hnear by done. simpl in Hnear.
  cbv zeta.
  destruct (Ieee.Qltb (to_double (distance (position vi) (position vj)))
                      min_distance) eqn:Hlt.
  - unfold rand. eexists [_]. split; [|split].
    + simpl length. rewrite Nat.add_1_r. reflexivity.
    + by rewrite filter_cons_True by done.
    + intros [|k] c Hc; [|done]. injection Hc as <-. simpl.
      unfold seeded. by rewrite Nat.add_0_r.
  - exists []. simpl length. rewrite Hid, Hr. split; [reflexivity|].
    rewrite filter_cons_False; [done|]. by rewrite Hnear.
Qed.

Lemma connect_row_draws (i : nat) (js : list nat) :
  ∀ (g : graph) (r : rng) (vi : graph_vertex),
    g !! i = Some vi → (∀ j, j ∈ js → (j < length g)%nat) →
    ∃ new,
      foldl (λ st j, connect normalize distance i j st) (g, r) js
        = (<[i := set_connections vi (connections vi ++ new)]> g,
           {| tape := tape r; drawn := drawn r + length new |}) ∧
      length new
        = length (filter (λ j, near distance (position <$> g) i j = true) js) ∧
      ∀ k c, new !! k = Some c → active c = seeded r k.
Proof.
  induction js as [|j js IH]; intros g r vi Hvi Hjs.
  - exists []. split; [|done]. simpl. f_equal.
    + rewrite app_nil_r. symmetry. apply list_insert_id.
      rewrite Hvi. by destruct vi.
    + rewrite Nat.add_0_r. by destruct r.
  - destruct (connect_draws i j g r vi Hvi) as (new1 & H1 & L1 & A1);
      [apply Hjs; by left|].
    set (vi1 := set_connections vi (connections vi ++ new1)) in *.
    set (g1 := <[i := vi1]> g) in *.
    set (r1 := {| tape := tape r; drawn := drawn r + length new1 |}) in *.
    assert (Hvi1 : g1 !! i = Some vi1).
    { apply list_lookup_insert_eq. eapply lookup_lt_Some; eauto. }
    assert (Hps : position <$> g1 = position <$> g)
      by (by apply positions_insert).
    destruct (IH g1 r1 vi1 Hvi1) as (new2 & H2 & L2 & A2).
    { intros j' Hj'. subst g1. rewrite length_insert. apply Hjs. by right. }
    exists (new1 ++ new2). split; [|split].
    + change (foldl ?f ?a (?x :: ?l)) with (foldl f (f a x) l).
      cbv beta. rewrite H1, H2. f_equal.
      * subst g1 vi1. rewrite list_insert_insert_eq. simpl.
        by rewrite app_assoc.
      * subst r1. simpl. rewrite length_app. f_equal. lia.
    + change (j :: js) with ([j] ++ js).
      rewrite filter_app, !length_app, L1, L2. by rewrite Hps.
    + intros k c Hc. apply lookup_app_Some in Hc as [Hc | [Hge Hc]].
      * by apply A1.
      * rewrite (A2 _ _ Hc). subst r1. rewrite seeded_shift. f_equal. lia.
Qed.

Lemma connect_rows_draws (js idx : list nat) :
  NoDup idx →
  ∀ (g : graph) (r : rng),
    (∀ j, j ∈ js → (j < length g)%nat) →
    (∀ i, i ∈ idx → (i < length g)%nat) →
    let deg := λ i, length (filter (λ j, near distance (position <$> g) i j = true) js) in
    ∃ g',
      foldl (λ st i, foldl (λ st j, connect normalize distance i j st) st js)
            (g, r) idx
        = (g', {| tape := tape r; drawn := drawn r + sum_list (deg <$> idx) |}) ∧
      position <$> g' = position <$> g ∧
      (∀ i, i ∉ idx → g' !! i = g !! i) ∧
      ∀ p i vi, idx !! p = Some i → g !! i = Some vi →
        ∃ new,
          g' !! i = Some (set_connections vi (connections vi ++ new)) ∧
          ∀ k c, new !! k = Some c →
                 active c = seeded r (sum_list (deg <$> take p idx) + k).
Proof.
  induction idx as [|i0 idx IH]; intros Hnd g r Hjs Hidx deg.
  - exists g. split; [|done]. simpl. f_equal.
    rewrite Nat.add_0_r. by destruct r.
  - apply NoDup_cons in Hnd as [Hi0 Hnd].
    assert (Hlt : (i0 < length g)%nat) by (apply Hidx; by left).
    destruct (lookup_lt_is_Some_2 g i0 Hlt) as [v0 Hv0].
    destruct (connect_row_draws i0 js g r v0 Hv0 Hjs) as (new0 & H1 & L1 & A1).
    fold (deg i0) in L1.
    set (g1 := <[i0 := set_connections v0 (connections v0 ++ new0)]> g) in *.
    set (r1 := {| tape := tape r; drawn := drawn r + length new0 |}) in *.
    assert (Hps : position <$> g1 = position <$> g)
      by (by apply positions_insert).
    assert (Hlen : length g1 = length g) by apply length_insert.
    destruct (IH Hnd g1 r1) as (g' & H2 & Hps' & Hout & He).
    { intros j Hj. rewrite Hlen. by apply Hjs. }
    { intros i Hi. rewrite Hlen. apply Hidx. by right. }
    rewrite Hps in H2, He. fold deg in H2, He.
    exists g'. split; [|split; [congruence|split]].
    + change (foldl ?f ?a (?x :: ?l)) with (foldl f (f a x) l).
      cbv beta. rewrite H1, H2. f_equal. subst r1. simpl. f_equal.
      rewrite L1, <- Nat.add_assoc. reflexivity.
    + intros i Hi. apply not_elem_of_cons in Hi as [Hne Hi].
      rewrite (Hout i Hi). subst g1. by rewrite list_lookup_insert_ne.
    + intros p i vi Hp Hvi. destruct p as [|p]; simpl in Hp.
      * injection Hp as <-. assert (vi = v0) by congruence. subst vi.
        exists new0. split.
        -- rewrite (Hout i0 Hi0). subst g1.
           apply list_lookup_insert_eq. by eapply lookup_lt_Some.
        -- intros k c Hc. simpl. by apply A1.
      * assert (Hne : i ≠ i0).
        { intros ->. apply Hi0. by eapply list_elem_of_lookup_2. }
        destruct (He p i vi Hp) as (new & Hg' & A).
        { subst g1. by rewrite list_lookup_insert_ne. }
        exists new. split; [done|]. intros k c Hc.
        rewrite (A k c Hc). subst r1. rewrite seeded_shift. f_equal.
        change (take (S p) (i0 :: idx)) with (i0 :: take p idx).
        rewrite fmap_cons.
        change (sum_list (deg i0 :: (deg <$> take p idx)))
          with (deg i0 + sum_list (deg <$> take p idx))%nat.
        rewrite L1. lia.
Qed.

Lemma initialize_connections_draws (ps : list vec3) (r : rng) :
  tape (initialize_connections normalize distance (graph_of_positions ps) r).2
    = tape r ∧
  drawn (initialize_connections normalize distance (graph_of_positions ps) r).2
    = (drawn r + edges_before distance ps (length ps))%nat ∧
  ∀ i k c,
    edge_at (constructed normalize distance ps r) i k = Some c →
    active c = seeded r (edges_before distance ps i + k).
Proof.
  assert (Hgp : position <$> graph_of_positions ps = ps).
  { unfold graph_of_positions. rewrite <- list_fmap_compose.
    apply list_fmap_id. }
  assert (Hlen : length (graph_of_positions ps) = length ps)
    by apply length_fmap.
  unfold constructed, initialize_connections. rewrite Hlen.
  destruct (connect_rows_draws (seq 0 (length ps)) (seq 0 (length ps))
              (NoDup_seq _ _) (graph_of_positions ps) r)
    as (g' & Hrun & Hps & _ & He).
  { intros j Hj. apply elem_of_seq in Hj. lia. }
  { intros i Hi. apply elem_of_seq in Hi. lia. }
  rewrite Hgp in Hrun, He. rewrite Hrun. simpl.
  assert (Hsum : ∀ l, sum_list ((λ i, length (filter (λ j, near distance ps i j = true)
                                              (seq 0 (length ps)))) <$> l)
                      = sum_list (length <$> (neighbours distance ps <$> l))).
  { intros l. by rewrite <- list_fmap_compose. }
  split; [done|]. split.
  - unfold edges_before. by rewrite Hsum.
  - intros i k c Hc. unfold edge_at in Hc.
    destruct (g' !! i) as [v|] eqn:Hv; simpl in Hc; [|done].
    assert (Hi : (i < length ps)%nat).
    { apply lookup_lt_Some in Hv.
      rewrite <- (length_fmap position), Hps, Hgp in Hv. done. }
    destruct (lookup_lt_is_Some_2 ps i Hi) as [pi Hpi].
    destruct (He i i {| position := pi; connections := [] |}) as (new & Hg' & A).
    { apply lookup_seq. lia. }
    { unfold graph_of_positions. by rewrite list_lookup_fmap, Hpi. }
    rewrite Hv in Hg'. injection Hg' as ->. simpl in Hc.
    rewrite (A k c Hc). rewrite take_seq, Hsum.
    replace (i `min` length ps)%nat with i by lia.
    done.
Qed.

Lemma constructed_edge_count (ps : list vec3) (r : rng) :
  edge_count (constructed normalize distance ps r)
    = edges_before distance ps (length ps).
Proof.
  unfold edge_count, edges_before. f_equal. rewrite <- list_fmap_compose.
  apply list_eq. intros i. rewrite !list_lookup_fmap.
  destruct (constructed normalize distance ps r !! i) as [v|] eqn:Hv; simpl.
  - assert (Hi : (i < length ps)%nat).
    { rewrite <- (constructed_length normalize distance ps r).
      by eapply lookup_lt_Some. }
    rewrite lookup_seq_lt by done. simpl. f_equal.
    pose proof (constructed_targets normalize distance ps r i v Hv) as Hts.
    apply (f_equal length) in Hts. by rewrite !length_fmap in Hts.
  - apply lookup_ge_None in Hv. rewrite constructed_length in Hv.
    by rewrite lookup_seq_ge by done.
Qed.

(** X10. [initialize_connections] calls [rand] once for each edge it
    creates, in the order it creates them, vertex by vertex, and at no
    other time: the number of draws is the number of edges, and an edge
    starts active exactly when its draw is a multiple of 150. *)
Theorem one_draw_per_edge (ps : list vec3) (r : rng) :
  tape (initialize_connections normalize distance (graph_of_positions ps) r).2
    = tape r ∧
  drawn (initialize_connections normalize distance (graph_of_positions ps) r).2
    = (drawn r + edge_count (constructed normalize distance ps r))%nat ∧
  ∀ i k c,
    edge_at (constructed normalize distance ps r) i k = Some c →
    active c = (Z.rem (tape r (drawn r + edges_before distance ps i + k)) 150 =? 0).
Proof.
  destruct (initialize_connections_draws ps r) as (Ht & Hd & Ha).
  split; [done|]. split; [by rewrite constructed_edge_count|].
  intros i k c Hc. rewrite (Ha i k c Hc). unfold seeded.
  by rewrite Nat.add_assoc.
Qed.

(** What the random source has no part in: the target, the [elapsed] and
    the geometry of an edge. *)
Lemma built_same (ps : list vec3) (i : nat) (js : list nat) :
  ∀ cs1 cs2 : list connection,
    Forall2 (built normalize distance ps i) js cs1 →
    Forall2 (built normalize distance ps i) js cs2 →
    drawn_apart <$> cs1 = drawn_apart <$> cs2.
Proof.
  induction js as [|j js IH]; intros cs1 cs2 F1 F2.
  - apply Forall2_nil_inv_l in F1, F2. by subst.
  - apply Forall2_cons_inv_l in F1 as (c1 & cs1' & H1 & F1 & ->).
    apply Forall2_cons_inv_l in F2 as (c2 & cs2' & H2 & F2 & ->).
    rewrite !fmap_cons. f_equal; [|by apply IH].
    destruct H1 as (Ht & He & pi & pj & Hi & Hj & Hm).
    destruct H2 as (Ht' & He' & pi' & pj' & Hi' & Hj' & Hm').
    unfold drawn_apart. rewrite Ht, He, Hm, Ht', He', Hm'. congruence.
Qed.

(** X23. The random source decides the [active] flags and nothing else:
    for any two sources the constructed graphs have the same positions
    and, edge by edge, the same target, [elapsed] and geometry. *)
Theorem draws_only_seed (ps : list vec3) (r1 r2 : rng) :
  (λ v, (position v, drawn_apart <$> connections v))
    <$> constructed normalize distance ps r1 =
  (λ v, (position v, drawn_apart <$> connections v))
    <$> constructed normalize distance ps r2.
Proof.
  apply list_eq. intros i. rewrite !list_lookup_fmap.
  destruct (initialize_connections_spec normalize distance ps r1) as [Hps1 He1].
  destruct (initialize_connections_spec normalize distance ps r2) as [Hps2 He2].
  fold (constructed normalize distance ps r1) in Hps1, He1.
  fold (constructed normalize distance ps r2) in Hps2, He2.
  destruct (ps !! i) as [pi|] eqn:Hpi.
  - destruct (He1 i pi Hpi) as (v1 & Hv1 & Hp1 & F1).
    destruct (He2 i pi Hpi) as (v2 & Hv2 & Hp2 & F2).
    rewrite Hv1, Hv2. simpl. rewrite Hp1, Hp2. do 2 f_equal.
    by eapply built_same.
  - apply lookup_ge_None in Hpi.
    rewrite !(proj2 (lookup_ge_None _ _)); [done | |];
      by rewrite constructed_length.
Qed.

End Draws.

(** ** The first frame *)

Lemma update_loop_unlit (vs : list graph_vertex) (st : list city_vertex * nat) :
  Forall (λ v, lit v = false) vs → update_loop vs st = Some st.
Proof.
  induction 1 as [|v vs Hv _ IH]; [done|].
  cbn [update_loop]. destruct st as [buf n].
  rewrite update_vertex_lit, Hv. exact IH.
Qed.

Lemma unlit_at_zero (v : graph_vertex) :
  (∀ c, c ∈ connections v → elapsed c = 0%Q) → lit v = false.
Proof.
  intros Hz. destruct (lit v) eqn:Hlit; [|done].
  apply lit_max in Hlit as (e & He & Hnz).
  destruct (max_elapsed_in v e He) as (c & Hc & <- & _).
  destruct Hnz. by rewrite (Hz c Hc).
Qed.

Lemma quiet_inactive (g : graph) :
  (∀ i k c, edge_at g i k = Some c → active c = false) → quiet g = true.
Proof.
  intros Hoff. unfold quiet. apply forallb_forall. intros v Hv.
  apply forallb_forall. intros c Hc.
  apply list_elem_of_In, list_elem_of_lookup_1 in Hv as [i Hi].
  apply list_elem_of_In, list_elem_of_lookup_1 in Hc as [k Hk].
  rewrite (Hoff i k c); [done|]. unfold edge_at. by rewrite Hi.
Qed.

Lemma render_connections_inactive (g : graph) :
  (∀ i k c, edge_at g i k = Some c → active c = false) →
  render_connections g = [].
Proof.
  intros Hoff. unfold render_connections.
  assert (Hall : ∀ v c, v ∈ g → c ∈ connections v → active c = false).
  { intros v c Hv Hc.
    apply list_elem_of_lookup_1 in Hv as [i Hi].
    apply list_elem_of_lookup_1 in Hc as [k Hk].
    apply (Hoff i k c). unfold edge_at. by rewrite Hi. }
  clear Hoff. induction g as [|v g IH]; [done|]. simpl.
  rewrite IH by (intros v' c Hv'; apply Hall; by right).
  rewrite app_nil_r.
  assert (Hv : ∀ c, c ∈ connections v → active c = false)
    by (intros c; apply Hall; by left).
  clear -Hv. induction (connections v) as [|c l IHl]; [done|]. simpl.
  rewrite (Hv c) by (by left). simpl. apply IHl.
  intros c' Hc'. apply Hv. by right.
Qed.

Section FirstFrame.

Variable normalize : vec3 → vec3.
Variable distance : vec3 → vec3 → float.

Lemma constructed_elapsed (ps : list vec3) (r : rng) (v : graph_vertex)
    (c : connection) :
  v ∈ constructed normalize distance ps r → c ∈ connections v →
  elapsed c = 0%Q.
Proof.
  intros Hv Hc.
  apply list_elem_of_lookup_1 in Hv as [i Hi].
  apply list_elem_of_lookup_1 in Hc as [k Hk].
  by destruct (constructed_edge normalize distance ps r i k v c Hi Hk)
    as (j & _ & _ & _ & He & _).
Qed.

(** X11. The first frame, drawn before any tick: no city is lit, the
    mapped buffer is not written whatever its size, and every edge that is
    drawn is drawn with [tex_offset] [0]. *)
Theorem first_frame (ps : list vec3) (r : rng) (mapped : list city_vertex) :
  update_cities_mesh (constructed normalize distance ps r) mapped
    = Some (mapped, 0%nat) ∧
  ∀ x, x ∈ render_connections (constructed normalize distance ps r) → x = 0%Q.
Proof.
  split.
  - apply update_loop_unlit. apply Forall_forall. intros v Hv.
    apply unlit_at_zero. intros c Hc. by eapply constructed_elapsed.
  - intros x Hx. apply list_elem_of_In in Hx. unfold render_connections in Hx.
    apply in_flat_map in Hx as (v & Hv & Hx).
    apply in_flat_map in Hx as (c & Hc & Hx).
    apply list_elem_of_In in Hv, Hc.
    destruct (active c); [|by destruct Hx].
    destruct Hx as [<- | []]. by eapply constructed_elapsed.
Qed.

(** X12. When [rand] never returns a multiple of 150 no edge is seeded,
    and then nothing ever happens: every tick leaves the graph as it was
    constructed and no frame draws an edge. *)
Theorem nothing_without_a_seed (ps : list vec3) (r : rng) (n : nat) :
  (∀ k, Z.rem (tape r k) 150 ≠ 0) →
  ticks n (constructed normalize distance ps r)
    = Some (constructed normalize distance ps r) ∧
  render_connections (constructed normalize distance ps r) = [].
Proof.
  intros Hno.
  assert (Hoff : ∀ i k c,
            edge_at (constructed normalize distance ps r) i k = Some c →
            active c = false).
  { intros i k c Hc.
    destruct (initialize_connections_draws normalize distance ps r) as (_ & _ & Ha).
    rewrite (Ha i k c Hc). unfold seeded. apply Z.eqb_neq, Hno. }
  split.
  - apply ticks_quiet. by apply quiet_inactive.
  - by apply render_connections_inactive.
Qed.

End FirstFrame.

(** ** The end of the propagation *)

Lemma remaining_orbit (e : float) :
  in_orbit e = true →
  (remaining e ≤ 51)%nat ∧
  (remaining e = 0%nat → completed e = true) ∧
  (completed e = false → S (remaining (advance e)) = remaining e).
Proof.
  intros He.
  assert (Hall : forallb (λ y, (remaining y <=? 51)%nat &&
                               (negb (remaining y =? 0)%nat || completed y) &&
                               (completed y ||
                                (S (remaining (advance y)) =? remaining y)%nat))
                         orbit = true) by (by vm_compute).
  pose proof (orbit_forall _ e Hall He) as H. cbv beta in H.
  apply andb_prop in H as [H H3]. apply andb_prop in H as [H1 H2].
  split; [by apply Nat.leb_le|]. split.
  - intros Hz. rewrite Hz in H2. exact H2.
  - intros Hc. rewrite Hc in H3. by apply Nat.eqb_eq.
Qed.

Lemma sum_list_le {A B} (f : A → nat) (f' : B → nat) (R : A → B → Prop)
    (l : list A) (l' : list B) :
  (∀ a b, R a b → (f' b ≤ f a)%nat) → Forall2 R l l' →
  (sum_list (f' <$> l') ≤ sum_list (f <$> l))%nat.
Proof.
  intros HR H. induction H as [|a b l l' Hab _ IH]; [done|].
  rewrite !fmap_cons. simpl. specialize (HR a b Hab). lia.
Qed.

Lemma sum_list_lt {A B} (f : A → nat) (f' : B → nat) (R : A → B → Prop)
    (l : list A) (l' : list B) (i : nat) (a : A) (b : B) :
  (∀ a b, R a b → (f' b ≤ f a)%nat) → Forall2 R l l' →
  l !! i = Some a → l' !! i = Some b → (f' b < f a)%nat →
  (sum_list (f' <$> l') < sum_list (f <$> l))%nat.
Proof.
  intros HR H. revert i. induction H as [|a0 b0 l l' Hab Hl IH]; intros i Ha Hb Hlt;
    [done|].
  rewrite !fmap_cons. simpl. destruct i as [|i]; simpl in Ha, Hb.
  - injection Ha as ->. injection Hb as ->.
    pose proof (sum_list_le f f' R l l' HR Hl). lia.
  - specialize (IH i Ha Hb Hlt). specialize (HR a0 b0 Hab). lia.
Qed.

Lemma visited_remaining (c c' : connection) :
  in_orbit (elapsed c) = true → visited c c' →
  (remaining (elapsed c') ≤ remaining (elapsed c))%nat ∧
  (active c = true → completed (elapsed c) = false →
   (remaining (elapsed c') < remaining (elapsed c))%nat).
Proof.
  intros Ho Hvis.
  destruct (visited_tick_rel c c' Ho Hvis) as (_ & _ & _ & _ & Hor & Hadv & Hdone).
  destruct (remaining_orbit _ Ho) as (_ & _ & Hstep).
  split.
  - destruct (completed (elapsed c)) eqn:Hc; [by rewrite Hdone|].
    destruct Hor as [-> | ->]; [done|]. specialize (Hstep eq_refl). lia.
  - intros Ha Hc. rewrite (Hadv Ha Hc). specialize (Hstep Hc). lia.
Qed.

Lemma forallb_exists_false {A} (l : list A) (p : A → bool) :
  forallb p l = false → ∃ x, In x l ∧ p x = false.
Proof.
  induction l as [|a l IH]; simpl; [done|].
  destruct (p a) eqn:Ha; simpl.
  - intros H. destruct (IH H) as (x & Hx & Hp). exists x. auto.
  - intros _. exists a. auto.
Qed.

Lemma not_quiet (g : graph) :
  quiet g = false →
  ∃ i v k c, g !! i = Some v ∧ connections v !! k = Some c ∧
             active c = true ∧ completed (elapsed c) = false.
Proof.
  intros Hq. unfold quiet in Hq.
  destruct (forallb_exists_false g _ Hq) as (v & Hv & Hq1).
  destruct (forallb_exists_false (connections v) _ Hq1) as (c & Hc & Hq2).
  apply list_elem_of_In, list_elem_of_lookup_1 in Hv as [i Hi].
  apply list_elem_of_In, list_elem_of_lookup_1 in Hc as [k Hk].
  apply orb_false_iff in Hq2 as [Ha Hb]. apply negb_false_iff in Ha.
  by exists i, v, k, c.
Qed.

Lemma pending_tick (g : graph) :
  graph_ok g →
  ∃ g', step_connections g = Some g' ∧ graph_ok g' ∧
        (pending g' ≤ pending g)%nat ∧
        (quiet g = false → (pending g' < pending g)%nat).
Proof.
  intros Hok.
  destruct (step_connections_ok g Hok) as (g' & Hg' & Hok' & Hrel).
  exists g'. split; [done|]. split; [done|].
  pose proof (graph_rel_same_shape _ _ _ Hrel) as Hs.
  set (R := λ v v' : graph_vertex,
         Forall2 (λ c c', visited c c' ∧ in_orbit (elapsed c) = true)
                 (connections v) (connections v')).
  assert (HsR : Forall2 R g g').
  { apply Forall2_same_length_lookup_2; [by eapply Forall2_length|].
    intros i v v' Hv Hv'.
    destruct (Forall2_lookup_lr _ _ _ _ _ _ Hs Hv Hv') as [_ He].
    apply Forall2_same_length_lookup_2; [by eapply Forall2_length|].
    intros k c c' Hc Hc'. split.
    - exact (Forall2_lookup_lr _ _ _ _ _ _ He Hc Hc').
    - by destruct (Hok i v k c Hv Hc) as (_ & Ho & _). }
  assert (Hedge : ∀ c c', visited c c' ∧ in_orbit (elapsed c) = true →
            ((remaining ∘ elapsed) c' ≤ (remaining ∘ elapsed) c)%nat).
  { intros c c' [Hvis Ho]. by apply visited_remaining. }
  assert (Hvertex : ∀ v v', R v v' →
            (sum_list (remaining ∘ elapsed <$> connections v')
             ≤ sum_list (remaining ∘ elapsed <$> connections v))%nat).
  { intros v v' Hvv. unfold R in Hvv.
    exact (sum_list_le _ _ _ _ _ Hedge Hvv). }
  split.
  - unfold pending. exact (sum_list_le _ _ _ _ _ Hvertex HsR).
  - intros Hq. destruct (not_quiet g Hq) as (i & v & k & c & Hv & Hc & Ha & Hb).
    destruct (Forall2_lookup_l _ _ _ _ _ HsR Hv) as (v' & Hv' & Hvv).
    destruct (Forall2_lookup_l _ _ _ _ _ Hvv Hc) as (c' & Hc' & Hvis & Ho).
    unfold pending.
    apply (sum_list_lt _ _ _ _ _ i v v' Hvertex HsR Hv Hv').
    unfold R in Hvv.
    apply (sum_list_lt _ _ _ _ _ k c c' Hedge Hvv Hc Hc').
    by apply visited_remaining.
Qed.

(** X13. A graph in which no edge is both active and below [1.0] is left
    as it is by every tick, whatever its targets are: no index is computed
    and nothing is written. Among the well-formed graphs these are the
    only ones a tick leaves as they are: it advances every active edge
    that is below [1.0]. *)
Theorem quiet_graph_is_fixed (g : graph) :
  (quiet g = true → ∀ n, ticks n g = Some g) ∧
  (graph_ok g → step_connections g = Some g → quiet g = true).
Proof.
  split.
  - intros Hq n. by apply ticks_quiet.
  - intros Hok Hfix. destruct (quiet g) eqn:Hq; [done|].
    destruct (pending_tick g Hok) as (g' & Hg' & _ & _ & Hlt).
    specialize (Hlt Hq).
    assert (g' = g) by congruence. subst g'. lia.
Qed.

Lemma ticks_add (n m : nat) :
  ∀ g : graph, ticks (n + m) g = (g' ← ticks n g; ticks m g').
Proof.
  induction n as [|n IH]; intros g; [done|].
  change (ticks (S n + m) g) with (g1 ← step_connections g; ticks (n + m) g1).
  change (ticks (S n) g) with (g1 ← step_connections g; ticks n g1).
  destruct (step_connections g) as [g1|]; [|done].
  cbn [mbind option_bind]. apply IH.
Qed.

Lemma settles (m : nat) :
  ∀ g : graph, graph_ok g → (pending g ≤ m)%nat →
    ∃ g', ticks m g = Some g' ∧ quiet g' = true.
Proof.
  induction m as [|m IH]; intros g Hok Hm.
  - exists g. split; [done|]. destruct (quiet g) eqn:Hq; [done|].
    destruct (pending_tick g Hok) as (g' & _ & _ & _ & Hlt).
    specialize (Hlt Hq). lia.
  - destruct (quiet g) eqn:Hq.
    + exists g. split; [by apply ticks_quiet | done].
    + destruct (pending_tick g Hok) as (g1 & H1 & Hok1 & _ & Hlt).
      specialize (Hlt Hq).
      destruct (IH g1 Hok1) as (g' & Hg' & Hq'); [lia|].
      exists g'. split; [|done]. cbn [ticks]. by rewrite H1.
Qed.

Lemma sum_list_cons (x : nat) (l : list nat) :
  sum_list (x :: l) = (x + sum_list l)%nat.
Proof. reflexivity. Qed.

Lemma pending_bound (g0 g : list graph_vertex) :
  (∀ v c, v ∈ g → c ∈ connections v → edge_ok (length g0) c) →
  (pending g ≤ 51 * edge_count g)%nat.
Proof.
  unfold pending, edge_count.
  induction g as [|v g IH]; intros Hok; [done|].
  rewrite !fmap_cons, !sum_list_cons.
  specialize (IH (λ v' c Hv' Hc, Hok v' c (list_elem_of_further _ _ _ Hv') Hc)).
  assert (Hv : (sum_list (remaining ∘ elapsed <$> connections v)
                ≤ 51 * length (connections v))%nat).
  { assert (Hc : ∀ c, c ∈ connections v → edge_ok (length g0) c)
      by (intros c; apply Hok; by left).
    clear -Hc. induction (connections v) as [|c l IHl]; [done|].
    rewrite fmap_cons, sum_list_cons, length_cons.
    destruct (Hc c) as (_ & Ho & _); [by left|].
    destruct (remaining_orbit _ Ho) as (Hle & _).
    specialize (IHl (λ c' Hc', Hc c' (list_elem_of_further _ _ _ Hc'))).
    change ((remaining ∘ elapsed) c) with (remaining (elapsed c)). lia. }
  lia.
Qed.

Lemma iterates_below_one (n : nat) :
  (n ≤ 50)%nat → completed (Nat.iter n age 0%Q) = false.
Proof.
  intros Hn.
  assert (Hall : forallb (λ n, negb (completed (Nat.iter n age 0%Q))) (seq 0 51) = true)
    by (by vm_compute).
  rewrite forallb_forall in Hall. apply negb_true_iff, Hall.
  apply in_seq. lia.
Qed.

Section Runs.

Variable normalize : vec3 → vec3.
Variable distance : vec3 → vec3 → float.

(** X14. The propagation ends: after at most 51 ticks for each edge of the
    graph, no edge is both active and below [1.0], and from then on the
    ticks leave the graph as it is. *)
Theorem propagation_terminates (ps : list vec3) (r : rng) :
  ∃ g, quiet g = true ∧
       ∀ n, (51 * edge_count (constructed normalize distance ps r) ≤ n)%nat →
            ticks n (constructed normalize distance ps r) = Some g.
Proof.
  pose proof (constructed_ok normalize distance ps r) as Hok.
  destruct (settles (51 * edge_count (constructed normalize distance ps r))
              _ Hok) as (g & Hg & Hq).
  { apply (pending_bound (constructed normalize distance ps r)).
    intros v c Hv Hc. by eapply graph_ok_elem. }
  exists g. split; [done|]. intros n Hn.
  replace n with (51 * edge_count (constructed normalize distance ps r)
                  + (n - 51 * edge_count (constructed normalize distance ps r)))%nat
    by lia.
  rewrite ticks_add, Hg. simpl. by apply ticks_quiet.
Qed.

(** X15. An edge that is active in a state reached from construction is at
    [8556377 / 8388608] after 51 more ticks and keeps that value and its
    flag for ever; one that is still at [0] is below [1.0] for the 50
    ticks before. *)
Theorem active_edge_completes (ps : list vec3) (r : rng) (m : nat) (g : graph)
    (i k : nat) (c : connection) :
  ticks m (constructed normalize distance ps r) = Some g →
  edge_at g i k = Some c → active c = true →
  (∀ n, (51 ≤ n)%nat →
     ∃ g' c', ticks n g = Some g' ∧ edge_at g' i k = Some c' ∧
              active c' = true ∧ elapsed c' = overshoot ∧
              completed (elapsed c') = true) ∧
  (elapsed c = 0%Q → ∀ n, (n ≤ 50)%nat →
     ∃ g' c', ticks n g = Some g' ∧ edge_at g' i k = Some c' ∧
              active c' = true ∧ completed (elapsed c') = false).
Proof.
  intros Hg Hc Ha.
  pose proof (ticks_from_ok m _ g (constructed_ok normalize distance ps r) Hg) as Hok.
  destruct (edge_at_ok g i k c Hok Hc) as (_ & Ho & _).
  split.
  - intros n Hn.
    destruct (ticks_active_edge n i k g c Hok Hc Ha) as (g' & c' & Hg' & _ & Hc' & Ha' & He').
    exists g', c'. rewrite He', age_from_51 by done. repeat split; done.
  - intros Hz n Hn.
    destruct (ticks_active_edge n i k g c Hok Hc Ha) as (g' & c' & Hg' & _ & Hc' & Ha' & He').
    exists g', c'. rewrite He', Hz. repeat split; try done.
    by apply iterates_below_one.
Qed.


(** X17. Along every run from construction the number of lit cities never
    decreases from one frame to the next, and it is never more than the
    number of edges drawn in the same frame. *)
Theorem lit_cities_grow (ps : list vec3) (r : rng) (n : nat)
    (mapped : list city_vertex) :
  length mapped = length ps →
  ∃ g g' buf buf' (cities cities' : nat),
    ticks n (constructed normalize distance ps r) = Some g ∧
    step_connections g = Some g' ∧
    update_cities_mesh g mapped = Some (buf, cities) ∧
    update_cities_mesh g' mapped = Some (buf', cities') ∧
    (cities ≤ cities')%nat ∧
    (cities ≤ length (render_connections g))%nat.
Proof.
  intros Hlen.
  destruct (ticks_ok n _ (constructed_ok normalize distance ps r))
    as (g & Hg & Hok & Hl).
  rewrite constructed_length in Hl.
  destruct (step_connections_ok g Hok) as (g' & Hg' & Hok' & Hrel).
  destruct (update_cities_mesh_count g mapped) as [buf Hbuf]; [congruence|].
  destruct (update_cities_mesh_count g' mapped) as [buf' Hbuf'].
  { rewrite (proj1 Hrel). congruence. }
  eexists g, g', buf, buf', _, _.
  split; [done|]. split; [done|]. split; [exact Hbuf|]. split; [exact Hbuf'|].
  split.
  - apply (filter_length_grows lit). apply lit_grows; [done|].
    by apply graph_rel_same_shape.
  - apply (lit_count_le_drawn g). intros v c Hv Hc. by eapply graph_ok_elem.
Qed.

End Runs.

(** ** The mapped buffer *)

Lemma update_loop_short (vs : list graph_vertex) :
  ∀ (buf : list city_vertex) (n : nat),
    (n ≤ length buf)%nat →
    (length buf < n + length (filter (λ v, lit v = true) vs))%nat →
    update_loop vs (buf, n) = None.
Proof.
  induction vs as [|v vs IH]; intros buf n Hn Hlt.
  - simpl in Hlt. lia.
  - cbn [update_loop]. rewrite update_vertex_lit.
    destruct (lit v) eqn:Hlit.
    + rewrite filter_cons_True in Hlt by done. simpl in Hlt.
      destruct (decide (n < length buf)%nat) as [Hin | Hout]; [|done].
      cbn [mbind option_bind]. apply IH; rewrite length_insert; lia.
    + rewrite filter_cons_False in Hlt by (by rewrite Hlit).
      cbn [mbind option_bind]. by apply IH.
Qed.

(** With a buffer that has room for the lit cities. *)
Lemma update_cities_mesh_long (g : graph) (mapped : list city_vertex) :
  let cities := length (filter (λ v, lit v = true) g) in
  (cities ≤ length mapped)%nat →
  ∃ buf, update_cities_mesh g mapped = Some (buf, cities) ∧
         length buf = length mapped ∧
         take cities buf = city_entry <$> filter (λ v, lit v = true) g ∧
         drop cities buf = drop cities mapped.
Proof.
  intros cities Hle. unfold update_cities_mesh.
  rewrite update_loop_spec by (fold cities; simpl; lia).
  fold cities. simpl.
  assert (Hlf : length (city_entry <$> filter (λ v, lit v = true) g) = cities)
    by apply length_fmap.
  eexists. split; [reflexivity|].
  split; [rewrite length_app, Hlf, length_drop; lia|].
  split; [by rewrite take_app_length' | by rewrite drop_app_length'].
Qed.

(** X18. [update_cities_mesh] writes past the end of the mapped buffer
    exactly when the buffer has fewer entries than there are lit cities;
    with any buffer that is long enough it counts the lit cities and
    leaves the length of the buffer and the entries behind the written
    ones as they were. *)
Theorem update_cities_mesh_overrun (g : graph) (mapped : list city_vertex) :
  let cities := length (filter (λ v, lit v = true) g) in
  (update_cities_mesh g mapped = None ↔ (length mapped < cities)%nat) ∧
  ((cities ≤ length mapped)%nat →
   ∃ buf, update_cities_mesh g mapped = Some (buf, cities) ∧
          length buf = length mapped ∧
          take cities buf = city_entry <$> filter (λ v, lit v = true) g ∧
          drop cities buf = drop cities mapped).
Proof.
  intros cities. split; [|apply update_cities_mesh_long]. split.
  - intros Hnone. destruct (Nat.lt_ge_cases (length mapped) cities) as [|Hge]; [done|].
    destruct (update_cities_mesh_long g mapped Hge) as (buf & Hsome & _).
    fold cities in Hsome. congruence.
  - intros Hlt. apply update_loop_short; simpl; [lia | done].
Qed.

(** ** The frames of [main] *)

Lemma render_and_step_ok (d : demo) (t : float) :
  graph_ok (graph_ d) → length (cities_ d) = length (graph_ d) →
  ∃ d' f g',
    render_and_step d t = Some (d', f) ∧
    step_connections (graph_ d) = Some g' ∧
    graph_ d' = g' ∧ graph_ok g' ∧
    cur_time_ d' = fadd (cur_time_ d) t ∧
    length (cities_ d') = length g' ∧
    shows (graph_ d) f.
Proof.
  intros Hok Hlen.
  destruct (update_cities_mesh_long (graph_ d) (cities_ d))
    as (buf & Hbuf & Hblen & Htake & _).
  { rewrite Hlen. apply length_filter. }
  destruct (step_connections_ok _ Hok) as (g' & Hg' & Hok' & Hrel).
  unfold render_and_step, render. rewrite Hbuf. simpl. rewrite Hg'. simpl.
  eexists _, _, g'. split; [reflexivity|]. split; [done|].
  simpl. split; [done|]. split; [done|]. split; [done|].
  split; [rewrite (proj1 Hrel); congruence|].
  eexists. split; [reflexivity|]. simpl.
  repeat split; try done. congruence.
Qed.

Lemma main_loop_ok (n : nat) :
  ∀ d : demo,
    graph_ok (graph_ d) → length (cities_ d) = length (graph_ d) →
    ∃ d' fs,
      main_loop n d = Some (d', fs) ∧
      ticks n (graph_ d) = Some (graph_ d') ∧
      cur_time_ d' = Nat.iter n (λ t, fadd t dt) (cur_time_ d) ∧
      length fs = n ∧
      ∀ k f, fs !! k = Some f →
             ∃ g, ticks k (graph_ d) = Some g ∧ shows g f.
Proof.
  induction n as [|n IH]; intros d Hok Hlen.
  - exists d, []. repeat split; try done.
  - destruct (render_and_step_ok d dt Hok Hlen)
      as (d1 & f & g1 & H1 & Hg1 & Hd1 & Hok1 & Ht1 & Hl1 & Hf).
    subst g1.
    destruct (IH d1 Hok1 Hl1) as (d' & fs & Hrun & Hticks & Htime & Hfs & Hshow).
    exists d', (f :: fs). split; [|split; [|split; [|split]]].
    + cbn [main_loop]. rewrite H1. simpl. rewrite Hrun. done.
    + cbn [ticks]. rewrite Hg1. exact Hticks.
    + rewrite Htime, Ht1, Nat.iter_succ_r. reflexivity.
    + simpl. by rewrite Hfs.
    + intros [|k] f' Hk; simpl in Hk.
      * injection Hk as <-. exists (graph_ d). done.
      * destruct (Hshow k f' Hk) as (g & Hg & Hs). exists g. split; [|done].
        cbn [ticks]. rewrite Hg1. exact Hg.
Qed.

Section Frames.

Variable sinf cosf : float → float.
Variable normalize : vec3 → vec3.
Variable distance : vec3 → vec3 → float.


End Frames.

(** ** Rounding keeps the order *)

Module IeeeOrder.

Import Ieee IeeeFacts.

(** [nearest N D] is within one half of [N / D], and even at a tie. *)
Lemma nearest_spec (N D : Z) :
  0 < D →
  - D ≤ 2 * (nearest N D * D - N) ≤ D ∧
  (2 * (nearest N D * D - N) = D ∨ 2 * (nearest N D * D - N) = - D →
   Z.even (nearest N D) = true).
Proof.
  intros HD. pose proof (Z.div_mod N D ltac:(lia)) as Hdm.
  pose proof (Z.mod_pos_bound N D HD) as Hr.
  unfold nearest. set (q := N / D) in *. set (r := N mod D) in *.
  destruct (Z.compare_spec (2 * r) D) as [He | Hl | Hg].
  - destruct (Z.even q) eqn:Hq.
    + split; [nia|]. done.
    + split; [nia|]. intros _.
      replace (q + 1) with (Z.succ q) by lia. by rewrite Z.even_succ, <- Z.negb_even, Hq.
  - split; [nia|]. intros [H | H]; nia.
  - split; [nia|]. intros [H | H]; nia.
Qed.

Lemma nearest_mono (N D N' D' : Z) :
  0 < D → 0 < D' → N * D' ≤ N' * D → nearest N D ≤ nearest N' D'.
Proof.
  intros HD HD' Hle.
  destruct (nearest_spec N D HD) as [[_ Hup] Htie].
  destruct (nearest_spec N' D' HD') as [[Hlo' _] Htie'].
  set (m := nearest N D) in *. set (m' := nearest N' D') in *.
  destruct (Z.le_gt_cases m m') as [|Hgt]; [done|]. exfalso.
  assert (H1 : (2 * m - 1) * D ≤ 2 * N) by lia.
  assert (H2 : 2 * N' ≤ (2 * m' + 1) * D') by lia.
  assert (H3 : (2 * m - 1) * D * D' ≤ 2 * N * D') by nia.
  assert (H4 : 2 * N' * D ≤ (2 * m' + 1) * D' * D) by nia.
  assert (H5 : (2 * m' + 1) * D' * D ≤ (2 * m - 1) * D * D').
  { assert (0 ≤ (2 * m - 1 - (2 * m' + 1)) * (D * D')) by nia. lia. }
  assert (Hm : m = m' + 1).
  { assert ((2 * m - 1 - (2 * m' + 1)) * (D * D') = 0) by lia.
    assert (0 < D * D') by nia. nia. }
  assert (E1 : 2 * (m * D - N) = D).
  { assert ((2 * N - (2 * m - 1) * D) * D' = 0) by lia. nia. }
  assert (E2 : 2 * (m' * D' - N') = - D').
  { assert (((2 * m' + 1) * D' - 2 * N') * D = 0) by lia. nia. }
  pose proof (Htie (or_introl E1)) as Ev.
  pose proof (Htie' (or_intror E2)) as Ev'.
  rewrite Hm in Ev. replace (m' + 1) with (Z.succ m') in Ev by lia.
  rewrite Z.even_succ, <- Z.negb_even, Ev' in Ev. done.
Qed.

Lemma nearest_exact (K : Z) : nearest K 1 = K.
Proof.
  unfold nearest. rewrite Z.mod_1_r, Z.div_1_r. done.
Qed.

(** Above the least exponent the significand is normal. *)
Lemma exponent_normal (fmt : format) (n d : Z) :
  0 < prec fmt → 0 < n → 0 < d →
  emin fmt < exponent fmt n d →
  cmp n d (exponent fmt n d) (2 ^ (prec fmt - 1)) ≠ Gt.
Proof.
  intros Hp Hn Hd.
  destruct (first_guess (prec fmt) n d Hp Hn Hd) as [Hlo Hhi].
  unfold exponent.
  set (e1 := Z.log2 n - Z.log2 d - prec fmt) in *.
  set (e2 := if _ <=? _ then _ else _).
  intros Hgt. replace (Z.max e2 (emin fmt)) with e2 by lia.
  subst e2. destruct (Z.leb_spec (2 ^ prec fmt * (shifted n d e1).2)
                                 (shifted n d e1).1) as [Ht | Ht]; [|done].
  rewrite (cmp_rescale n d e1 (e1 + 1)) by lia.
  replace (e1 + 1 - e1) with 1 by lia. rewrite Z.pow_1_r.
  replace (2 ^ (prec fmt - 1) * 2) with (2 ^ prec fmt)
    by (replace (prec fmt) with (prec fmt - 1 + 1) at 1 by lia;
        by rewrite Z.pow_add_r by lia).
  unfold cmp. intros H%Z.compare_gt_iff. lia.
Qed.

Lemma shifted_cross (n d n' d' e : Z) :
  0 < d → 0 < d' → n * d' ≤ n' * d →
  (shifted n d e).1 * (shifted n' d' e).2 ≤ (shifted n' d' e).1 * (shifted n d e).2.
Proof.
  intros Hd Hd' Hle. unfold shifted.
  destruct (Z.leb_spec 0 e) as [He | He]; simpl.
  - assert (0 < 2 ^ e) by (by apply Z.pow_pos_nonneg). nia.
  - assert (0 < 2 ^ (- e)) by (apply Z.pow_pos_nonneg; lia). nia.
Qed.

Lemma scale2_mono (m m' e : Z) : m ≤ m' → (scale2 m e <= scale2 m' e)%Q.
Proof.
  intros Hle. unfold scale2. destruct (Z.leb_spec 0 e) as [He | He].
  - unfold Qle. simpl. assert (0 < 2 ^ e) by (by apply Z.pow_pos_nonneg). nia.
  - rewrite !Qred_correct. unfold Qle. simpl.
    apply Z.mul_le_mono_nonneg_r; [lia | done].
Qed.

Lemma scale2_exp_mono (M e e' : Z) :
  0 ≤ M → e ≤ e' → (scale2 M e <= scale2 M e')%Q.
Proof.
  intros HM Hle. replace e' with (e + (e' - e)) by lia.
  rewrite <- scale2_shift by lia. apply scale2_mono.
  assert (0 < 2 ^ (e' - e)) by (apply Z.pow_pos_nonneg; lia). nia.
Qed.

Lemma nearest_bounds (fmt : format) (n d : Z) :
  0 < prec fmt → 0 < n → 0 < d →
  let e := exponent fmt n d in
  let m := nearest (shifted n d e).1 (shifted n d e).2 in
  0 ≤ m ≤ 2 ^ prec fmt ∧ (emin fmt < e → 2 ^ (prec fmt - 1) ≤ m).
Proof.
  intros Hp Hn Hd e m.
  destruct (exponent_spec fmt n d Hp Hn Hd) as (Hemin & Hhi & _).
  fold e in Hemin, Hhi.
  destruct (shifted_pos n d e Hn Hd) as [HN HD].
  unfold cmp in Hhi. apply Z.compare_gt_iff in Hhi.
  split.
  - split.
    + rewrite <- (nearest_exact 0). apply nearest_mono; lia.
    + rewrite <- (nearest_exact (2 ^ prec fmt)). apply nearest_mono; lia.
  - intros Hgt. pose proof (exponent_normal fmt n d Hp Hn Hd Hgt) as Hlo.
    fold e in Hlo. unfold cmp in Hlo.
    rewrite <- (nearest_exact (2 ^ (prec fmt - 1))). apply nearest_mono; [lia | lia |].
    destruct (Z.compare_spec (2 ^ (prec fmt - 1) * (shifted n d e).2) (shifted n d e).1);
      [lia | lia | done].
Qed.

Lemma exponent_mono (fmt : format) (n d n' d' : Z) :
  0 < prec fmt → 0 < n → 0 < d → 0 < n' → 0 < d' →
  n * d' ≤ n' * d → exponent fmt n d ≤ exponent fmt n' d'.
Proof.
  intros Hp Hn Hd Hn' Hd' Hle.
  destruct (Z.le_gt_cases (exponent fmt n d) (exponent fmt n' d')) as [|Hgt]; [done|].
  exfalso.
  destruct (exponent_spec fmt n' d' Hp Hn' Hd') as (Hemin' & Hhi' & _).
  pose proof (exponent_normal fmt n d Hp Hn Hd ltac:(lia)) as Hlo.
  set (e := exponent fmt n d) in *. set (e' := exponent fmt n' d') in *.
  assert (Hhi : cmp n' d' e (2 ^ (prec fmt - 1)) = Gt).
  { rewrite (cmp_rescale n' d' e' e) by lia.
    eapply cmp_mono; [done | done | | exact Hhi'].
    assert (2 ≤ 2 ^ (e - e')).
    { replace (e - e') with (1 + (e - e' - 1)) by lia.
      rewrite Z.pow_add_r by lia.
      assert (0 < 2 ^ (e - e' - 1)) by (apply Z.pow_pos_nonneg; lia). lia. }
    assert (2 ^ prec fmt = 2 ^ (prec fmt - 1) * 2).
    { replace (prec fmt) with (prec fmt - 1 + 1) at 1 by lia.
      by rewrite Z.pow_add_r by lia. }
    assert (0 < 2 ^ (prec fmt - 1)) by (apply Z.pow_pos_nonneg; lia). nia. }
  pose proof (shifted_cross n d n' d' e Hd Hd' Hle) as Hx.
  destruct (shifted_pos n d e Hn Hd) as [HN HD].
  destruct (shifted_pos n' d' e Hn' Hd') as [HN' HD'].
  unfold cmp in Hlo, Hhi. apply Z.compare_gt_iff in Hhi.
  assert (Hlo' : 2 ^ (prec fmt - 1) * (shifted n d e).2 ≤ (shifted n d e).1).
  { destruct (Z.compare_spec (2 ^ (prec fmt - 1) * (shifted n d e).2) (shifted n d e).1);
      [lia | lia | done]. }
  assert (0 < 2 ^ (prec fmt - 1)) by (apply Z.pow_pos_nonneg; lia).
  nia.
Qed.

(** Rounding keeps the order of positive rationals. *)
Lemma round_pos_mono (fmt : format) (n d n' d' : Z) :
  0 < prec fmt → 0 < n → 0 < d → 0 < n' → 0 < d' →
  n * d' ≤ n' * d →
  (round_pos fmt n d <= round_pos fmt n' d')%Q.
Proof.
  intros Hp Hn Hd Hn' Hd' Hle.
  pose proof (exponent_mono fmt n d n' d' Hp Hn Hd Hn' Hd' Hle) as He.
  destruct (nearest_bounds fmt n d Hp Hn Hd) as [[_ Hm] _].
  destruct (nearest_bounds fmt n' d' Hp Hn' Hd') as [[Hm0' _] Hm'].
  destruct (exponent_spec fmt n d Hp Hn Hd) as (Hemin & _ & _).
  rewrite !round_pos_unfold.
  set (e := exponent fmt n d) in *. set (e' := exponent fmt n' d') in *.
  destruct (Z.eq_dec e e') as [Heq | Hne].
  - rewrite <- Heq. apply scale2_mono. apply nearest_mono.
    + by destruct (shifted_pos n d e Hn Hd).
    + by destruct (shifted_pos n' d' e Hn' Hd').
    + by apply shifted_cross.
  - specialize (Hm' ltac:(lia)).
    eapply Qle_trans; [apply scale2_mono; exact Hm|].
    eapply Qle_trans; [|apply scale2_mono; exact Hm'].
    replace (2 ^ prec fmt) with (2 ^ (prec fmt - 1) * 2 ^ 1).
    2:{ rewrite <- Z.pow_add_r by lia. f_equal. lia. }
    rewrite scale2_shift by lia. apply scale2_exp_mono; [|lia].
    apply Z.pow_nonneg. lia.
Qed.

Lemma round_pos_nonneg (fmt : format) (n d : Z) :
  0 < prec fmt → 0 < n → 0 < d → (0 <= round_pos fmt n d)%Q.
Proof.
  intros Hp Hn Hd. rewrite round_pos_unfold.
  destruct (nearest_bounds fmt n d Hp Hn Hd) as [[Hm _] _].
  rewrite <- (scale2_zero (exponent fmt n d)). by apply scale2_mono.
Qed.

(** Rounding keeps the order of rationals. *)
Lemma round_mono (fmt : format) (x y : Q) :
  0 < prec fmt → (x <= y)%Q → (round fmt x <= round fmt y)%Q.
Proof.
  intros Hp Hle. destruct x as [n d], y as [n' d']. unfold Qle in Hle.
  simpl in Hle. unfold round. simpl Qnum. simpl Qden.
  destruct n as [|n|n], n' as [|n'|n']; try lia; try apply Qle_refl.
  - by apply round_pos_nonneg.
  - by apply round_pos_mono.
  - apply (Qopp_le_compat 0). by apply round_pos_nonneg.
  - eapply Qle_trans; [apply (Qopp_le_compat 0); by apply round_pos_nonneg|].
    by apply round_pos_nonneg.
  - apply Qopp_le_compat. apply round_pos_mono; try done. lia.
Qed.

End IeeeOrder.

(** ** The error of a rounding *)

Module IeeeError.

Import Ieee IeeeFacts IeeeOrder.

Lemma scale2_Q (m e : Z) : (scale2 m e == inject_Z m * scale2 1 e)%Q.
Proof.
  unfold scale2. destruct (Z.leb_spec 0 e) as [He | He].
  - unfold Qeq, inject_Z. simpl. rewrite ?Pos.mul_1_l. ring.
  - rewrite !Qred_correct. unfold Qeq, inject_Z. simpl.
    rewrite ?Pos.mul_1_l. ring.
Qed.

Lemma scale2_pos (e : Z) : (0 < scale2 1 e)%Q.
Proof.
  unfold scale2. destruct (Z.leb_spec 0 e) as [He | He].
  - unfold Qlt. simpl. assert (0 < 2 ^ e) by (by apply Z.pow_pos_nonneg). lia.
  - rewrite Qred_correct. unfold Qlt. simpl. lia.
Qed.

Lemma shifted_Q (n d e : Z) :
  0 < d →
  (inject_Z (shifted n d e).1 * scale2 1 e * inject_Z d
   == inject_Z n * inject_Z (shifted n d e).2)%Q.
Proof.
  intros Hd. unfold shifted, scale2.
  destruct (Z.leb_spec 0 e) as [He | He]; simpl.
  - unfold Qeq, inject_Z. simpl. rewrite ?Pos.mul_1_l, ?Pos.mul_1_r. ring.
  - rewrite Qred_correct. unfold Qeq, inject_Z. simpl.
    rewrite ?Pos.mul_1_l, ?Pos.mul_1_r.
    rewrite Z2Pos.id by (apply Z.pow_pos_nonneg; lia). ring.
Qed.

Lemma scale2_step (e k : Z) :
  0 ≤ k → (scale2 1 (e + k) == inject_Z (2 ^ k) * scale2 1 e)%Q.
Proof.
  intros Hk. rewrite <- scale2_shift by done. rewrite Z.mul_1_l.
  apply scale2_Q.
Qed.

(** The distance of [m * s] from [x], when [m] is [x / s] moved to the
    nearest integer. *)
Lemma nearest_Q (N D m : Z) (s x : Q) :
  0 < D → (0 < s)%Q →
  - D ≤ 2 * (m * D - N) ≤ D →
  (x * inject_Z D == inject_Z N * s)%Q →
  (- (s * (1 # 2)) <= inject_Z m * s - x)%Q ∧
  (inject_Z m * s - x <= s * (1 # 2))%Q.
Proof.
  intros HD Hs [Hlo Hhi] Hx.
  assert (HDq : (0 < inject_Z D)%Q) by (rewrite <- (Zlt_Qlt 0); done).
  rewrite Zle_Qle in Hlo, Hhi. unfold Z.sub in Hlo, Hhi.
  repeat first [ rewrite inject_Z_mult in Hlo | rewrite inject_Z_plus in Hlo
               | rewrite inject_Z_opp in Hlo ].
  repeat first [ rewrite inject_Z_mult in Hhi | rewrite inject_Z_plus in Hhi
               | rewrite inject_Z_opp in Hhi ].
  change (inject_Z 2) with 2%Q in Hlo, Hhi.
  set (Dq := inject_Z D) in *. set (Nq := inject_Z N) in *.
  set (mq := inject_Z m) in *.
  assert (E1 : ((mq * s - x) * Dq == mq * s * Dq - x * Dq)%Q) by ring.
  rewrite Hx in E1.
  assert (E : ((mq * s - x) * Dq == s * (mq * Dq + - Nq))%Q)
    by (rewrite E1; ring).
  set (t := (mq * Dq + - Nq)%Q) in *.
  assert (P1 : (0 <= s * (2 * t + Dq))%Q)
    by (apply Qmult_le_0_compat; lra).
  assert (P2 : (0 <= s * (Dq - 2 * t))%Q)
    by (apply Qmult_le_0_compat; lra).
  split.
  - apply (Qmult_le_r _ _ Dq HDq). rewrite E. lra.
  - apply (Qmult_le_r _ _ Dq HDq). rewrite E. lra.
Qed.

(** Rounding a positive rational moves it by at most the fraction
    [2^-prec] of its value, or by half the least step for a subnormal. *)
Lemma round_pos_error (fmt : format) (n d : Z) :
  0 < prec fmt → 0 < n → 0 < d →
  (Qabs (round_pos fmt n d - inject_Z n / inject_Z d)
   <= inject_Z n / inject_Z d * scale2 1 (- prec fmt)
      + scale2 1 (emin fmt - 1))%Q.
Proof.
  intros Hp Hn Hd.
  destruct (exponent_spec fmt n d Hp Hn Hd) as (Hemin & _ & _).
  rewrite round_pos_unfold.
  set (e := exponent fmt n d) in *.
  destruct (shifted_pos n d e Hn Hd) as [HN HD].
  pose proof (nearest_spec (shifted n d e).1 (shifted n d e).2 HD) as [Hnear _].
  pose proof (shifted_Q n d e Hd) as Hsh.
  set (N := (shifted n d e).1) in *. set (D := (shifted n d e).2) in *.
  set (m := nearest N D) in *.
  set (s := scale2 1 e). set (x := (inject_Z n / inject_Z d)%Q).
  set (w := scale2 1 (- prec fmt)). set (eta := scale2 1 (emin fmt - 1)).
  assert (Hs : (0 < s)%Q) by apply scale2_pos.
  assert (Hw : (0 < w)%Q) by apply scale2_pos.
  assert (Heta : (0 < eta)%Q) by apply scale2_pos.
  assert (Hdq : (0 < inject_Z d)%Q) by (rewrite <- (Zlt_Qlt 0); done).
  assert (Hnq : (0 < inject_Z n)%Q) by (rewrite <- (Zlt_Qlt 0); done).
  assert (HDq : (0 < inject_Z D)%Q) by (rewrite <- (Zlt_Qlt 0); done).
  assert (Hx0 : (0 < x)%Q).
  { unfold x. apply Qlt_shift_div_l; [done|]. lra. }
  assert (Hx : (x * inject_Z D == inject_Z N * s)%Q).
  { fold s in Hsh. apply (Qmult_inj_r _ _ (inject_Z d)); [lra|].
    assert (E : (x * inject_Z D * inject_Z d == inject_Z n * inject_Z D)%Q)
      by (unfold x; field; lra).
    rewrite E, <- Hsh. ring. }
  destruct (nearest_Q N D m s x HD Hs Hnear Hx) as [Hlo Hhi].
  rewrite scale2_Q. fold s.
  assert (Hhalf : (s * (1 # 2) <= x * w + eta)%Q).
  { destruct (Z.eq_dec e (emin fmt)) as [Heq | Hne].
    - pose proof (scale2_step (emin fmt - 1) 1 ltac:(lia)) as Hst.
      replace (emin fmt - 1 + 1) with e in Hst by lia. fold s eta in Hst.
      change (inject_Z (2 ^ 1)) with 2%Q in Hst.
      assert (0 <= x * w)%Q by (apply Qmult_le_0_compat; lra).
      rewrite Hst. lra.
    - pose proof (exponent_normal fmt n d Hp Hn Hd ltac:(fold e; lia)) as Hlow.
      fold e in Hlow. unfold cmp in Hlow. fold N D in Hlow.
      assert (HZ : 2 ^ (prec fmt - 1) * D ≤ N).
      { destruct (Z.compare_spec (2 ^ (prec fmt - 1) * D) N); [lia | lia | done]. }
      rewrite Zle_Qle, inject_Z_mult in HZ.
      set (P1 := inject_Z (2 ^ (prec fmt - 1))) in *.
      assert (HP1 : (0 < P1)%Q).
      { unfold P1. rewrite <- (Zlt_Qlt 0). apply Z.pow_pos_nonneg; lia. }
      pose proof (scale2_step (- prec fmt) (prec fmt) ltac:(lia)) as Hst.
      replace (- prec fmt + prec fmt) with 0 by lia.
      replace (- prec fmt + prec fmt) with 0 in Hst by lia.
      change (scale2 1 0) with 1%Q in Hst. fold w in Hst.
      replace (2 ^ prec fmt) with (2 * 2 ^ (prec fmt - 1)) in Hst.
      2:{ replace (prec fmt) with (1 + (prec fmt - 1)) at 2 by lia.
          by rewrite Z.pow_add_r by lia. }
      rewrite inject_Z_mult in Hst. fold P1 in Hst.
      change (inject_Z 2) with 2%Q in Hst.
      assert (H1 : (P1 * s <= x)%Q).
      { apply (Qmult_le_r _ _ (inject_Z D) HDq). rewrite Hx.
        assert (0 <= s * (inject_Z N - P1 * inject_Z D))%Q
          by (apply Qmult_le_0_compat; lra).
        lra. }
      assert (H2 : (P1 * s * w <= x * w)%Q)
        by (apply Qmult_le_compat_r; lra).
      assert (H3 : (P1 * s * w == s * (1 # 2))%Q).
      { assert (E : (P1 * s * w == s * (1 # 2) * (2 * P1 * w))%Q) by ring.
        rewrite E, <- Hst. ring. }
      lra. }
  apply Qabs_Qle_condition. split; lra.
Qed.

(** Rounding moves a rational by at most the fraction [2^-prec] of its
    magnitude, or by half the least step for a subnormal. *)
Lemma round_error (fmt : format) (x : Q) :
  0 < prec fmt →
  (Qabs (round fmt x - x)
   <= Qabs x * scale2 1 (- prec fmt) + scale2 1 (emin fmt - 1))%Q.
Proof.
  intros Hp. destruct x as [n d].
  pose proof (scale2_pos (- prec fmt)) as Hw.
  pose proof (scale2_pos (emin fmt - 1)) as Heta.
  unfold round. simpl Qnum. simpl Qden. destruct n as [|n|n].
  - assert (E : ((0 # 1) - (0 # d) == 0)%Q) by (unfold Qeq; simpl; lia).
    rewrite E. assert (E' : ((0 # d) == 0)%Q) by (unfold Qeq; simpl; lia).
    rewrite E'. change (Qabs 0) with 0%Q. lra.
  - pose proof (round_pos_error fmt (Z.pos n) (Z.pos d) Hp eq_refl eq_refl) as H.
    rewrite <- (Qmake_Qdiv (Z.pos n) d) in H.
    rewrite (Qabs_pos (Z.pos n # d)) by (unfold Qle; simpl; lia). exact H.
  - pose proof (round_pos_error fmt (Z.pos n) (Z.pos d) Hp eq_refl eq_refl) as H.
    rewrite <- (Qmake_Qdiv (Z.pos n) d) in H.
    assert (E : ((Z.neg n # d) == - (Z.pos n # d))%Q) by (unfold Qeq; simpl; lia).
    rewrite E.
    assert (E2 : (- round_pos fmt (Z.pos n) (Z.pos d) - - (Z.pos n # d)
                  == - (round_pos fmt (Z.pos n) (Z.pos d) - (Z.pos n # d)))%Q)
      by ring.
    rewrite E2, !Qabs_opp.
    rewrite (Qabs_pos (Z.pos n # d)) by (unfold Qle; simpl; lia). exact H.
Qed.

End IeeeError.

Lemma double_mono (x y : Q) :
  (x <= y)%Q → (Ieee.round Ieee.binary64 x <= Ieee.round Ieee.binary64 y)%Q.
Proof. by apply IeeeOrder.round_mono. Qed.

Lemma float_mono (x y : Q) :
  (x <= y)%Q → (to_float x <= to_float y)%Q.
Proof. by apply IeeeOrder.round_mono. Qed.

(** ** The height of an arc *)

Lemma connection_height_mono (d d' : float) :
  (d <= d')%Q → (connection_height d <= connection_height d')%Q.
Proof.
  intros Hle. unfold connection_height, dadd, dmul, ddiv, to_double.
  apply double_mono.
  assert (H1 : (Ieee.round Ieee.binary64 (d / min_distance)
                <= Ieee.round Ieee.binary64 (d' / min_distance))%Q).
  { apply double_mono. replace min_distance with (3 # 4)%Q by (by vm_compute).
    unfold Qdiv. change (/ (3 # 4))%Q with (4 # 3)%Q. lra. }
  assert (H2 : (Ieee.round Ieee.binary64
                  (Ieee.round Ieee.binary64 (d / min_distance)
                   * dsub max_height min_height)
                <= Ieee.round Ieee.binary64
                     (Ieee.round Ieee.binary64 (d' / min_distance)
                      * dsub max_height min_height))%Q).
  { apply double_mono. replace (dsub max_height min_height) with (1 # 4)%Q
      by (by vm_compute). lra. }
  lra.
Qed.

Lemma double_le_const (x c : Q) :
  (x <= c)%Q → Ieee.round Ieee.binary64 c = c → (Ieee.round Ieee.binary64 x <= c)%Q.
Proof. intros Hle <-. by apply double_mono. Qed.

Lemma double_ge_const (x c : Q) :
  (c <= x)%Q → Ieee.round Ieee.binary64 c = c → (c <= Ieee.round Ieee.binary64 x)%Q.
Proof. intros Hle <-. by apply double_mono. Qed.

(** A [double] operation whose exact result lies between [-B] and [B]
    is within [B * 2^-53 + 2^-63] of it. *)
Lemma double_error (x B : Q) :
  (- B <= x)%Q → (x <= B)%Q →
  (- (B * (1 # 9007199254740992) + (1 # 9223372036854775808))
   <= Ieee.round Ieee.binary64 x - x)%Q ∧
  (Ieee.round Ieee.binary64 x - x
   <= B * (1 # 9007199254740992) + (1 # 9223372036854775808))%Q.
Proof.
  intros Hlo Hhi.
  pose proof (IeeeError.round_error Ieee.binary64 x eq_refl) as H.
  replace (Ieee.scale2 1 (- Ieee.prec Ieee.binary64))
    with (1 # 9007199254740992)%Q in H by (vm_compute; reflexivity).
  assert (Heta : (Ieee.scale2 1 (Ieee.emin Ieee.binary64 - 1)
                  <= 1 # 9223372036854775808)%Q)
    by (vm_compute; discriminate).
  assert (Habs : (Qabs x <= B)%Q) by (apply Qabs_Qle_condition; split; lra).
  apply Qabs_Qle_condition in H. destruct H as [H1 H2].
  assert (Hm : (Qabs x * (1 # 9007199254740992)
                <= B * (1 # 9007199254740992))%Q)
    by (apply Qmult_le_compat_r; [exact Habs | lra]).
  split; lra.
Qed.

Lemma connection_height_bounds (d : float) :
  (0 <= d)%Q → Ieee.Qltb (to_double d) min_distance = true →
  (min_height <= connection_height d)%Q ∧ (connection_height d <= max_height)%Q.
Proof.
  intros H0 Hlt. apply Qltb_lt in Hlt. unfold to_double in Hlt.
  assert (E0 : connection_height 0 = min_height) by (vm_compute; reflexivity).
  assert (E1 : connection_height min_distance = max_height)
    by (vm_compute; reflexivity).
  split.
  - rewrite <- E0. exact (connection_height_mono _ _ H0).
  - rewrite <- E1. apply connection_height_mono. exact (Qlt_le_weak _ _ Hlt).
Qed.

(** X20. The height of an arc grows with the distance of its cities and
    lies between [min_height], for two cities at the same place, and
    [max_height], which no distance below [min_distance] exceeds; so does
    the [float] that [build_connection_geometry] receives. *)
Theorem connection_height_range (d d' : float) :
  (0 <= d)%Q → (d <= d')%Q →
  Ieee.Qltb (to_double d') min_distance = true →
  (min_height <= connection_height d)%Q ∧
  (connection_height d <= connection_height d')%Q ∧
  (connection_height d' <= max_height)%Q ∧
  (to_float min_height <= to_float (connection_height d))%Q ∧
  (to_float (connection_height d) <= to_float (connection_height d'))%Q ∧
  (to_float (connection_height d') <= to_float max_height)%Q.
Proof.
  intros H0 Hle Hlt.
  destruct (connection_height_bounds d' (Qle_trans _ _ _ H0 Hle) Hlt) as [_ Hhi].
  pose proof (connection_height_mono 0 d H0) as Hlo.
  replace (connection_height 0) with min_height in Hlo
    by (vm_compute; reflexivity).
  pose proof (connection_height_mono d d' Hle) as Hmid.
  split; [exact Hlo|]. split; [exact Hmid|]. split; [exact Hhi|].
  split; [exact (float_mono _ _ Hlo)|].
  split; [exact (float_mono _ _ Hmid) | exact (float_mono _ _ Hhi)].
Qed.

(** ** The lift of an arc *)

Lemma scale_range_at (h t : float) :
  (0 <= h)%Q → (0 <= t)%Q → (t <= 1)%Q →
  (1 <= scale h t)%Q ∧ (scale h t <= scale h (1 # 2))%Q.
Proof.
  intros Hh Ht0 Ht1. rewrite scale_at_half.
  unfold scale, dadd, dmul, dsub, to_double.
  set (u := Ieee.round Ieee.binary64 (t - (1 # 2))).
  assert (Hu : (- (1 # 2) <= u)%Q ∧ (u <= 1 # 2)%Q).
  { split.
    - apply double_ge_const; [lra | vm_compute; reflexivity].
    - apply double_le_const; [lra | vm_compute; reflexivity]. }
  set (a := Ieee.round Ieee.binary64 (4 * u)).
  assert (Ha : (- 2 <= a)%Q ∧ (a <= 2)%Q ∧
               ((0 <= u)%Q → (0 <= a)%Q) ∧ ((u <= 0)%Q → (a <= 0)%Q)).
  { split; [|split; [|split]].
    - apply double_ge_const; [lra | vm_compute; reflexivity].
    - apply double_le_const; [lra | vm_compute; reflexivity].
    - intros Hpos. apply double_ge_const; [lra | vm_compute; reflexivity].
    - intros Hneg. apply double_le_const; [lra | vm_compute; reflexivity]. }
  set (p := Ieee.round Ieee.binary64 (a * u)).
  assert (Hp : (0 <= p)%Q ∧ (p <= 1)%Q).
  { destruct Hu as [Hu1 Hu2]. destruct Ha as (Ha1 & Ha2 & Ha3 & Ha4).
    assert (Hprod : (0 <= a * u)%Q ∧ (a * u <= 1)%Q).
    { destruct (Qlt_le_dec u 0) as [Hneg | Hpos].
      - specialize (Ha4 (Qlt_le_weak _ _ Hneg)). split; nra.
      - specialize (Ha3 Hpos). split; nra. }
    split.
    - apply double_ge_const; [tauto | vm_compute; reflexivity].
    - apply double_le_const; [tauto | vm_compute; reflexivity]. }
  set (k := Ieee.round Ieee.binary64 (1 - p)).
  assert (Hk : (0 <= k)%Q ∧ (k <= 1)%Q).
  { split.
    - apply double_ge_const; [lra | vm_compute; reflexivity].
    - apply double_le_const; [lra | vm_compute; reflexivity]. }
  set (hk := Ieee.round Ieee.binary64 (h * k)).
  assert (Hhk : (0 <= hk)%Q ∧ (hk <= Ieee.round Ieee.binary64 h)%Q).
  { split.
    - apply double_ge_const; [nra | vm_compute; reflexivity].
    - apply double_mono. nra. }
  split.
  - apply double_ge_const; [lra | vm_compute; reflexivity].
  - apply double_mono. lra.
Qed.

(** X21. For a height that is not negative, the [double] factor [s] that
    [build_connection_geometry] computes is at least [1] and at most the
    factor at [t = 0.5], for every [float] [t] between [0] and [1], and
    so at the [t] of each of the 256 steps. *)
Theorem scale_range (h : float) :
  (0 <= h)%Q →
  (∀ t : float, (0 <= t)%Q → (t <= 1)%Q →
     (1 <= scale h t)%Q ∧ (scale h t <= scale h (1 # 2))%Q) ∧
  (∀ i : Z, 0 ≤ i < 256 →
     (1 <= scale h (step_t i))%Q ∧ (scale h (step_t i) <= scale h (1 # 2))%Q).
Proof.
  intros Hh. split.
  - intros t. by apply scale_range_at.
  - intros i Hi. destruct (step_t_spec i Hi) as (H0 & H1 & _).
    by apply scale_range_at.
Qed.

Lemma scale_half_mono (h h' : float) :
  (h <= h')%Q → (scale h (1 # 2) <= scale h' (1 # 2))%Q.
Proof.
  intros Hle. rewrite !scale_at_half. unfold dadd. apply double_mono.
  pose proof (double_mono h h' Hle). lra.
Qed.

(** ** The samples of an arc *)

(** A product of two bounded factors. *)
Lemma Qmult_between (x y X Y : Q) :
  (- X <= x)%Q → (x <= X)%Q → (- Y <= y)%Q → (y <= Y)%Q →
  (- (X * Y) <= x * y)%Q ∧ (x * y <= X * Y)%Q.
Proof. intros H1 H2 H3 H4. split; nra. Qed.

(** The five [double] operations of [scale] together move it from the
    rational value of the formula by at most [(1 + |h|) * 2^-50]. *)
Lemma scale_error (h t : float) :
  (0 <= t)%Q → (t <= 1)%Q →
  (Qabs (scale h t - (1 + h * (1 - 4 * (t - (1 # 2)) * (t - (1 # 2)))))
   <= (1 + Qabs h) * (1 # 1125899906842624))%Q.
Proof.
  intros Ht0 Ht1.
  pose proof (Qabs_nonneg h) as HH0.
  pose proof (Qle_Qabs h) as HH1.
  pose proof (Qle_Qabs (- h)) as HH2. rewrite Qabs_opp in HH2.
  set (H := Qabs h) in *.
  unfold scale, dadd, dmul, dsub, to_double.
  set (u := Ieee.round Ieee.binary64 (t - (1 # 2))).
  destruct (double_error (t - (1 # 2)) (1 # 2)) as [Eu1 Eu2]; [lra | lra |].
  fold u in Eu1, Eu2.
  assert (Hu : (- (1 # 2) <= u)%Q ∧ (u <= 1 # 2)%Q).
  { split.
    - apply double_ge_const; [lra | vm_compute; reflexivity].
    - apply double_le_const; [lra | vm_compute; reflexivity]. }
  destruct Hu as [Hu1 Hu2].
  set (a := Ieee.round Ieee.binary64 (4 * u)).
  destruct (double_error (4 * u) 2) as [Ea1 Ea2]; [lra | lra |].
  fold a in Ea1, Ea2.
  assert (Ha : (- 2 <= a)%Q ∧ (a <= 2)%Q ∧
               ((0 <= u)%Q → (0 <= a)%Q) ∧ ((u <= 0)%Q → (a <= 0)%Q)).
  { split; [|split; [|split]].
    - apply double_ge_const; [lra | vm_compute; reflexivity].
    - apply double_le_const; [lra | vm_compute; reflexivity].
    - intros Hpos. apply double_ge_const; [lra | vm_compute; reflexivity].
    - intros Hneg. apply double_le_const; [lra | vm_compute; reflexivity]. }
  destruct Ha as (Ha1 & Ha2 & Ha3 & Ha4).
  assert (Hprod : (0 <= a * u)%Q ∧ (a * u <= 1)%Q).
  { destruct (Qlt_le_dec u 0) as [Hneg | Hpos].
    - specialize (Ha4 (Qlt_le_weak _ _ Hneg)). split; nra.
    - specialize (Ha3 Hpos). split; nra. }
  destruct Hprod as [Hau1 Hau2].
  set (p := Ieee.round Ieee.binary64 (a * u)).
  destruct (double_error (a * u) 1) as [Ep1 Ep2]; [lra | lra |].
  fold p in Ep1, Ep2.
  assert (Hp : (0 <= p)%Q ∧ (p <= 1)%Q).
  { split.
    - apply double_ge_const; [done | vm_compute; reflexivity].
    - apply double_le_const; [done | vm_compute; reflexivity]. }
  destruct Hp as [Hp1 Hp2].
  set (k := Ieee.round Ieee.binary64 (1 - p)).
  destruct (double_error (1 - p) 1) as [Ek1 Ek2]; [lra | lra |].
  fold k in Ek1, Ek2.
  assert (Hk : (0 <= k)%Q ∧ (k <= 1)%Q).
  { split.
    - apply double_ge_const; [lra | vm_compute; reflexivity].
    - apply double_le_const; [lra | vm_compute; reflexivity]. }
  destruct Hk as [Hk1 Hk2].
  destruct (Qmult_between h k H 1) as [Hhk1 Hhk2]; [lra | lra | lra | lra |].
  set (hk := Ieee.round Ieee.binary64 (h * k)).
  destruct (double_error (h * k) H) as [Eh1 Eh2]; [lra | lra |].
  fold hk in Eh1, Eh2.
  set (s := Ieee.round Ieee.binary64 (1 + hk)).
  destruct (double_error (1 + hk)
              (1 + H + (H * (1 # 9007199254740992) + (1 # 9223372036854775808))))
    as [Es1 Es2]; [lra | lra |].
  fold s in Es1, Es2.
  destruct (Qmult_between (a - 4 * u) u
              (2 * (1 # 9007199254740992) + (1 # 9223372036854775808)) (1 # 2))
    as [P1 P1']; [lra | lra | lra | lra |].
  destruct (Qmult_between (u - (t - (1 # 2))) (u + (t - (1 # 2)))
              ((1 # 2) * (1 # 9007199254740992) + (1 # 9223372036854775808)) 1)
    as [P2 P2']; [lra | lra | lra | lra |].
  destruct (Qmult_between h (k - (1 - 4 * (t - (1 # 2)) * (t - (1 # 2)))) H
              (5 * (1 # 9007199254740992) + 7 * (1 # 9223372036854775808)))
    as [P3 P3']; [lra | lra | lra | lra |].
  apply Qabs_Qle_condition. split; lra.
Qed.

(** At the [t] of step [i], which is within [2^-25] of [i / 255]. *)
Lemma scale_step_error (h : float) (i : Z) :
  0 ≤ i < 256 →
  (Qabs (scale h (step_t i)
         - (1 + h * (1 - 4 * (inject_Z i / 255 - (1 # 2))
                           * (inject_Z i / 255 - (1 # 2)))))
   <= (1 + Qabs h) * (1 # 4194304))%Q.
Proof.
  intros Hi. destruct (step_t_spec i Hi) as (H0 & H1 & Herr & _).
  change (1 # 2 ^ 25)%Q with (1 # 33554432)%Q in Herr.
  pose proof (scale_error h (step_t i) H0 H1) as Hs.
  pose proof (Qabs_nonneg h) as HH0.
  pose proof (Qle_Qabs h) as HH1.
  pose proof (Qle_Qabs (- h)) as HH2. rewrite Qabs_opp in HH2.
  set (H := Qabs h) in *.
  set (t := step_t i) in *.
  assert (Hq : (0 <= inject_Z i / 255)%Q ∧ (inject_Z i / 255 <= 1)%Q).
  { assert (Hz : (0 <= inject_Z i)%Q ∧ (inject_Z i <= 255)%Q).
    { split; [change 0%Q with (inject_Z 0) | change 255%Q with (inject_Z 255)];
        rewrite <- Zle_Qle; lia. }
    split.
    - apply Qle_shift_div_l; [reflexivity | lra].
    - apply Qle_shift_div_r; [reflexivity | lra]. }
  set (q := (inject_Z i / 255)%Q) in *. destruct Hq as [Hq0 Hq1].
  apply Qabs_Qle_condition in Hs, Herr.
  destruct Hs as [Hs1 Hs2]. destruct Herr as [Ht1 Ht2].
  destruct (Qmult_between (t - q) (t + q - 1) (1 # 33554432) 1)
    as [P1 P1']; [lra | lra | lra | lra |].
  destruct (Qmult_between h ((t - q) * (t + q - 1)) H ((1 # 33554432) * 1))
    as [P2 P2']; [lra | lra | lra | lra |].
  apply Qabs_Qle_condition. split; lra.
Qed.

Section Samples.

Variable normalize : vec3 → vec3.

(** C7. The geometry of an edge has exactly 256 samples.  Sample [i]
    has [t] the [float] quotient [i / 255], which is within [2^-25] of
    the rational [i / 255], lies in [[0, 1]], grows with [i], is [0] for
    the first sample and [1] for the last.  Its position is the
    normalized blend [from + t * (to - from)], formed component by
    component in [float], with each component multiplied by the [float]
    of [scale t].  The [double] [scale t] differs from the rational
    [1 + height * (1 - 4 * (t - 0.5)^2)] by at most [(1 + |height|) * 2^-50]
    for every [t] in [[0, 1]], and at the [t] of sample [i] from the
    value of that formula at [i / 255] by at most [(1 + |height|) * 2^-22].
    [scale 0 = 1], [scale 1 = 1], and [scale 0.5] is the [double] sum
    [1 + height] for every [float] [height]. *)
Theorem build_connection_geometry_samples (from_normal to_normal : vec3)
    (h : float) :
  let verts := build_connection_geometry normalize from_normal to_normal h in
  length verts = 256%nat ∧
  (∀ i : nat, (i < 256)%nat →
     let t := step_t (Z.of_nat i) in
     let n := normalize
                {| vx := fadd (vx from_normal)
                              (fmul t (fsub (vx to_normal) (vx from_normal)));
                   vy := fadd (vy from_normal)
                              (fmul t (fsub (vy to_normal) (vy from_normal)));
                   vz := fadd (vz from_normal)
                              (fmul t (fsub (vz to_normal) (vz from_normal))) |} in
     let s := to_float (scale h t) in
     verts !! i = Some ({| vx := fmul (vx n) s;
                           vy := fmul (vy n) s;
                           vz := fmul (vz n) s |}, t)) ∧
  (∀ i : Z, 0 ≤ i < 256 →
     step_t i = fdiv (float_of_int i) (float_of_int 255) ∧
     (0 <= step_t i)%Q ∧ (step_t i <= 1)%Q ∧
     (Qabs (step_t i - inject_Z i / 255) <= 1 # 2 ^ 25)%Q ∧
     (i < 255 → (step_t i < step_t (i + 1))%Q)) ∧
  step_t 0 = 0%Q ∧ step_t 255 = 1%Q ∧
  (∀ t : float, (0 <= t)%Q → (t <= 1)%Q →
     (Qabs (scale h t - (1 + h * (1 - 4 * (t - (1 # 2)) * (t - (1 # 2)))))
      <= (1 + Qabs h) * (1 # 1125899906842624))%Q) ∧
  (∀ i : Z, 0 ≤ i < 256 →
     (Qabs (scale h (step_t i)
            - (1 + h * (1 - 4 * (inject_Z i / 255 - (1 # 2))
                              * (inject_Z i / 255 - (1 # 2)))))
      <= (1 + Qabs h) * (1 # 4194304))%Q) ∧
  scale h 0 = 1%Q ∧ scale h 1 = 1%Q ∧
  scale h (1 # 2) = dadd 1 (dmul (to_double h) 1) ∧
  (to_float h = h → scale h (1 # 2) = dadd 1 (to_double h)).
Proof.
  cbv zeta.
  assert (Hb : build_connection_geometry normalize from_normal to_normal h =
               connection_sample normalize from_normal to_normal h
                 <$> seqZ 0 256).
  { unfold build_connection_geometry. by rewrite build_loop_spec. }
  rewrite Hb. split; [by rewrite length_fmap, length_seqZ|].
  split.
  { intros i Hi. rewrite list_lookup_fmap, lookup_seqZ_lt by lia. reflexivity. }
  split.
  { intros i Hi. split; [reflexivity|]. by apply step_t_spec. }
  split; [vm_compute; reflexivity|]. split; [vm_compute; reflexivity|].
  split; [intros t; apply scale_error|].
  split; [intros i; apply scale_step_error|].
  split; [apply scale_at_0|]. split; [apply scale_at_1|].
  split.
  - by rewrite scale_at_half, dmul_one.
  - intros Hh. by rewrite scale_at_half, (IeeeFacts.float_is_double h Hh).
Qed.

End Samples.

Section Arcs.

Variable normalize : vec3 → vec3.
Variable distance : vec3 → vec3 → float.

(** X22. Every edge of the constructed graph between two cities whose
    computed distance is not negative has the geometry built for a height
    between [min_height] and [max_height] as [float]s, and each of its 256
    samples is the normalized blend of the two positions multiplied by
    a factor between [1] and the factor of the highest arc at its
    midpoint. *)
Theorem arc_factors_in_range (ps : list vec3) (r : rng) (i k : nat)
    (c : connection) (pi pj : vec3) :
  edge_at (constructed normalize distance ps r) i k = Some c →
  ps !! i = Some pi → ps !! Z.to_nat (target_vertex c) = Some pj →
  (0 <= distance pi pj)%Q →
  let h := to_float (connection_height (distance pi pj)) in
  mesh c = build_connection_geometry normalize pi pj h ∧
  (to_float min_height <= h)%Q ∧ (h <= to_float max_height)%Q ∧
  ∀ s : nat, (s < 256)%nat →
    mesh c !! s
      = Some (vec_mul_assign
                (normalize (vec_add pi (scalar_mul (step_t (Z.of_nat s))
                                                   (vec_sub pj pi))))
                (scale h (step_t (Z.of_nat s))),
              step_t (Z.of_nat s)) ∧
    (1 <= scale h (step_t (Z.of_nat s)))%Q ∧
    (scale h (step_t (Z.of_nat s)) <= scale (to_float max_height) (1 # 2))%Q.
Proof.
  intros Hc Hpi Hpj Hd h. unfold edge_at in Hc.
  destruct (constructed normalize distance ps r !! i) as [v|] eqn:Hv;
    simpl in Hc; [|done].
  destruct (constructed_edge normalize distance ps r i k v c Hv Hc)
    as (j & Hnear & Hj & Ht & _ & pi' & pj' & Hpi' & Hpj' & Hmesh).
  rewrite Ht, Nat2Z.id in Hpj.
  assert (pi' = pi) by congruence. assert (pj' = pj) by congruence. subst pi' pj'.
  assert (Hlt : Ieee.Qltb (to_double (distance pi pj)) min_distance = true).
  { unfold near in Hnear. rewrite Hpi, Hpj in Hnear.
    by apply andb_prop in Hnear as [_ Hnear]. }
  destruct (connection_height_bounds _ Hd Hlt) as [Hlo Hhi].
  apply float_mono in Hlo, Hhi. fold h in Hlo, Hhi.
  split; [exact Hmesh|]. split; [exact Hlo|]. split; [exact Hhi|].
  intros s Hs.
  assert (Hh : (0 <= h)%Q).
  { eapply Qle_trans; [|exact Hlo]. by vm_compute. }
  split.
  - rewrite Hmesh. unfold build_connection_geometry.
    rewrite build_loop_spec, app_nil_l, list_lookup_fmap.
    change (Z.of_nat (Z.to_nat num_steps)) with 256.
    rewrite lookup_seqZ_lt by lia. reflexivity.
  - destruct (step_t_spec (Z.of_nat s) ltac:(lia)) as (H0 & H1 & _).
    destruct (scale_range_at h _ Hh H0 H1) as [Hs1 Hs2].
    split; [exact Hs1|]. eapply Qle_trans; [exact Hs2|].
    by apply scale_half_mono.
Qed.

End Arcs.

(** ** Further concrete runs *)

(** C5 fails as stated, for the Euclidean distance: [inside] is closer
    to [Scenario.p0] than [0.75], yet its computed distance is [0.75] and
    the pair has no edge; [outside] is not closer than [0.75], yet its
    computed distance is below and the pair has an edge.  All three
    positions have [float] components and lie within [2^-24] of the unit
    sphere. *)
Lemma edge_not_by_exact_distance :
  representable Scenario.p0 = true ∧
  representable Threshold.inside = true ∧
  representable Threshold.outside = true ∧
  euclid_sq Threshold.origin Scenario.p0 = 1%Q ∧
  (Qabs (euclid_sq Threshold.origin Threshold.inside - 1) <= 1 # 16777216)%Q ∧
  (Qabs (euclid_sq Threshold.origin Threshold.outside - 1) <= 1 # 16777216)%Q ∧
  (euclid_sq Scenario.p0 Threshold.inside < (3 # 4) * (3 # 4))%Q ∧
  GlmModel.distance Scenario.p0 Threshold.inside = (3 # 4)%Q ∧
  (∀ r : rng,
     ¬ ∃ k c,
         edge_at (constructed GlmModel.normalize GlmModel.distance
                    [Scenario.p0; Threshold.inside] r) 0 k = Some c ∧
         target_vertex c = 1) ∧
  ((3 # 4) * (3 # 4) <= euclid_sq Scenario.p0 Threshold.outside)%Q ∧
  GlmModel.distance Scenario.p0 Threshold.outside = (12582911 # 16777216)%Q ∧
  (∀ r : rng,
     ∃ k c,
       edge_at (constructed GlmModel.normalize GlmModel.distance
                  [Scenario.p0; Threshold.outside] r) 0 k = Some c ∧
       target_vertex c = 1).
Proof.
  split; [vm_compute; reflexivity|]. split; [vm_compute; reflexivity|].
  split; [vm_compute; reflexivity|]. split; [vm_compute; reflexivity|].
  split; [vm_compute; discriminate|]. split; [vm_compute; discriminate|].
  split; [vm_compute; reflexivity|]. split; [vm_compute; reflexivity|].
  split.
  { intros r Hex.
    apply (constructed_target_near GlmModel.normalize GlmModel.distance
             [Scenario.p0; Threshold.inside] r 0 1) in Hex.
    vm_compute in Hex. discriminate. }
  split; [vm_compute; discriminate|]. split; [vm_compute; reflexivity|].
  intros r.
  apply (constructed_target_near GlmModel.normalize GlmModel.distance
           [Scenario.p0; Threshold.outside] r 0 1).
  vm_compute. reflexivity.
Qed.

Lemma ticks_keep_topology_witness :
  let g := two_vertex_graph Scenario.p0 Scenario.p1 [] [] true 0 false 0 in
  let g' := two_vertex_graph Scenario.p0 Scenario.p1 [] [] true overshoot true (advance 0) in
  length g' = length g ∧
  position <$> g' = position <$> g ∧
  (λ v, target_vertex <$> connections v) <$> g'
    = (λ v, target_vertex <$> connections v) <$> g ∧
  (λ v, mesh <$> connections v) <$> g' = (λ v, mesh <$> connections v) <$> g.
Proof.
  apply (ticks_keep_topology 51). by vm_compute.
Defined.

Lemma activation_has_a_cause_witness :
  ∃ i0 k0 c0 c0',
    edge_at (two_vertex_graph Scenario.p0 Scenario.p1 [] []
               true (8388605 # 8388608) false 0) i0 k0 = Some c0 ∧
    edge_at (two_vertex_graph Scenario.p0 Scenario.p1 [] []
               true overshoot true (advance 0)) i0 k0 = Some c0' ∧
    target_vertex c0 = Z.of_nat 1 ∧
    active c0' = true ∧
    completed (elapsed c0) = false ∧ completed (elapsed c0') = true ∧
    elapsed c0' = advance (elapsed c0).
Proof.
  apply (activation_has_a_cause _ _ 1 0
           {| active := false; elapsed := 0; target_vertex := 0; mesh := [] |}
           {| active := true; elapsed := advance 0; target_vertex := 0; mesh := [] |});
    by vm_compute.
Defined.

Lemma advanced_only_after_earlier_cause_witness :
  advance 0 = 0%Q ∨
  (advance 0 = advance 0 ∧ true = true ∧
   ∃ i0 k0 c0 c0',
     before 1 0 i0 k0 ∧
     edge_at (two_vertex_graph Scenario.p0 Scenario.p1 [] []
                true (8388605 # 8388608) false 0) i0 k0 = Some c0 ∧
     edge_at (two_vertex_graph Scenario.p0 Scenario.p1 [] []
                true overshoot true (advance 0)) i0 k0 = Some c0' ∧
     target_vertex c0 = Z.of_nat 1 ∧
     completed (elapsed c0) = false ∧ completed (elapsed c0') = true).
Proof.
  apply (advanced_only_after_earlier_cause _ _ 1 0
           {| active := false; elapsed := 0; target_vertex := 0; mesh := [] |}
           {| active := true; elapsed := advance 0; target_vertex := 0; mesh := [] |});
    by vm_compute.
Defined.

Lemma drawn_edges_never_decrease_witness :
  (length (render_connections
             (two_vertex_graph Scenario.p0 Scenario.p1 [] [] true 0 false 0))
   ≤ length (render_connections
               (two_vertex_graph Scenario.p0 Scenario.p1 [] []
                  true overshoot true (advance 0))))%nat.
Proof.
  apply (drawn_edges_never_decrease 51). by vm_compute.
Defined.

Lemma ticks_total_in_range_witness :
  ∃ g', ticks 100 (two_vertex_graph Scenario.p0 Scenario.p1 [] []
                     true (-3) false 7) = Some g' ∧ in_range g'.
Proof.
  apply ticks_total_in_range.
  intros [|[|i]] [|k] c H; vm_compute in H; try discriminate;
    injection H as <-; simpl; lia.
Defined.

Lemma out_of_range_target_is_hit_witness :
  step_connections
    [ {| position := Scenario.p0; connections := [] |};
      {| position := Scenario.p1;
         connections :=
           [ {| active := true; elapsed := 8388605 # 8388608;
                target_vertex := 2; mesh := [] |} ] |} ] = None.
Proof.
  apply (out_of_range_target_is_hit _ 1 0
           {| active := true; elapsed := 8388605 # 8388608;
              target_vertex := 2; mesh := [] |}).
  1-4: by vm_compute.
  simpl. lia.
Defined.

Lemma edges_are_stored_by_target_witness :
  let v := {| position := Scenario.p0;
              connections := [ {| active := true; elapsed := 0; target_vertex := 1;
                                  mesh := Scenario.m01 |} ] |} in
  (∀ k1 k2 c1 c2, (k1 < k2)%nat →
     connections v !! k1 = Some c1 → connections v !! k2 = Some c2 →
     target_vertex c1 < target_vertex c2) ∧
  (∀ c, c ∈ connections v → target_vertex c ≠ Z.of_nat 0) ∧
  (length (connections v) < length [Scenario.p0; Scenario.p1])%nat.
Proof.
  apply (edges_are_stored_by_target GlmModel.normalize GlmModel.distance
           [Scenario.p0; Scenario.p1] Scenario.counting 0).
  fold Scenario.g0. rewrite scenario_graph. reflexivity.
Defined.

Lemma edges_come_in_pairs_witness :
  (∃ k c, edge_at Scenario.g0 0 k = Some c ∧ target_vertex c = Z.of_nat 1)
  ↔ (∃ k c, edge_at Scenario.g0 1 k = Some c ∧ target_vertex c = Z.of_nat 0).
Proof.
  apply (edges_come_in_pairs GlmModel.normalize GlmModel.distance
           [Scenario.p0; Scenario.p1] Scenario.counting 0 1 Scenario.p0 Scenario.p1);
    [reflexivity | reflexivity | by vm_compute].
Defined.

Lemma nothing_without_a_seed_witness :
  ticks 1000 (constructed GlmModel.normalize GlmModel.distance
                [Scenario.p0; Scenario.p1] Scenario.ones)
    = Some (constructed GlmModel.normalize GlmModel.distance
              [Scenario.p0; Scenario.p1] Scenario.ones) ∧
  render_connections (constructed GlmModel.normalize GlmModel.distance
                        [Scenario.p0; Scenario.p1] Scenario.ones) = [].
Proof.
  apply nothing_without_a_seed. intros k. by vm_compute.
Defined.

Lemma active_edge_completes_witness :
  (∀ n, (51 ≤ n)%nat →
     ∃ g' c', ticks n Scenario.g0 = Some g' ∧ edge_at g' 0 0 = Some c' ∧
              active c' = true ∧ elapsed c' = overshoot ∧
              completed (elapsed c') = true) ∧
  (0%Q = 0%Q → ∀ n, (n ≤ 50)%nat →
     ∃ g' c', ticks n Scenario.g0 = Some g' ∧ edge_at g' 0 0 = Some c' ∧
              active c' = true ∧ completed (elapsed c') = false).
Proof.
  apply (active_edge_completes GlmModel.normalize GlmModel.distance
           [Scenario.p0; Scenario.p1] Scenario.counting 0 Scenario.g0 0 0
           {| active := true; elapsed := 0; target_vertex := 1;
              mesh := Scenario.m01 |}).
  - reflexivity.
  - rewrite scenario_graph. reflexivity.
  - reflexivity.
Defined.

Lemma lit_cities_grow_witness :
  ∃ g g' buf buf' (cities cities' : nat),
    ticks 51 Scenario.g0 = Some g ∧
    step_connections g = Some g' ∧
    update_cities_mesh g [(Scenario.p0, 0%Q); (Scenario.p0, 0%Q)] = Some (buf, cities) ∧
    update_cities_mesh g' [(Scenario.p0, 0%Q); (Scenario.p0, 0%Q)] = Some (buf', cities') ∧
    (cities ≤ cities')%nat ∧
    (cities ≤ length (render_connections g))%nat.
Proof.
  apply (lit_cities_grow GlmModel.normalize GlmModel.distance
           [Scenario.p0; Scenario.p1] Scenario.counting 51
           [(Scenario.p0, 0%Q); (Scenario.p0, 0%Q)]).
  reflexivity.
Defined.

Lemma connection_height_range_witness :
  (min_height <= connection_height (1 # 4))%Q ∧
  (connection_height (1 # 4) <= connection_height (1 # 2))%Q ∧
  (connection_height (1 # 2) <= max_height)%Q ∧
  (to_float min_height <= to_float (connection_height (1 # 4)))%Q ∧
  (to_float (connection_height (1 # 4)) <= to_float (connection_height (1 # 2)))%Q ∧
  (to_float (connection_height (1 # 2)) <= to_float max_height)%Q.
Proof.
  apply connection_height_range; by vm_compute.
Defined.

Lemma scale_range_witness :
  (∀ t : float, (0 <= t)%Q → (t <= 1)%Q →
     (1 <= scale (flit (3 # 10)) t)%Q ∧
     (scale (flit (3 # 10)) t <= scale (flit (3 # 10)) (1 # 2))%Q) ∧
  (∀ i : Z, 0 ≤ i < 256 →
     (1 <= scale (flit (3 # 10)) (step_t i))%Q ∧
     (scale (flit (3 # 10)) (step_t i) <= scale (flit (3 # 10)) (1 # 2))%Q).
Proof.
  apply scale_range. by vm_compute.
Defined.

Lemma arc_factors_in_range_witness :
  let h := to_float (connection_height (GlmModel.distance Scenario.p0 Scenario.p1)) in
  Scenario.m01 = build_connection_geometry GlmModel.normalize Scenario.p0 Scenario.p1 h ∧
  (to_float min_height <= h)%Q ∧ (h <= to_float max_height)%Q ∧
  ∀ s : nat, (s < 256)%nat →
    Scenario.m01 !! s
      = Some (vec_mul_assign
                (GlmModel.normalize
                   (vec_add Scenario.p0
                      (scalar_mul (step_t (Z.of_nat s))
                                  (vec_sub Scenario.p1 Scenario.p0))))
                (scale h (step_t (Z.of_nat s))),
              step_t (Z.of_nat s)) ∧
    (1 <= scale h (step_t (Z.of_nat s)))%Q ∧
    (scale h (step_t (Z.of_nat s)) <= scale (to_float max_height) (1 # 2))%Q.
Proof.
  apply (arc_factors_in_range GlmModel.normalize GlmModel.distance
           [Scenario.p0; Scenario.p1] Scenario.counting 0 0
           {| active := true; elapsed := 0; target_vertex := 1;
              mesh := Scenario.m01 |} Scenario.p0 Scenario.p1).
  - fold Scenario.g0. rewrite scenario_graph. reflexivity.
  - reflexivity.
  - reflexivity.
  - by vm_compute.
Defined.
